(** * emcache: the client façade and the pipeline builder

    A shallow embedding of [src/emcache/client.py]: the argument checks,
    the routing and connection calls and the reply classification of
    [_Client], and the command builder and reply demultiplexer of
    [_Pipeline].

    Python [bytes] and [str] are both [string] here (a list of 8-bit
    characters); Python integers are [Z]; exceptions are an inductive
    type and every method is a computation in a state-and-error monad over
    the [World]: the client's fields, the pipeline objects and the trace of
    calls made to the cluster and to leased connections. *)

From Stdlib Require Import ZArith Ascii String List Bool Lia.
From stdpp Require Import base option list gmap strings pretty.

Local Open Scope Z_scope.
Local Open Scope string_scope.

Abbreviation bytes := string (only parsing).

(** ** Exceptions *)

(** [RuntimeError] and [ValueError] are Python's; the four command errors
    come from [client_errors].  The f-string messages that interpolate a
    reply keep the reply itself.  [CancelledError] is
    [asyncio.CancelledError], a [BaseException] that is no [Exception].
    [ExternalError] stands for whatever else the cluster, the pool, a
    connection or the timeout guard raise ([asyncio.TimeoutError],
    [OSError], ...): subclasses of [Exception]. *)
Inductive exn : Type :=
| RuntimeError (msg : string)
| ValueError (msg : string)
| TypeError
| IndexError
| AttributeError
| UnicodeDecodeError
| CommandError (response : option bytes)
| StorageCommandError (response : option bytes)
| NotStoredStorageCommandError
| NotFoundCommandError
| CancelledError
| ExternalError (name : string).

#[global] Instance exn_eq_dec : EqDecision exn.
Proof. solve_decision. Defined.

(** [isinstance(e, Exception)], what [except Exception] catches. *)
Definition is_Exception (e : exn) : bool :=
  match e with CancelledError => false | _ => true end.

(** The error every method raises on a closed client. *)
Definition ClientClosed : exn := RuntimeError "Emcache client is closed".

(** ** Constants *)

Definition MAX_ALLOWED_FLAG_VALUE : Z := 2 ^ 16.
Definition MAX_ALLOWED_CAS_VALUE : Z := 2 ^ 64.

Definition CR : ascii := ascii_of_nat 13.
Definition LF : ascii := ascii_of_nat 10.
Definition CRLF : string := String CR (String LF "").

(** Modelled from the spec: the reply tokens of [protocol.py], which is
    not among the sources; the spec lists the status lines by name. *)
Definition STORED : bytes := "STORED".
Definition NOT_STORED : bytes := "NOT_STORED".
Definition EXISTS : bytes := "EXISTS".
Definition NOT_FOUND : bytes := "NOT_FOUND".
Definition DELETED : bytes := "DELETED".
Definition TOUCHED : bytes := "TOUCHED".
Definition OK : bytes := "OK".
Definition END : bytes := "END" ++ CRLF.
Definition VERSION : bytes := "VERSION".

(** ** Keys *)

Definition MAX_KEY_LENGTH : nat := 250.

(** Modelled from the spec: [cyemcache.is_key_valid], compiled code that
    is not among the sources.  The spec's key is a non-empty byte
    sequence of at most 250 bytes none of which is below 0x21 (so no
    space, tab, CR or LF). *)
Definition is_key_byte_valid (c : ascii) : bool := (33 <=? nat_of_ascii c)%nat.

Definition is_key_valid (key : bytes) : bool :=
  (1 <=? String.length key)%nat
  && (String.length key <=? MAX_KEY_LENGTH)%nat
  && forallb is_key_byte_valid (list_ascii_of_string key).

(** ** Python built-ins the façade calls *)

(** [bool(x)] of a byte string or of an optional group: empty and [None]
    are false. *)
Definition truthy (s : string) : bool := negb (String.eqb s "").

Definition truthy_opt (o : option string) : bool :=
  match o with Some s => truthy s | None => false end.

Definition is_space (c : ascii) : bool :=
  let n := nat_of_ascii c in ((9 <=? n) && (n <=? 13) || (n =? 32))%nat.

Definition digit_value (c : ascii) : option Z :=
  let n := nat_of_ascii c in
  if ((48 <=? n) && (n <=? 57))%nat then Some (Z.of_nat n - 48) else None.

Fixpoint lstrip (s : string) : string :=
  match s with
  | String c r => if is_space c then lstrip r else s
  | EmptyString => EmptyString
  end.

Definition rstrip (s : string) : string :=
  String.rev (lstrip (String.rev s)).

(** The digits of a decimal literal: digits with single underscores
    between them.  [after_digit] tells whether the previous character was
    a digit. *)
Fixpoint int_digits (s : string) (acc : Z) (after_digit : bool) : option Z :=
  match s with
  | EmptyString => if after_digit then Some acc else None
  | String c r =>
      match digit_value c with
      | Some d => int_digits r (10 * acc + d) true
      | None =>
          if Ascii.eqb c "_" && after_digit then int_digits r acc false
          else None
      end
  end.

(** [sys.get_int_max_str_digits()], as the interpreter starts: [int]
    refuses a decimal text with more digits. *)
Definition INT_MAX_STR_DIGITS : nat := 4300.

(** The digits of a text; underscores and the sign do not count. *)
Fixpoint count_digits (s : string) : nat :=
  match s with
  | EmptyString => 0
  | String c r =>
      match digit_value c with
      | Some _ => S (count_digits r)
      | None => count_digits r
      end
  end.

(** What [int] reads: the text without its surrounding white space and
    without its sign, and whether the sign was a minus. *)
Definition int_body (s : string) : bool * string :=
  match rstrip (lstrip s) with
  | String "-" r => (true, r)
  | String "+" r => (false, r)
  | r => (false, r)
  end.

(** [int(x)] of a byte string or string, base 10: surrounding white
    space, an optional sign, digits, at most [INT_MAX_STR_DIGITS] of
    them.  [None] is the [ValueError] of an invalid literal or of a
    literal with too many digits. *)
Definition py_int (s : string) : option Z :=
  let '(negative, r) := int_body s in
  if (INT_MAX_STR_DIGITS <? count_digits r)%nat then None
  else (if negative then Z.opp else id) <$> int_digits r 0 false.

(** The scan that comes before the conversion: the digits at the head
    of the text, or [None] when the head is empty or misplaces an
    underscore. *)
Fixpoint scan_digits (s : string) (after_digit : bool) (n : nat) : option nat :=
  match s with
  | EmptyString => if after_digit then Some n else None
  | String c r =>
      match digit_value c with
      | Some _ => scan_digits r true (S n)
      | None =>
          if negb after_digit then None
          else if Ascii.eqb c "_" then scan_digits r false n
          else Some n
      end
  end.

(** The message of that [ValueError]: the limit is checked after the
    scan and before the rest of the text is looked at. *)
Definition int_error (s : string) : string :=
  match scan_digits (int_body s).2 false 0 with
  | Some n =>
      if (INT_MAX_STR_DIGITS <? n)%nat
      then "Exceeds the limit (4300 digits) for integer string conversion"
      else "invalid literal for int() with base 10"
  | None => "invalid literal for int() with base 10"
  end.

(** [sep.join(parts)]. *)
Definition join (sep : string) (parts : list string) : string :=
  String.concat sep parts.

(** [b"%a" % n] for an integer: its decimal digits, with a minus sign. *)
Definition fmt_int (n : Z) : string := pretty n.

(** [s.removeprefix(p)]. *)
Definition removeprefix (p s : string) : string :=
  if String.prefix p s then String.substring (String.length p) (String.length s - String.length p) s
  else s.

Definition startswith (p s : string) : bool := String.prefix p s.

Definition endswith (p s : string) : bool :=
  String.prefix (String.rev p) (String.rev s).

(** ** Data model *)

Inductive Address : Type :=
| MemcachedHostAddress (host : string) (port : Z)
| MemcachedUnixSocketPath (path : string).

#[global] Instance Address_eq_dec : EqDecision Address.
Proof. solve_decision. Defined.

(** A node is identified by its address. *)
Abbreviation Node := Address (only parsing).

Record Item : Type := mkItem {
  value : bytes;
  flags : option Z;
  cas : option Z
}.

#[global] Instance Item_eq_dec : EqDecision Item.
Proof. solve_decision. Defined.

(** ** Connections, the event loop and the world *)

(** What a leased connection is asked to do: one constructor per
    connection method the façade calls, with the arguments it passes. *)
Inductive Request : Type :=
| fetch_command (command : bytes) (keys : list bytes)
| get_and_touch_command (command : bytes) (exptime : Z) (keys : list bytes)
| storage_command (command key val : bytes) (flgs exptime : Z) (noreply : bool) (token : option Z)
| incr_decr_command (command key : bytes) (delta : Z) (noreply : bool)
| touch_command (key : bytes) (exptime : Z) (noreply : bool)
| delete_command (key : bytes) (noreply : bool)
| flush_all_command (delay : Z) (noreply : bool)
| version_command
| stats_command (args : list string)
| cache_memlimit_command (limit : Z) (noreply : bool)
| verbosity_command (level : Z) (noreply : bool)
| _extract_pipeline_data (commands : bytes).

(** The 5-tuple of a retrieval: [keys], [values], [flags], [cas] and
    [client_error] (empty when the server reported none). *)
Definition FetchReply : Type :=
  list bytes * list bytes * list Z * list Z * bytes.

(** Calls that leave the façade, in the order they are made. *)
Inductive Event : Type :=
| EvPickNode (key : bytes)
| EvPickNodes (keys : list bytes)
| EvNode (addr : Address)
| EvConnection (node : Node) (req : Request)
| EvTaskDone (i : nat)
| EvTaskCancel (i : nat)
| EvClusterClose.

(** An [asyncio] task running one node operation of a fan-out.  A task
    is pending until its coroutine ends; [task.cancel()] on a pending
    task only asks for the cancellation, which the loop delivers later:
    the task stays pending, with the request noted.  A coroutine that
    returns or raises an [Exception] leaves the task done with that
    outcome; one that ends in [CancelledError] leaves it cancelled. *)
Inductive TaskState : Type :=
| Pending (cancel_requested : bool)
| Done (r : exn + FetchReply)
| Cancelled.

Record Task : Type := mkTask {
  task_node : Node;
  task_request : Request;
  task_state : TaskState
}.

Definition state_done (st : TaskState) : bool :=
  match st with Pending _ => false | _ => true end.

(** [task.done()]. *)
Definition done (t : Task) : bool := state_done (task_state t).

(** How a coroutine that was left to run ended. *)
Definition final_state (r : exn + FetchReply) : TaskState :=
  match r with
  | inl CancelledError => Cancelled
  | _ => Done r
  end.

(** The exception a task ended with, if it ended with one. *)
Definition ended_with (st : TaskState) : option exn :=
  match st with
  | Done (inl e) => Some e
  | Cancelled => Some CancelledError
  | _ => None
  end.

Record _Client : Type := mk_Client {
  _closed : bool;
  _autobatching : bool
}.

(** A pipeline object; its [client] is the client of the world. *)
Record _Pipeline : Type := mk_Pipeline {
  memcached_host_address : Address;
  stack : list bytes
}.

Record World : Type := mkWorld {
  client : _Client;
  pipelines : gmap nat _Pipeline;
  tasks : list Task;
  trace : list Event
}.

Definition set_closed (b : bool) (w : World) : World :=
  mkWorld (mk_Client b (_autobatching (client w))) (pipelines w) (tasks w) (trace w).

Definition set_pipelines (ps : gmap nat _Pipeline) (w : World) : World :=
  mkWorld (client w) ps (tasks w) (trace w).

(** The world after the object behind reference [p] has become [obj]. *)
Definition put_pipeline (p : nat) (obj : _Pipeline) (w : World) : World :=
  set_pipelines (<[p := obj]> (pipelines w)) w.

Definition set_tasks (ts : list Task) (w : World) : World :=
  mkWorld (client w) (pipelines w) ts (trace w).

Definition add_event (ev : Event) (w : World) : World :=
  mkWorld (client w) (pipelines w) (tasks w) (trace w ++ [ev])%list.

(** *** The monad of methods *)

Definition M (A : Type) : Type := World -> (exn + A) * World.

#[global] Instance M_ret : MRet M := fun A (x : A) w => (inr x, w).

#[global] Instance M_bind : MBind M := fun A B (f : A -> M B) (m : M A) w =>
  match m w with
  | (inr x, w') => f x w'
  | (inl e, w') => (inl e, w')
  end.

#[global] Instance M_fmap : FMap M := fun A B (f : A -> B) (m : M A) w =>
  match m w with
  | (inr x, w') => (inr (f x), w')
  | (inl e, w') => (inl e, w')
  end.

Definition raise {A : Type} (e : exn) : M A := fun w => (inl e, w).

Definition lift {A : Type} (r : exn + A) : M A := fun w => (r, w).

Definition read {A : Type} (f : World -> A) : M A := fun w => (inr (f w), w).

Definition update (f : World -> World) : M unit := fun w => (inr tt, f w).

Definition emit (ev : Event) : M unit := update (add_event ev).

Definition pass : M unit := mret tt.

(** [if c: raise e]. *)
Definition raise_if (c : bool) (e : exn) : M unit :=
  if c then raise e else pass.

(** [for x in xs: body(x)], stopping at the first exception. *)
Fixpoint for_each {A : Type} (xs : list A) (body : A -> M unit) : M unit :=
  match xs with
  | [] => pass
  | x :: rest => body x;; for_each rest body
  end.

(** [[f(x) for x in xs]]. *)
Fixpoint comprehension {A B : Type} (xs : list A) (f : A -> M B) : M (list B) :=
  match xs with
  | [] => mret []
  | x :: rest => y ← f x; ys ← comprehension rest f; mret (y :: ys)
  end.

(** *** Collaborators outside the sources *)

(** [groupdict()] of one match of [regex_memcached_responses]: the named
    groups [execute] reads; a group that took no part is [None]. *)
Record Groups : Type := mkGroups {
  g_error_message : option string;
  g_client_error : option string;
  g_error : option string;
  g_stored : option string;
  g_not_stored : option string;
  g_exists : option string;
  g_not_found : option string;
  g_end : option string;
  g_value : option string;
  g_data : option string;
  g_flags : option string;
  g_cas : option string;
  g_deleted : option string;
  g_touched : option string;
  g_version : option string;
  g_ok : option string;
  g_stats : option string;
  g_incr_decr_value : option string
}.

(** The cluster, the connections, the event loop, the autobatcher and the
    two regular expressions are not among the sources (or belong to the
    interpreter); their answers are inputs.  Those of the cluster, the
    connections and the loop may depend on everything that happened
    before, the trace. *)
Record Env : Type := mkEnv {
  (* [Cluster.pick_node(key)] *)
  pick_node : list Event -> bytes -> exn + Node;
  (* [Cluster.pick_nodes(keys).items()], in the dictionary's order *)
  pick_nodes : list Event -> list bytes -> exn + list (Node * list bytes);
  (* [Cluster.node(address)] *)
  cluster_node : list Event -> Address -> exn + Node;
  (* a retrieval on a leased connection: under the timeout guard for one
     key, inside a task of the fan-out for several *)
  fetch_reply : list Event -> Node -> Request -> exn + FetchReply;
  (* any other command: the reply line, or [None] *)
  line_reply : list Event -> Node -> Request -> exn + option bytes;
  (* the order in which the loop finishes the tasks it runs *)
  completion_order : list Event -> list nat;
  (* how many more tasks finish between a failure and the moment the
     coroutine awaiting [gather] is resumed *)
  late_completions : list Event -> nat;
  (* the timeout guard around [gather]: whether its deadline fires while
     the tasks are awaited, and after how many steps of the loop *)
  deadline : list Event -> option nat;
  (* [AutoBatching(return_flags, return_cas).execute(key)] *)
  autobatching_execute : bool -> bool -> bytes -> M (option Item);
  (* [regex_memcached_responses.finditer(text)] as group dictionaries *)
  responses_finditer : string -> list Groups;
  (* [re.finditer(r"STAT (.+) (.+)\r\n", text)] as pairs of groups *)
  stat_finditer : string -> list (string * string);
  (* [data.decode()] *)
  decode : bytes -> exn + string
}.

(** [xs[i]]. *)
Definition index {A : Type} (xs : list A) (i : nat) : M A :=
  match xs !! i with
  | Some x => mret x
  | None => raise IndexError
  end.

(** A loop that threads an accumulator. *)
Fixpoint fold_each {A S : Type} (xs : list A) (acc : S) (body : S -> A -> M S) : M S :=
  match xs with
  | [] => mret acc
  | x :: rest => acc' ← body acc x; fold_each rest acc' body
  end.

(** [dict(pairs)]: a later pair replaces an earlier one with its key. *)
Definition py_dict (pairs : list (string * string)) : gmap string string :=
  foldl (fun m kv => <[kv.1 := kv.2]> m) ∅ pairs.

Definition KEY_ERROR : exn := ValueError "Key has invalid charcters".
Definition FLAGS_ERROR : exn :=
  ValueError ("flags can not be higher than " ++ fmt_int MAX_ALLOWED_FLAG_VALUE).
Definition DELTA_ERROR : exn :=
  ValueError "Incr or Decr by a positive value number expected".

(** [if not data or not test(data): raise CommandError]. *)
Definition falsy_or_not (test : bytes -> bool) (result : option bytes) : bool :=
  match result with
  | Some r => negb (truthy r) || negb (test r)
  | None => true
  end.

(** [result == TOKEN] on a reply that may be [None]. *)
Definition is_token (result : option bytes) (token : bytes) : bool :=
  bool_decide (result = Some token).

(** ** The cluster and the connections, as seen from the façade *)

Section Collaborators.
Variable env : Env.

Definition cluster_pick_node (key : bytes) : M Node :=
  tr ← read trace; emit (EvPickNode key);; lift (pick_node env tr key).

Definition cluster_pick_nodes (keys : list bytes) : M (list (Node * list bytes)) :=
  tr ← read trace; emit (EvPickNodes keys);; lift (pick_nodes env tr keys).

Definition cluster_get_node (addr : Address) : M Node :=
  tr ← read trace; emit (EvNode addr);; lift (cluster_node env tr addr).

(** [async with OpTimeout(...): async with node.connection() as
    connection: return await connection.<request>]. *)
Definition connection_fetch (node : Node) (req : Request) : M FetchReply :=
  tr ← read trace; emit (EvConnection node req);; lift (fetch_reply env tr node req).

Definition connection_line (node : Node) (req : Request) : M (option bytes) :=
  tr ← read trace; emit (EvConnection node req);; lift (line_reply env tr node req).

(** *** The event loop *)

(** [loop.create_task(node_operation(node, keys))]: the handle is the
    task's position in the loop. *)
Definition create_task (job : Node * Request) : M nat :=
  fun w => (inr (length (tasks w)),
            set_tasks (tasks w ++ [mkTask job.1 job.2 (Pending false)])%list w).

Definition set_task_state (i : nat) (st : TaskState) : M unit :=
  update (fun w =>
    match tasks w !! i with
    | Some t => set_tasks (<[i := mkTask (task_node t) (task_request t) st]> (tasks w)) w
    | None => w
    end).

(** The loop runs a pending task to its end; the answer is the
    exception the task ended with, if any.  A task whose cancellation
    was requested gets [CancelledError] instead of its round trip. *)
Definition run_task (i : nat) : M (option exn) := fun w =>
  match tasks w !! i with
  | Some (mkTask node req (Pending false)) =>
      let '(r, w') := connection_fetch node req w in
      (inr (ended_with (final_state r)),
       add_event (EvTaskDone i)
         (set_tasks (<[i := mkTask node req (final_state r)]> (tasks w')) w'))
  | Some (mkTask node req (Pending true)) =>
      (inr (Some CancelledError),
       add_event (EvTaskDone i)
         (set_tasks (<[i := mkTask node req Cancelled]> (tasks w)) w))
  | _ => (inr None, w)
  end.

(** [await asyncio.gather] over the tasks: tasks finish in the loop's order;
    the first exception of a task, [CancelledError] for a task that
    ended cancelled, is handed to the awaiting coroutine and the other
    tasks are left as they are.  The result is that exception and the
    rest of the loop's order. *)
Fixpoint gather (order : list nat) : M (option exn * list nat) :=
  match order with
  | [] => mret (None, [])
  | i :: rest =>
      failure ← run_task i;
      match failure with
      | Some e => mret (Some e, rest)
      | None => gather rest
      end
  end.

(** [for task in tasks: if not task.done(): task.cancel()]. *)
Definition cancel_pending (handles : list nat) : M unit :=
  for_each handles (fun i =>
    ts ← read tasks;
    match ts !! i with
    | Some t =>
        if negb (done t) then set_task_state i (Pending true);; emit (EvTaskCancel i)
        else pass
    | None => pass
    end).

(** [task.result()]. *)
Definition task_result (i : nat) : M FetchReply :=
  ts ← read tasks;
  match task_state <$> ts !! i with
  | Some (Done (inr r)) => mret r
  | Some (Done (inl e)) => raise e
  | Some Cancelled => raise CancelledError
  | _ => raise (ExternalError "InvalidStateError")
  end.

(** [all(task.done() for task in tasks)]. *)
Definition all_done (handles : list nat) : M bool :=
  ts ← read tasks;
  mret (forallb (fun i => match ts !! i with Some t => done t | None => false end)
                handles).

(** The body shared by the two fan-out proxies, from the creation of
    the tasks to the list of their results.

    Left to itself every task of the call finishes: the loop's order is
    followed by the tasks in creation order, and a task that has
    finished is not run again.  [except Exception] catches the first
    exception of a task unless it is a [CancelledError]: that one leaves
    the proxy as it is, with no task cancelled.

    Modelled from the spec: the timeout guard of [timeout.py], which is
    not among the sources.  When its deadline fires while the tasks are
    awaited the guard asks for the cancellation of what is awaited,
    which for [gather] asks for that of every task not yet done, and
    the proxy fails with [asyncio.TimeoutError].  A deadline that fires
    once a task has failed, between the failure and the handler, is not
    modelled. *)
Definition fan_out (jobs : list (Node * Request)) : M (list FetchReply) :=
  handles ← comprehension jobs create_task;
  tr ← read trace;
  let order :=
    (filter (fun i => i ∈ handles) (completion_order env tr) ++ handles)%list in
  let awaited :=
    match deadline env tr with Some steps => take steps order | None => order end in
  '(failure, rest) ← gather awaited;
  match failure with
  | Some e =>
      tr' ← read trace;
      for_each (take (late_completions env tr') rest)
               (fun i => run_task i;; pass);;
      (if is_Exception e then cancel_pending handles else pass);;
      raise e
  | None =>
      finished ← all_done handles;
      if (finished : bool) then comprehension handles task_result
      else cancel_pending handles;; raise (ExternalError "TimeoutError")
  end.

End Collaborators.

(** ** [_Client] *)

Module Client.
Section Methods.
Variable env : Env.

Definition closed : M bool := read (fun w => _closed (client w)).

Definition check_closed : M unit :=
  is_closed ← closed; raise_if is_closed ClientClosed.

Definition check_key (key : bytes) : M unit :=
  raise_if (negb (is_key_valid key)) KEY_ERROR.

Definition _storage_command (command key val : bytes) (flgs exptime : Z)
    (noreply : bool) (token : option Z) : M (option bytes) :=
  check_closed;;
  raise_if (match token with Some c => (c >? MAX_ALLOWED_CAS_VALUE)%Z | None => false end)
           FLAGS_ERROR;;
  raise_if (flgs >? MAX_ALLOWED_FLAG_VALUE)%Z FLAGS_ERROR;;
  check_key key;;
  node ← cluster_pick_node env key;
  connection_line env node (storage_command command key val flgs exptime noreply token).

Definition _incr_decr_command (command key : bytes) (delta : Z) (noreply : bool)
    : M (option bytes) :=
  check_closed;;
  raise_if (delta <? 0)%Z DELTA_ERROR;;
  check_key key;;
  node ← cluster_pick_node env key;
  connection_line env node (incr_decr_command command key delta noreply).

Definition _fetch_command (command key : bytes) : M FetchReply :=
  check_closed;;
  check_key key;;
  node ← cluster_pick_node env key;
  connection_fetch env node (fetch_command command [key]).

(** For an empty [keys] the source returns an empty dictionary, which
    its callers iterate like the empty list of node results. *)
Definition _fetch_many_command (command : bytes) (keys : list bytes)
    (return_flags : bool) : M (list FetchReply) :=
  check_closed;;
  match keys with
  | [] => mret []
  | _ =>
      for_each keys check_key;;
      groups ← cluster_pick_nodes env keys;
      fan_out env (map (fun g : Node * list bytes => (g.1, fetch_command command g.2)) groups)
  end.

Definition _get_and_touch_command (command : bytes) (exptime : Z) (key : bytes)
    : M FetchReply :=
  check_closed;;
  check_key key;;
  node ← cluster_pick_node env key;
  connection_fetch env node (get_and_touch_command command exptime [key]).

Definition _get_and_touch_many_command (command : bytes) (exptime : Z)
    (keys : list bytes) (return_flags : bool) : M (list FetchReply) :=
  check_closed;;
  match keys with
  | [] => mret []
  | _ =>
      for_each keys check_key;;
      groups ← cluster_pick_nodes env keys;
      fan_out env
        (map (fun g : Node * list bytes => (g.1, get_and_touch_command command exptime g.2))
             groups)
  end.

Definition close : M unit :=
  is_closed ← closed;
  if (is_closed : bool) then pass
  else update (set_closed true);; emit EvClusterClose.

(** The tail of [get], [gets], [gat] and [gats]: from the reply to the
    item.  [with_cas] is true where the source passes [cas[0]]. *)
Definition single_item (key : bytes) (return_flags with_cas : bool)
    (reply : FetchReply) : M (option Item) :=
  let '(keys, values, flgs, tokens, client_error) := reply in
  raise_if (truthy client_error) (CommandError (Some client_error));;
  if negb (bool_decide (key ∈ keys)) then mret None
  else
    v ← index values 0%nat;
    f ← (if return_flags then Some <$> index flgs 0%nat else mret None);
    c ← (if with_cas then Some <$> index tokens 0%nat else mret None);
    mret (Some (mkItem v f c)).

Definition get (key : bytes) (return_flags : bool) : M (option Item) :=
  autobatching ← read (fun w => _autobatching (client w));
  if (autobatching : bool) then
    if negb return_flags then autobatching_execute env false false key
    else autobatching_execute env true false key
  else
    reply ← _fetch_command "get" key;
    single_item key return_flags false reply.

Definition gets (key : bytes) (return_flags : bool) : M (option Item) :=
  autobatching ← read (fun w => _autobatching (client w));
  if (autobatching : bool) then
    if negb return_flags then autobatching_execute env false true key
    else autobatching_execute env true true key
  else
    reply ← _fetch_command "gets" key;
    single_item key return_flags true reply.

(** The loops of the [*_many] methods: every node result is checked for
    a client error, then each of its keys is stored with its item. *)
Definition collect_items (return_flags with_cas : bool)
    (nodes_results : list FetchReply) : M (gmap bytes Item) :=
  fold_each nodes_results (∅ : gmap bytes Item) (fun results reply =>
    let '(keys, values, flgs, tokens, client_error) := reply in
    raise_if (truthy client_error) (CommandError (Some client_error));;
    fold_each (seq 0 (length keys)) results (fun results idx =>
      v ← index values idx;
      f ← (if return_flags then Some <$> index flgs idx else mret None);
      c ← (if with_cas then Some <$> index tokens idx else mret None);
      k ← index keys idx;
      mret (<[k := mkItem v f c]> results))).

Definition get_many (keys : list bytes) (return_flags : bool) : M (gmap bytes Item) :=
  nodes_results ← _fetch_many_command "get" keys return_flags;
  collect_items return_flags false nodes_results.

Definition gets_many (keys : list bytes) (return_flags : bool) : M (gmap bytes Item) :=
  nodes_results ← _fetch_many_command "gets" keys return_flags;
  collect_items return_flags true nodes_results.

Definition set (key val : bytes) (flgs exptime : Z) (noreply : bool) : M unit :=
  result ← _storage_command "set" key val flgs exptime noreply None;
  if negb noreply && negb (is_token result STORED)
  then raise (StorageCommandError result)
  else pass.

Definition add (key val : bytes) (flgs exptime : Z) (noreply : bool) : M unit :=
  result ← _storage_command "add" key val flgs exptime noreply None;
  if negb noreply && is_token result NOT_STORED
  then raise NotStoredStorageCommandError
  else if negb noreply && negb (is_token result STORED)
  then raise (StorageCommandError result)
  else pass.

Definition replace (key val : bytes) (flgs exptime : Z) (noreply : bool) : M unit :=
  result ← _storage_command "replace" key val flgs exptime noreply None;
  if negb noreply && is_token result NOT_STORED
  then raise NotStoredStorageCommandError
  else if negb noreply && negb (is_token result STORED)
  then raise (StorageCommandError result)
  else pass.

Definition append (key val : bytes) (noreply : bool) : M unit :=
  let flgs := 0 in
  let exptime := 0 in
  result ← _storage_command "append" key val flgs exptime noreply None;
  if negb noreply && is_token result NOT_STORED
  then raise NotStoredStorageCommandError
  else if negb noreply && negb (is_token result STORED)
  then raise (StorageCommandError result)
  else pass.

Definition prepend (key val : bytes) (noreply : bool) : M unit :=
  let flgs := 0 in
  let exptime := 0 in
  result ← _storage_command "prepend" key val flgs exptime noreply None;
  if negb noreply && is_token result NOT_STORED
  then raise NotStoredStorageCommandError
  else if negb noreply && negb (is_token result STORED)
  then raise (StorageCommandError result)
  else pass.

Definition cas (key val : bytes) (token : Z) (flgs exptime : Z) (noreply : bool) : M unit :=
  result ← _storage_command "cas" key val flgs exptime noreply (Some token);
  if negb noreply && is_token result EXISTS
  then raise NotStoredStorageCommandError
  else if negb noreply && negb (is_token result STORED)
  then raise (StorageCommandError result)
  else pass.

(** [int(result)] of a reply. *)
Definition int_of_reply (result : option bytes) : M Z :=
  match result with
  | None => raise TypeError
  | Some r =>
      match py_int r with
      | Some n => mret n
      | None => raise (ValueError (int_error r))
      end
  end.

Definition increment (key : bytes) (delta : Z) (noreply : bool) : M (option Z) :=
  result ← _incr_decr_command "incr" key delta noreply;
  if noreply then mret None
  else if is_token result NOT_FOUND then raise NotFoundCommandError
  else Some <$> int_of_reply result.

Definition decrement (key : bytes) (delta : Z) (noreply : bool) : M (option Z) :=
  result ← _incr_decr_command "decr" key delta noreply;
  if noreply then mret None
  else if is_token result NOT_FOUND then raise NotFoundCommandError
  else Some <$> int_of_reply result.

Definition touch (key : bytes) (exptime : Z) (noreply : bool) : M unit :=
  check_closed;;
  check_key key;;
  node ← cluster_pick_node env key;
  result ← connection_line env node (touch_command key exptime noreply);
  if noreply then pass
  else if is_token result NOT_FOUND then raise NotFoundCommandError
  else if negb (is_token result TOUCHED) then raise (CommandError result)
  else pass.

Definition delete (key : bytes) (noreply : bool) : M unit :=
  check_closed;;
  check_key key;;
  node ← cluster_pick_node env key;
  result ← connection_line env node (delete_command key noreply);
  if noreply then pass
  else if is_token result NOT_FOUND then raise NotFoundCommandError
  else if negb (is_token result DELETED) then raise (CommandError result)
  else pass.

Definition flush_all (addr : Address) (delay : Z) (noreply : bool) : M unit :=
  check_closed;;
  node ← cluster_get_node env addr;
  result ← connection_line env node (flush_all_command delay noreply);
  if noreply then pass
  else if negb (is_token result OK) then raise (CommandError result)
  else pass.

Definition version (addr : Address) : M string :=
  check_closed;;
  node ← cluster_get_node env addr;
  result ← connection_line env node version_command;
  if falsy_or_not (startswith VERSION) result then raise (CommandError result)
  else lift (decode env (removeprefix "VERSION " (default "" result))).

Definition gat (exptime : Z) (key : bytes) (return_flags : bool) : M (option Item) :=
  reply ← _get_and_touch_command "gat" exptime key;
  single_item key return_flags false reply.

Definition gats (exptime : Z) (key : bytes) (return_flags : bool) : M (option Item) :=
  reply ← _get_and_touch_command "gats" exptime key;
  single_item key return_flags true reply.

Definition gat_many (exptime : Z) (keys : list bytes) (return_flags : bool)
    : M (gmap bytes Item) :=
  nodes_results ← _get_and_touch_many_command "gat" exptime keys return_flags;
  collect_items return_flags false nodes_results.

Definition gats_many (exptime : Z) (keys : list bytes) (return_flags : bool)
    : M (gmap bytes Item) :=
  nodes_results ← _get_and_touch_many_command "gats" exptime keys return_flags;
  collect_items return_flags true nodes_results.

Definition cache_memlimit (addr : Address) (limit : Z) (noreply : bool) : M unit :=
  check_closed;;
  node ← cluster_get_node env addr;
  result ← connection_line env node (cache_memlimit_command limit noreply);
  if noreply then pass
  else if negb (is_token result OK) then raise (CommandError result)
  else pass.

Definition stats (addr : Address) (args : list string) : M (gmap string string) :=
  check_closed;;
  node ← cluster_get_node env addr;
  result ← connection_line env node (stats_command args);
  if falsy_or_not (endswith END) result then raise (CommandError result)
  else
    text ← lift (decode env (default "" result));
    mret (py_dict (stat_finditer env text)).

Definition verbosity (addr : Address) (level : Z) (noreply : bool) : M unit :=
  check_closed;;
  node ← cluster_get_node env addr;
  result ← connection_line env node (verbosity_command level noreply);
  if noreply then pass
  else if negb (is_token result OK) then raise (CommandError result)
  else pass.

(** [_Pipeline(memcached_host_address, self)]: a new object with an
    empty stack; the result is the reference to it. *)
Definition pipeline (addr : Address) : M nat :=
  ps ← read pipelines;
  let p := fresh (dom ps) in
  update (put_pipeline p (mk_Pipeline addr []));;
  mret p.

End Methods.
End Client.

(** ** [_Pipeline] *)

(** One record of the list [execute] returns: a string (a status, an
    error message or a version), [Item(data, flags, cas)] built from the
    matched text, a statistics dictionary or a counter value. *)
Inductive Response : Type :=
| RStr (s : string)
| RItem (data : option string) (flgs : Z) (token : option Z)
| RStats (d : gmap string string)
| RInt (n : Z).

Module Pipeline.
Section Methods.
Variable env : Env.

(** [self], [self.stack] and [self.stack = ...] through a reference. *)
Definition self (p : nat) : M _Pipeline :=
  ps ← read pipelines;
  match ps !! p with
  | Some obj => mret obj
  | None => raise AttributeError
  end.

Definition set_stack (p : nat) (st : list bytes) : M unit :=
  obj ← self p;
  update (put_pipeline p (mk_Pipeline (memcached_host_address obj) st)).

(** [self.stack.append(command)]. *)
Definition stack_append (p : nat) (command : bytes) : M unit :=
  obj ← self p;
  set_stack p (stack obj ++ [command])%list.

Definition __aenter__ (p : nat) : M nat := mret p.

Definition __aexit__ (p : nat) : M unit := set_stack p [].

Definition check_key (key : bytes) : M unit :=
  raise_if (negb (is_key_valid key)) KEY_ERROR.

Definition noreply_token (noreply : bool) : bytes :=
  if noreply then " noreply" else "".

Definition _retrieval_command (command : bytes) (keys : list bytes) : M bytes :=
  for_each keys check_key;;
  mret (command ++ " " ++ join " " keys ++ CRLF).

Definition _storage_command (command key val : bytes) (flgs exptime : Z)
    (noreply : bool) (token : option Z) : M bytes :=
  raise_if (match token with Some c => (c >? MAX_ALLOWED_CAS_VALUE)%Z | None => false end)
           FLAGS_ERROR;;
  raise_if (flgs >? MAX_ALLOWED_FLAG_VALUE)%Z FLAGS_ERROR;;
  check_key key;;
  let extra :=
    match token with
    | Some c => if negb noreply then " " ++ fmt_int c else " " ++ fmt_int c ++ " noreply"
    | None => if negb noreply then "" else " noreply"
    end in
  mret (command ++ " " ++ key ++ " " ++ fmt_int flgs ++ " " ++ fmt_int exptime ++ " "
          ++ fmt_int (Z.of_nat (String.length val)) ++ extra ++ CRLF ++ val ++ CRLF).

Definition _incr_decr_command (command key : bytes) (delta : Z) (noreply : bool)
    : M bytes :=
  raise_if (delta <? 0)%Z DELTA_ERROR;;
  check_key key;;
  mret (command ++ " " ++ key ++ " " ++ fmt_int delta ++ noreply_token noreply ++ CRLF).

Definition _get_and_touch_command (command : bytes) (exptime : Z) (keys : list bytes)
    : M bytes :=
  for_each keys check_key;;
  mret (command ++ " " ++ fmt_int exptime ++ " " ++ join " " keys ++ CRLF).

(** [int(groups[name])]. *)
Definition int_of_group (g : option string) : M Z :=
  match g with
  | None => raise TypeError
  | Some s =>
      match py_int s with
      | Some n => mret n
      | None => raise (ValueError (int_error s))
      end
  end.

(** The body of the loop of [execute]: what one match appends to
    [response]. *)
Definition record_of (groups : Groups) : M (list Response) :=
  if truthy_opt (g_error_message groups) then mret [RStr (default "" (g_error_message groups))]
  else if truthy_opt (g_client_error groups) then mret [RStr (default "" (g_client_error groups))]
  else if truthy_opt (g_error groups) then mret [RStr "ERROR"]
  else if truthy_opt (g_stored groups) then mret [RStr "STORED"]
  else if truthy_opt (g_not_stored groups) then mret [RStr "NOT_STORED"]
  else if truthy_opt (g_exists groups) then mret [RStr "EXISTS"]
  else if truthy_opt (g_not_found groups) then mret [RStr "NOT_FOUND"]
  else if truthy_opt (g_end groups) then mret [RStr "END"]
  else if truthy_opt (g_value groups) then
    f ← int_of_group (g_flags groups);
    c ← (if truthy_opt (g_cas groups) then Some <$> int_of_group (g_cas groups)
         else mret None);
    mret [RItem (g_data groups) f c]
  else if truthy_opt (g_deleted groups) then mret [RStr "DELETED"]
  else if truthy_opt (g_touched groups) then mret [RStr "TOUCHED"]
  else if truthy_opt (g_version groups) then
    mret [RStr (removeprefix "VERSION " (default "" (g_version groups)))]
  else if truthy_opt (g_ok groups) then mret [RStr "OK"]
  else if truthy_opt (g_stats groups) then
    mret [RStats (py_dict (stat_finditer env (default "" (g_stats groups))))]
  else if truthy_opt (g_incr_decr_value groups) then
    n ← int_of_group (g_incr_decr_value groups);
    mret [RInt n]
  else mret [].

Definition execute (p : nat) : M (list Response) :=
  is_closed ← Client.closed;
  raise_if is_closed ClientClosed;;
  obj ← self p;
  let commands := join "" (stack obj) in
  node ← cluster_get_node env (memcached_host_address obj);
  result ← connection_line env node (_extract_pipeline_data commands);
  text ← match result with
         | Some data => lift (decode env data)
         | None => raise AttributeError
         end;
  response ← fold_each (responses_finditer env text) []
               (fun response groups =>
                  new ← record_of groups; mret (response ++ new)%list);
  set_stack p [];;
  mret response.

Definition get (p : nat) (key : bytes) : M nat :=
  command ← _retrieval_command "get" [key];
  stack_append p command;; mret p.

Definition gets (p : nat) (key : bytes) : M nat :=
  command ← _retrieval_command "gets" [key];
  stack_append p command;; mret p.

Definition get_many (p : nat) (keys : list bytes) : M nat :=
  command ← _retrieval_command "get" keys;
  stack_append p command;; mret p.

Definition gets_many (p : nat) (keys : list bytes) : M nat :=
  command ← _retrieval_command "gets" keys;
  stack_append p command;; mret p.

Definition set (p : nat) (key val : bytes) (flgs exptime : Z) (noreply : bool) : M nat :=
  command ← _storage_command "set" key val flgs exptime noreply None;
  stack_append p command;; mret p.

Definition add (p : nat) (key val : bytes) (flgs exptime : Z) (noreply : bool) : M nat :=
  command ← _storage_command "add" key val flgs exptime noreply None;
  stack_append p command;; mret p.

Definition replace (p : nat) (key val : bytes) (flgs exptime : Z) (noreply : bool) : M nat :=
  command ← _storage_command "replace" key val flgs exptime noreply None;
  stack_append p command;; mret p.

Definition append (p : nat) (key val : bytes) (noreply : bool) : M nat :=
  command ← _storage_command "append" key val 0 0 noreply None;
  stack_append p command;; mret p.

Definition prepend (p : nat) (key val : bytes) (noreply : bool) : M nat :=
  command ← _storage_command "prepend" key val 0 0 noreply None;
  stack_append p command;; mret p.

Definition cas (p : nat) (key val : bytes) (token : Z) (flgs exptime : Z)
    (noreply : bool) : M nat :=
  command ← _storage_command "cas" key val flgs exptime noreply (Some token);
  stack_append p command;; mret p.

Definition increment (p : nat) (key : bytes) (delta : Z) (noreply : bool) : M nat :=
  command ← _incr_decr_command "incr" key delta noreply;
  stack_append p command;; mret p.

Definition decrement (p : nat) (key : bytes) (delta : Z) (noreply : bool) : M nat :=
  command ← _incr_decr_command "decr" key delta noreply;
  stack_append p command;; mret p.

Definition touch (p : nat) (key : bytes) (exptime : Z) (noreply : bool) : M nat :=
  stack_append p ("touch " ++ key ++ " " ++ fmt_int exptime ++ noreply_token noreply ++ CRLF);;
  mret p.

Definition delete (p : nat) (key : bytes) (noreply : bool) : M nat :=
  stack_append p ("delete " ++ key ++ noreply_token noreply ++ CRLF);;
  mret p.

Definition flush_all (p : nat) (delay : Z) (noreply : bool) : M nat :=
  stack_append p ("flush_all " ++ fmt_int delay ++ noreply_token noreply ++ CRLF);;
  mret p.

Definition version (p : nat) : M nat :=
  stack_append p ("version" ++ CRLF);;
  mret p.

Definition gat (p : nat) (exptime : Z) (key : bytes) : M nat :=
  command ← _get_and_touch_command "gat" exptime [key];
  stack_append p command;; mret p.

Definition gats (p : nat) (exptime : Z) (key : bytes) : M nat :=
  command ← _get_and_touch_command "gats" exptime [key];
  stack_append p command;; mret p.

Definition gat_many (p : nat) (exptime : Z) (keys : list bytes) : M nat :=
  command ← _get_and_touch_command "gat" exptime keys;
  stack_append p command;; mret p.

Definition gats_many (p : nat) (exptime : Z) (keys : list bytes) : M nat :=
  command ← _get_and_touch_command "gats" exptime keys;
  stack_append p command;; mret p.

Definition cache_memlimit (p : nat) (limit : Z) (noreply : bool) : M nat :=
  stack_append p ("cache_memlimit " ++ fmt_int limit ++ noreply_token noreply ++ CRLF);;
  mret p.

Definition stats (p : nat) (args : list string) : M nat :=
  stack_append p
    (match args with
     | [] => "stats" ++ CRLF
     | _ => "stats " ++ join " " args ++ CRLF
     end);;
  mret p.

Definition verbosity (p : nat) (level : Z) (noreply : bool) : M nat :=
  stack_append p ("verbosity " ++ fmt_int level ++ noreply_token noreply ++ CRLF);;
  mret p.

End Methods.
End Pipeline.

(** ** Every public call, as one type *)

Inductive Value : Type :=
| VNone
| VItem (item : option Item)
| VItems (items : gmap bytes Item)
| VInt (n : option Z)
| VStr (s : string)
| VStats (d : gmap string string)
| VResponses (rs : list Response).

(** The public operations of a client, with [execute] of a pipeline. *)
Inductive Call : Type :=
| CGet (key : bytes) (return_flags : bool)
| CGets (key : bytes) (return_flags : bool)
| CGetMany (keys : list bytes) (return_flags : bool)
| CGetsMany (keys : list bytes) (return_flags : bool)
| CSet (key val : bytes) (flgs exptime : Z) (noreply : bool)
| CAdd (key val : bytes) (flgs exptime : Z) (noreply : bool)
| CReplace (key val : bytes) (flgs exptime : Z) (noreply : bool)
| CAppend (key val : bytes) (noreply : bool)
| CPrepend (key val : bytes) (noreply : bool)
| CCas (key val : bytes) (token flgs exptime : Z) (noreply : bool)
| CIncrement (key : bytes) (delta : Z) (noreply : bool)
| CDecrement (key : bytes) (delta : Z) (noreply : bool)
| CTouch (key : bytes) (exptime : Z) (noreply : bool)
| CDelete (key : bytes) (noreply : bool)
| CFlushAll (addr : Address) (delay : Z) (noreply : bool)
| CVersion (addr : Address)
| CGat (exptime : Z) (key : bytes) (return_flags : bool)
| CGats (exptime : Z) (key : bytes) (return_flags : bool)
| CGatMany (exptime : Z) (keys : list bytes) (return_flags : bool)
| CGatsMany (exptime : Z) (keys : list bytes) (return_flags : bool)
| CCacheMemlimit (addr : Address) (limit : Z) (noreply : bool)
| CStats (addr : Address) (args : list string)
| CVerbosity (addr : Address) (level : Z) (noreply : bool)
| CExecute (p : nat).

Definition unit_value (_ : unit) : Value := VNone.

Definition call (env : Env) (c : Call) : M Value :=
  match c with
  | CGet key rf => VItem <$> Client.get env key rf
  | CGets key rf => VItem <$> Client.gets env key rf
  | CGetMany keys rf => VItems <$> Client.get_many env keys rf
  | CGetsMany keys rf => VItems <$> Client.gets_many env keys rf
  | CSet key val flgs exptime noreply => unit_value <$> Client.set env key val flgs exptime noreply
  | CAdd key val flgs exptime noreply => unit_value <$> Client.add env key val flgs exptime noreply
  | CReplace key val flgs exptime noreply =>
      unit_value <$> Client.replace env key val flgs exptime noreply
  | CAppend key val noreply => unit_value <$> Client.append env key val noreply
  | CPrepend key val noreply => unit_value <$> Client.prepend env key val noreply
  | CCas key val token flgs exptime noreply =>
      unit_value <$> Client.cas env key val token flgs exptime noreply
  | CIncrement key delta noreply => VInt <$> Client.increment env key delta noreply
  | CDecrement key delta noreply => VInt <$> Client.decrement env key delta noreply
  | CTouch key exptime noreply => unit_value <$> Client.touch env key exptime noreply
  | CDelete key noreply => unit_value <$> Client.delete env key noreply
  | CFlushAll addr delay noreply => unit_value <$> Client.flush_all env addr delay noreply
  | CVersion addr => VStr <$> Client.version env addr
  | CGat exptime key rf => VItem <$> Client.gat env exptime key rf
  | CGats exptime key rf => VItem <$> Client.gats env exptime key rf
  | CGatMany exptime keys rf => VItems <$> Client.gat_many env exptime keys rf
  | CGatsMany exptime keys rf => VItems <$> Client.gats_many env exptime keys rf
  | CCacheMemlimit addr limit noreply =>
      unit_value <$> Client.cache_memlimit env addr limit noreply
  | CStats addr args => VStats <$> Client.stats env addr args
  | CVerbosity addr level noreply => unit_value <$> Client.verbosity env addr level noreply
  | CExecute p => VResponses <$> Pipeline.execute env p
  end.

(** The builder methods of a pipeline. *)
Inductive Builder : Type :=
| BGet (key : bytes)
| BGets (key : bytes)
| BGetMany (keys : list bytes)
| BGetsMany (keys : list bytes)
| BSet (key val : bytes) (flgs exptime : Z) (noreply : bool)
| BAdd (key val : bytes) (flgs exptime : Z) (noreply : bool)
| BReplace (key val : bytes) (flgs exptime : Z) (noreply : bool)
| BAppend (key val : bytes) (noreply : bool)
| BPrepend (key val : bytes) (noreply : bool)
| BCas (key val : bytes) (token flgs exptime : Z) (noreply : bool)
| BIncrement (key : bytes) (delta : Z) (noreply : bool)
| BDecrement (key : bytes) (delta : Z) (noreply : bool)
| BTouch (key : bytes) (exptime : Z) (noreply : bool)
| BDelete (key : bytes) (noreply : bool)
| BFlushAll (delay : Z) (noreply : bool)
| BVersion
| BGat (exptime : Z) (key : bytes)
| BGats (exptime : Z) (key : bytes)
| BGatMany (exptime : Z) (keys : list bytes)
| BGatsMany (exptime : Z) (keys : list bytes)
| BCacheMemlimit (limit : Z) (noreply : bool)
| BStats (args : list string)
| BVerbosity (level : Z) (noreply : bool).

Definition build (p : nat) (b : Builder) : M nat :=
  match b with
  | BGet key => Pipeline.get p key
  | BGets key => Pipeline.gets p key
  | BGetMany keys => Pipeline.get_many p keys
  | BGetsMany keys => Pipeline.gets_many p keys
  | BSet key val flgs exptime noreply => Pipeline.set p key val flgs exptime noreply
  | BAdd key val flgs exptime noreply => Pipeline.add p key val flgs exptime noreply
  | BReplace key val flgs exptime noreply => Pipeline.replace p key val flgs exptime noreply
  | BAppend key val noreply => Pipeline.append p key val noreply
  | BPrepend key val noreply => Pipeline.prepend p key val noreply
  | BCas key val token flgs exptime noreply => Pipeline.cas p key val token flgs exptime noreply
  | BIncrement key delta noreply => Pipeline.increment p key delta noreply
  | BDecrement key delta noreply => Pipeline.decrement p key delta noreply
  | BTouch key exptime noreply => Pipeline.touch p key exptime noreply
  | BDelete key noreply => Pipeline.delete p key noreply
  | BFlushAll delay noreply => Pipeline.flush_all p delay noreply
  | BVersion => Pipeline.version p
  | BGat exptime key => Pipeline.gat p exptime key
  | BGats exptime key => Pipeline.gats p exptime key
  | BGatMany exptime keys => Pipeline.gat_many p exptime keys
  | BGatsMany exptime keys => Pipeline.gats_many p exptime keys
  | BCacheMemlimit limit noreply => Pipeline.cache_memlimit p limit noreply
  | BStats args => Pipeline.stats p args
  | BVerbosity level noreply => Pipeline.verbosity p level noreply
  end.

(** A chain of builder calls on one pipeline, [p.a(...).b(...)...]. *)
Definition build_all (p : nat) (bs : list Builder) : M unit :=
  for_each bs (fun b => build p b;; pass).

(** ** A small concrete environment, for examples *)

Definition localhost : Address := MemcachedHostAddress "localhost" 11211.
Definition otherhost : Address := MemcachedHostAddress "otherhost" 11211.

(** A cluster whose routing, replies and loop order are fixed functions;
    its autobatcher refuses a closed client and otherwise finds nothing;
    [decode] accepts every reply. *)
Definition fixed_env
    (route : list bytes -> list (Node * list bytes))
    (fetch : Node -> Request -> exn + FetchReply)
    (line : Request -> exn + option bytes)
    (order : list nat) (late : nat)
    (matches : string -> list Groups) : Env :=
  {| pick_node := fun _ _ => inr localhost;
     pick_nodes := fun _ keys => inr (route keys);
     cluster_node := fun _ addr => inr addr;
     fetch_reply := fun _ => fetch;
     line_reply := fun _ _ => line;
     completion_order := fun _ => order;
     late_completions := fun _ => late;
     deadline := fun _ => None;
     autobatching_execute := fun _ _ _ => Client.check_closed;; mret None;
     responses_finditer := matches;
     stat_finditer := fun _ => [];
     decode := inr |}.

(** The same cluster with a deadline that fires after [steps] steps of
    the loop. *)
Definition with_deadline (env : Env) (steps : nat) : Env :=
  {| pick_node := pick_node env;
     pick_nodes := pick_nodes env;
     cluster_node := cluster_node env;
     fetch_reply := fetch_reply env;
     line_reply := line_reply env;
     completion_order := completion_order env;
     late_completions := late_completions env;
     deadline := fun _ => Some steps;
     autobatching_execute := autobatching_execute env;
     responses_finditer := responses_finditer env;
     stat_finditer := stat_finditer env;
     decode := decode env |}.

Definition thirdhost : Address := MemcachedHostAddress "thirdhost" 11211.

Definition new_world (autobatching : bool) : World :=
  mkWorld (mk_Client false autobatching) ∅ [] [].

(** A server that answers every command with the same line and every
    retrieval with the same reply, on a one-node cluster. *)
Definition constant_env (fetch : FetchReply) (line : option bytes) : Env :=
  fixed_env (fun keys => [(localhost, keys)]) (fun _ _ => inr fetch)
            (fun _ => inr line) [] 0 (fun _ => []).

(** The autobatcher is not among the sources; the client hands it [get]
    and [gets] when autobatching is on.  This is its part of the closed
    contract. *)
Definition autobatcher_fails_closed (env : Env) : Prop :=
  forall return_flags return_cas key w,
    _closed (client w) = true ->
    autobatching_execute env return_flags return_cas key w = (inl ClientClosed, w).


(** ** Families of methods *)

(** The six storage methods of the client. *)
Inductive StorageCall : Type :=
| SSet (key val : bytes) (flgs exptime : Z) (noreply : bool)
| SAdd (key val : bytes) (flgs exptime : Z) (noreply : bool)
| SReplace (key val : bytes) (flgs exptime : Z) (noreply : bool)
| SAppend (key val : bytes) (noreply : bool)
| SPrepend (key val : bytes) (noreply : bool)
| SCas (key val : bytes) (token flgs exptime : Z) (noreply : bool).

Definition storage_call (env : Env) (sc : StorageCall) : M unit :=
  match sc with
  | SSet key val flgs exptime noreply => Client.set env key val flgs exptime noreply
  | SAdd key val flgs exptime noreply => Client.add env key val flgs exptime noreply
  | SReplace key val flgs exptime noreply => Client.replace env key val flgs exptime noreply
  | SAppend key val noreply => Client.append env key val noreply
  | SPrepend key val noreply => Client.prepend env key val noreply
  | SCas key val token flgs exptime noreply => Client.cas env key val token flgs exptime noreply
  end.

(** The call of the proxy each storage method starts with. *)
Definition storage_proxy (env : Env) (sc : StorageCall) : M (option bytes) :=
  match sc with
  | SSet key val flgs exptime noreply =>
      Client._storage_command env "set" key val flgs exptime noreply None
  | SAdd key val flgs exptime noreply =>
      Client._storage_command env "add" key val flgs exptime noreply None
  | SReplace key val flgs exptime noreply =>
      Client._storage_command env "replace" key val flgs exptime noreply None
  | SAppend key val noreply =>
      Client._storage_command env "append" key val 0 0 noreply None
  | SPrepend key val noreply =>
      Client._storage_command env "prepend" key val 0 0 noreply None
  | SCas key val token flgs exptime noreply =>
      Client._storage_command env "cas" key val flgs exptime noreply (Some token)
  end.

Definition storage_noreply (sc : StorageCall) : bool :=
  match sc with
  | SSet _ _ _ _ noreply | SAdd _ _ _ _ noreply | SReplace _ _ _ _ noreply
  | SAppend _ _ noreply | SPrepend _ _ noreply | SCas _ _ _ _ _ noreply => noreply
  end.

(** The reply a storage method compares with before it raises
    [NotStoredStorageCommandError]; [set] has no such comparison. *)
Definition not_stored_token (sc : StorageCall) : option bytes :=
  match sc with
  | SSet _ _ _ _ _ => None
  | SAdd _ _ _ _ _ | SReplace _ _ _ _ _ | SAppend _ _ _ | SPrepend _ _ _ => Some NOT_STORED
  | SCas _ _ _ _ _ _ => Some EXISTS
  end.

(** The two counter methods. *)
Inductive Counter : Type := Incr | Decr.

Definition counter_command (d : Counter) : bytes :=
  match d with Incr => "incr" | Decr => "decr" end.

Definition counter_call (env : Env) (d : Counter) (key : bytes) (delta : Z)
    (noreply : bool) : M (option Z) :=
  match d with
  | Incr => Client.increment env key delta noreply
  | Decr => Client.decrement env key delta noreply
  end.

(** The four single-key retrievals. *)
Inductive Retrieval : Type :=
| RGet
| RGets
| RGat (exptime : Z)
| RGats (exptime : Z).

Definition retrieve (env : Env) (r : Retrieval) (key : bytes) (return_flags : bool)
    : M (option Item) :=
  match r with
  | RGet => Client.get env key return_flags
  | RGets => Client.gets env key return_flags
  | RGat exptime => Client.gat env exptime key return_flags
  | RGats exptime => Client.gats env exptime key return_flags
  end.

(** The call of the proxy a retrieval makes on its own path. *)
Definition retrieval_proxy (env : Env) (r : Retrieval) (key : bytes) : M FetchReply :=
  match r with
  | RGet => Client._fetch_command env "get" key
  | RGets => Client._fetch_command env "gets" key
  | RGat exptime => Client._get_and_touch_command env "gat" exptime key
  | RGats exptime => Client._get_and_touch_command env "gats" exptime key
  end.

Definition returns_cas (r : Retrieval) : bool :=
  match r with RGets | RGats _ => true | RGet | RGat _ => false end.

(** [get] and [gets] go to the autobatcher when autobatching is on. *)
Definition autobatched (r : Retrieval) : bool :=
  match r with RGet | RGets => true | RGat _ | RGats _ => false end.

(** The four multi-key retrievals. *)
Inductive ManyRetrieval : Type :=
| MGetMany
| MGetsMany
| MGatMany (exptime : Z)
| MGatsMany (exptime : Z).

Definition retrieve_many (env : Env) (r : ManyRetrieval) (keys : list bytes)
    (return_flags : bool) : M (gmap bytes Item) :=
  match r with
  | MGetMany => Client.get_many env keys return_flags
  | MGetsMany => Client.gets_many env keys return_flags
  | MGatMany exptime => Client.gat_many env exptime keys return_flags
  | MGatsMany exptime => Client.gats_many env exptime keys return_flags
  end.

(** ** The records of a consolidated reply *)

(** Modelled from the spec: the terminal records of a consolidated reply
    (4.1: status line, value, version line, stats block, counter reply,
    error line).  The pattern that tells them apart,
    [regex_memcached_responses], is in [constants.py], which is not among
    the sources; what is known of it is the names of its groups, which
    [execute] reads. *)
Inductive Status : Type :=
| StError | StStored | StNotStored | StExists | StNotFound | StEnd
| StDeleted | StTouched | StOk.

Inductive Terminal : Type :=
| TError (message : string)
| TStatus (code : Status)
| TValue (data : option string) (flgs : Z) (token : option Z)
| TVersion (text : string)
| TStats (block : string)
| TCounter (n : Z).

Definition status_text (code : Status) : string :=
  match code with
  | StError => "ERROR" | StStored => "STORED" | StNotStored => "NOT_STORED"
  | StExists => "EXISTS" | StNotFound => "NOT_FOUND" | StEnd => "END"
  | StDeleted => "DELETED" | StTouched => "TOUCHED" | StOk => "OK"
  end.

(** The groups [execute] tests, in the order in which it tests them. *)
Definition deciding_groups (g : Groups) : list (option string) :=
  [g_error_message g; g_client_error g; g_error g; g_stored g; g_not_stored g;
   g_exists g; g_not_found g; g_end g; g_value g; g_deleted g; g_touched g;
   g_version g; g_ok g; g_stats g; g_incr_decr_value g].

(** The place of the group of a status line among them. *)
Definition status_group (code : Status) : nat :=
  match code with
  | StError => 2 | StStored => 3 | StNotStored => 4 | StExists => 5
  | StNotFound => 6 | StEnd => 7 | StDeleted => 9 | StTouched => 10 | StOk => 12
  end.

(** The match took the alternative of the group at place [k] and no
    other: that group holds a non-empty text and the others none. *)
Definition sole (k : nat) (g : Groups) : Prop :=
  truthy_opt <$> deciding_groups g = <[k := true]> (replicate 15 false).

(** The match [g] is that of the terminal record [t]: it took the
    alternative of [t], and the groups inside it hold the parts of [t],
    the numbers as decimal texts. *)
Definition presents (g : Groups) (t : Terminal) : Prop :=
  match t with
  | TError message =>
      (sole 0 g /\ g_error_message g = Some message) \/
      (sole 1 g /\ g_client_error g = Some message)
  | TStatus code => sole (status_group code) g
  | TValue data flgs token =>
      sole 8 g /\ g_data g = data /\
      (exists s, g_flags g = Some s /\ py_int s = Some flgs) /\
      match token with
      | Some c => exists s, g_cas g = Some s /\ s <> "" /\ py_int s = Some c
      | None => truthy_opt (g_cas g) = false
      end
  | TVersion text => sole 11 g /\ g_version g = Some ("VERSION " ++ text)
  | TStats block => sole 13 g /\ g_stats g = Some block
  | TCounter n =>
      sole 14 g /\ exists s, g_incr_decr_value g = Some s /\ py_int s = Some n
  end.

(** The typed record of a terminal record, in the spec's words: the
    status code or the error message as a string, the value as an
    [Item] with its flags and, when the server sent one, its cas token,
    the version without its keyword, the statistics as a map, the
    counter as an integer. *)
Definition typed_record (env : Env) (t : Terminal) : Response :=
  match t with
  | TError message => RStr message
  | TStatus code => RStr (status_text code)
  | TValue data flgs token => RItem data flgs token
  | TVersion text => RStr text
  | TStats block => RStats (py_dict (stat_finditer env block))
  | TCounter n => RInt n
  end.

(** A match that presents [t]: the group of its alternative holds the
    matched text, the groups inside it hold its parts and every other
    group is [None], as [groupdict()] has it. *)
Definition presentation (t : Terminal) : Groups :=
  let only (k : nat) (text : string) (data flgs token : option string) :=
    let at_ (j : nat) := if Nat.eqb j k then Some text else None in
    mkGroups (at_ 0%nat) (at_ 1%nat) (at_ 2%nat) (at_ 3%nat) (at_ 4%nat) (at_ 5%nat)
             (at_ 6%nat) (at_ 7%nat) (at_ 8%nat) data flgs token
             (at_ 9%nat) (at_ 10%nat) (at_ 11%nat) (at_ 12%nat) (at_ 13%nat)
             (at_ 14%nat) in
  match t with
  | TError message => only 0%nat message None None None
  | TStatus code => only (status_group code) (status_text code) None None None
  | TValue data flgs token =>
      only 8%nat "VALUE" data (Some (fmt_int flgs)) (fmt_int <$> token)
  | TVersion text => only 11%nat ("VERSION " ++ text) None None None
  | TStats block => only 13%nat block None None None
  | TCounter n => only 14%nat (fmt_int n) None None None
  end.

(** A pattern that finds the matches [found] in the text [reply] and
    nothing in any other text. *)
Definition finds (reply : string) (found : list Groups) (text : string) : list Groups :=
  if String.eqb text reply then found else [].

(** A server that answers every request as that of [env] answers the
    request [req]. *)
Definition answering_as (env : Env) (req : Request) : Env :=
  {| pick_node := pick_node env;
     pick_nodes := pick_nodes env;
     cluster_node := cluster_node env;
     fetch_reply := fetch_reply env;
     line_reply := fun tr node _ => line_reply env tr node req;
     completion_order := completion_order env;
     late_completions := late_completions env;
     deadline := deadline env;
     autobatching_execute := autobatching_execute env;
     responses_finditer := responses_finditer env;
     stat_finditer := stat_finditer env;
     decode := decode env |}.

(** The group dictionary of a match of a version line. *)
Definition version_groups (line : string) : Groups :=
  mkGroups None None None None None None None None None
           None None None None None (Some line) None None None.

Definition version_reply : string := "VERSION 1.6.21" ++ CRLF.

(** A pattern that finds the one version line of the reply
    [version_reply] and nothing in any other text. *)
Definition version_only_finditer (text : string) : list Groups :=
  if String.eqb text version_reply then [version_groups "VERSION 1.6.21"] else [].

(** The world after [client.pipeline(localhost)] and a chain of builder
    calls on the new pipeline. *)
Definition world_with_pipeline (bs : list Builder) : World :=
  snd ((p ← Client.pipeline localhost; build_all p bs) (new_world false)).

(** A computation that reads nothing from the world and leaves it as it
    is: its outcome is the same value in every world. *)
Definition constant_in_world {A : Type} (m : M A) : Prop :=
  exists r, forall w, m w = (r, w).


(** The keys a call passes to the client. *)
Definition call_keys (c : Call) : list bytes :=
  match c with
  | CGet key _ | CGets key _ | CSet key _ _ _ _ | CAdd key _ _ _ _
  | CReplace key _ _ _ _ | CAppend key _ _ | CPrepend key _ _ | CCas key _ _ _ _ _
  | CIncrement key _ _ | CDecrement key _ _ | CTouch key _ _ | CDelete key _
  | CGat _ key _ | CGats _ key _ => [key]
  | CGetMany keys _ | CGetsMany keys _ | CGatMany _ keys _ | CGatsMany _ keys _ => keys
  | CFlushAll _ _ _ | CVersion _ | CCacheMemlimit _ _ _ | CStats _ _
  | CVerbosity _ _ _ | CExecute _ => []
  end.

(** [get] and [gets], which the autobatcher serves when it is on. *)
Definition call_autobatched (c : Call) : bool :=
  match c with CGet _ _ | CGets _ _ => true | _ => false end.

(** ** Notions for the fan-out *)

(** The state of the task with handle [i], if the loop has one. *)
Definition state_of (w : World) (i : nat) : option TaskState :=
  task_state <$> tasks w !! i.

(** A computation that leaves the world as it is. *)
Definition world_preserving {A : Type} (m : M A) : Prop :=
  forall w, (m w).2 = w.

(** The tasks the loop finished, and those whose cancellation was asked
    for, in a stretch of the trace. *)
Definition finished_tasks (tr : list Event) : list nat :=
  omap (fun ev => match ev with EvTaskDone i => Some i | _ => None end) tr.

Definition cancelled_tasks (tr : list Event) : list nat :=
  omap (fun ev => match ev with EvTaskCancel i => Some i | _ => None end) tr.

(** Task [i] ended with the exception [e]; task [i] returned a reply. *)
Definition failed_with (w : World) (i : nat) (e : exn) : Prop :=
  ended_with <$> state_of w i = Some (Some e).

Definition returned (w : World) (i : nat) : Prop :=
  exists reply, state_of w i = Some (Done (inr reply)).

(** From [w] to [w'] the loop ran tasks and nothing else happened:
    [added] is what the trace gained, no cancellation was asked for, a
    task that was done is as it was, and a task that was pending either
    is as it was and did not finish, or finished and is done. *)
Definition loop_ran (w w' : World) (added : list Event) : Prop :=
  length (tasks w') = length (tasks w) /\
  trace w' = (trace w ++ added)%list /\
  cancelled_tasks added = [] /\
  (forall j st, state_of w j = Some st -> state_done st = true ->
                state_of w' j = Some st) /\
  (forall j st, state_of w j = Some st -> state_done st = false ->
     (state_of w' j = Some st /\ j ∉ finished_tasks added) \/
     (exists st', state_of w' j = Some st' /\ state_done st' = true /\
                  j ∈ finished_tasks added)).


(** ** Construction of a client *)

(** What the construction of a client asks of its surroundings: whether
    the interpreter has an [ssl] module, what [Cluster(...)] does with
    the addresses, and how the wait for the first autodiscovery ends. *)
Record Startup : Type := mkStartup {
  ssl_module_found : bool;
  new_cluster : list Address -> exn + unit;
  first_autodiscovery_done : exn + unit
}.

Definition NO_SSL_ERROR : exn :=
  ValueError "SSL can not be enabled, no Python SSL module found".
Definition SASL_ERROR : exn :=
  ValueError "For SASL authentication either username and password together".
Definition NO_HOSTS_ERROR : exn :=
  ValueError "At least one memcached hosts needs to be provided".

(** [_Client.__init__]: the fields of the new client. *)
Definition _Client__init__ (st : Startup) (node_addresses : list Address)
    (autobatching : bool) : exn + _Client :=
  match node_addresses with
  | [] => inl NO_HOSTS_ERROR
  | _ =>
      match new_cluster st node_addresses with
      | inl e => inl e
      | inr _ => inr (mk_Client false (if autobatching then true else false))
      end
  end.

(** [create_client]: the world of the client it returns. *)
Definition create_client (st : Startup) (node_addresses : list Address)
    (autobatching ssl : bool) (username password : option string)
    (autodiscovery : bool) : exn + World :=
  if ssl && negb (ssl_module_found st) then inl NO_SSL_ERROR
  else if negb (truthy_opt username && truthy_opt password
                || negb (truthy_opt username) && negb (truthy_opt password))
  then inl SASL_ERROR
  else
    match _Client__init__ st node_addresses autobatching with
    | inl e => inl e
    | inr c =>
        match (if autodiscovery then first_autodiscovery_done st else inr tt) with
        | inl e => inl e
        | inr _ => inr (mkWorld c ∅ [] [])
        end
    end.

(** ** More families of methods *)

(** [touch] and [delete], the two keyed commands that classify their
    reply themselves. *)
Inductive Keyed : Type :=
| KTouch (exptime : Z)
| KDelete.

Definition keyed_call (env : Env) (k : Keyed) (key : bytes) (noreply : bool) : M unit :=
  match k with
  | KTouch exptime => Client.touch env key exptime noreply
  | KDelete => Client.delete env key noreply
  end.

Definition keyed_request (k : Keyed) (key : bytes) (noreply : bool) : Request :=
  match k with
  | KTouch exptime => touch_command key exptime noreply
  | KDelete => delete_command key noreply
  end.

(** The reply that means success. *)
Definition keyed_done (k : Keyed) : bytes :=
  match k with KTouch _ => TOUCHED | KDelete => DELETED end.

(** [flush_all], [cache_memlimit] and [verbosity], addressed to a node. *)
Inductive Admin : Type :=
| AFlushAll (delay : Z)
| ACacheMemlimit (limit : Z)
| AVerbosity (level : Z).

Definition admin_call (env : Env) (a : Admin) (addr : Address) (noreply : bool) : M unit :=
  match a with
  | AFlushAll delay => Client.flush_all env addr delay noreply
  | ACacheMemlimit limit => Client.cache_memlimit env addr limit noreply
  | AVerbosity level => Client.verbosity env addr level noreply
  end.

Definition admin_request (a : Admin) (noreply : bool) : Request :=
  match a with
  | AFlushAll delay => flush_all_command delay noreply
  | ACacheMemlimit limit => cache_memlimit_command limit noreply
  | AVerbosity level => verbosity_command level noreply
  end.

(** The world once a request has been written for [key] on [node]. *)
Definition after_request (key : bytes) (node : Node) (req : Request) (w : World) : World :=
  add_event (EvConnection node req) (add_event (EvPickNode key) w).

Definition after_node_request (addr : Address) (node : Node) (req : Request)
    (w : World) : World :=
  add_event (EvConnection node req) (add_event (EvNode addr) w).

(** The request a keyed method of the client writes, with the key that
    routes it. *)
Definition call_request (c : Call) : option (bytes * Request) :=
  match c with
  | CGet key _ => Some (key, fetch_command "get" [key])
  | CGets key _ => Some (key, fetch_command "gets" [key])
  | CSet key val flgs exptime noreply =>
      Some (key, storage_command "set" key val flgs exptime noreply None)
  | CAdd key val flgs exptime noreply =>
      Some (key, storage_command "add" key val flgs exptime noreply None)
  | CReplace key val flgs exptime noreply =>
      Some (key, storage_command "replace" key val flgs exptime noreply None)
  | CAppend key val noreply =>
      Some (key, storage_command "append" key val 0 0 noreply None)
  | CPrepend key val noreply =>
      Some (key, storage_command "prepend" key val 0 0 noreply None)
  | CCas key val token flgs exptime noreply =>
      Some (key, storage_command "cas" key val flgs exptime noreply (Some token))
  | CIncrement key delta noreply => Some (key, incr_decr_command "incr" key delta noreply)
  | CDecrement key delta noreply => Some (key, incr_decr_command "decr" key delta noreply)
  | CTouch key exptime noreply => Some (key, touch_command key exptime noreply)
  | CDelete key noreply => Some (key, delete_command key noreply)
  | CGat exptime key _ => Some (key, get_and_touch_command "gat" exptime [key])
  | CGats exptime key _ => Some (key, get_and_touch_command "gats" exptime [key])
  | _ => None
  end.

(** The arguments of a keyed method pass its checks. *)
Definition call_arguments_valid (c : Call) : bool :=
  match c with
  | CSet key _ flgs _ _ | CAdd key _ flgs _ _ | CReplace key _ flgs _ _ =>
      (flgs <=? MAX_ALLOWED_FLAG_VALUE)%Z && is_key_valid key
  | CCas key _ token flgs _ _ =>
      (token <=? MAX_ALLOWED_CAS_VALUE)%Z && (flgs <=? MAX_ALLOWED_FLAG_VALUE)%Z
      && is_key_valid key
  | CIncrement key delta _ | CDecrement key delta _ => (0 <=? delta)%Z && is_key_valid key
  | CGet key _ | CGets key _ | CAppend key _ _ | CPrepend key _ _ | CTouch key _ _
  | CDelete key _ | CGat _ key _ | CGats _ key _ => is_key_valid key
  | _ => true
  end.

(** The exception a connection answers a request with, if it does. *)
Definition connection_failure (env : Env) (tr : list Event) (node : Node) (req : Request)
    : option exn :=
  match req with
  | fetch_command _ _ | get_and_touch_command _ _ _ =>
      match fetch_reply env tr node req with inl e => Some e | inr _ => None end
  | _ =>
      match line_reply env tr node req with inl e => Some e | inr _ => None end
  end.

(** ** Replies of retrievals *)

Definition reply_keys (reply : FetchReply) : list bytes :=
  let '(keys, _, _, _, _) := reply in keys.

Definition reply_client_error (reply : FetchReply) : bytes :=
  let '(_, _, _, _, client_error) := reply in client_error.

(** The arrays a [*_many] method reads hold an entry for every key of
    the reply. *)
Definition arrays_cover_keys (return_flags with_cas : bool) (reply : FetchReply) : Prop :=
  let '(keys, values, flgs, tokens, _) := reply in
  (length keys <= length values)%nat /\
  (return_flags = true -> (length keys <= length flgs)%nat) /\
  (with_cas = true -> (length keys <= length tokens)%nat).

(** The item a [*_many] method builds for position [idx] of a reply. *)
Definition item_at (return_flags with_cas : bool) (reply : FetchReply) (idx : nat)
    : option Item :=
  let '(_, values, flgs, tokens, _) := reply in
  match values !! idx with
  | Some v =>
      Some (mkItem v (if return_flags then flgs !! idx else None)
                     (if with_cas then tokens !! idx else None))
  | None => None
  end.

(** The call of the proxy a multi-key retrieval starts with. *)
Definition many_proxy (env : Env) (r : ManyRetrieval) (keys : list bytes)
    (return_flags : bool) : M (list FetchReply) :=
  match r with
  | MGetMany => Client._fetch_many_command env "get" keys return_flags
  | MGetsMany => Client._fetch_many_command env "gets" keys return_flags
  | MGatMany exptime => Client._get_and_touch_many_command env "gat" exptime keys return_flags
  | MGatsMany exptime =>
      Client._get_and_touch_many_command env "gats" exptime keys return_flags
  end.

Definition many_returns_cas (r : ManyRetrieval) : bool :=
  match r with MGetsMany | MGatsMany _ => true | MGetMany | MGatMany _ => false end.

(** ** More on builders *)

(** The keys a builder passes through [is_key_valid]; [touch] and
    [delete] check none. *)
Definition builder_checked_keys (b : Builder) : list bytes :=
  match b with
  | BGet key | BGets key | BSet key _ _ _ _ | BAdd key _ _ _ _ | BReplace key _ _ _ _
  | BAppend key _ _ | BPrepend key _ _ | BCas key _ _ _ _ _ | BIncrement key _ _
  | BDecrement key _ _ | BGat _ key | BGats _ key => [key]
  | BGetMany keys | BGetsMany keys | BGatMany _ keys | BGatsMany _ keys => keys
  | BTouch _ _ _ | BDelete _ _ | BFlushAll _ _ | BVersion | BCacheMemlimit _ _
  | BStats _ | BVerbosity _ _ => []
  end.

(** The request a multi-key retrieval sends to the node of the keys
    [keys]. *)
Definition many_request (r : ManyRetrieval) (keys : list bytes) : Request :=
  match r with
  | MGetMany => fetch_command "get" keys
  | MGetsMany => fetch_command "gets" keys
  | MGatMany exptime => get_and_touch_command "gat" exptime keys
  | MGatsMany exptime => get_and_touch_command "gats" exptime keys
  end.

(** ** Decimal literals *)

(** No character of the string is white space. *)
Fixpoint no_space (s : string) : bool :=
  match s with
  | EmptyString => true
  | String c r => negb (is_space c) && no_space r
  end.

(** ** Requests of the tasks *)

(** From [w] to [w'] the trace only grew, the tasks that were done are
    as they were, and a task that was pending either is as it was or
    holds the end of its own request, which is in the trace. *)
Definition ran_requests (env : Env) (w w' : World) : Prop :=
  (forall ev, ev ∈ trace w -> ev ∈ trace w') /\
  (forall j t, tasks w !! j = Some t -> done t = true -> tasks w' !! j = Some t) /\
  (forall j node req, tasks w !! j = Some (mkTask node req (Pending false)) ->
     tasks w' !! j = Some (mkTask node req (Pending false)) \/
     exists tr,
       tasks w' !! j = Some (mkTask node req (final_state (fetch_reply env tr node req))) /\
       EvConnection node req ∈ trace w').

(** * Properties *)

(** ** Running a computation *)

Lemma bind_raises {A B : Type} (m : M A) (f : A -> M B) w e w' :
  m w = (inl e, w') -> (m ≫= f) w = (inl e, w').
Proof. intros H. unfold mbind, M_bind. now rewrite H. Qed.

Lemma bind_returns {A B : Type} (m : M A) (f : A -> M B) w x w' :
  m w = (inr x, w') -> (m ≫= f) w = f x w'.
Proof. intros H. unfold mbind, M_bind. now rewrite H. Qed.

Lemma fmap_raises {A B : Type} (m : M A) (f : A -> B) w e w' :
  m w = (inl e, w') -> (f <$> m) w = (inl e, w').
Proof. intros H. unfold fmap, M_fmap. now rewrite H. Qed.

Lemma fmap_returns {A B : Type} (m : M A) (f : A -> B) w x w' :
  m w = (inr x, w') -> (f <$> m) w = (inr (f x), w').
Proof. intros H. unfold fmap, M_fmap. now rewrite H. Qed.

Lemma check_closed_closed w :
  _closed (client w) = true -> Client.check_closed w = (inl ClientClosed, w).
Proof.
  intros H. unfold Client.check_closed, Client.closed, read.
  unfold mbind, M_bind. now rewrite H.
Qed.

Lemma check_closed_open w :
  _closed (client w) = false -> Client.check_closed w = (inr tt, w).
Proof.
  intros H. unfold Client.check_closed, Client.closed, read.
  unfold mbind, M_bind. now rewrite H.
Qed.

Lemma cluster_pick_node_runs env key w :
  cluster_pick_node env key w = (pick_node env (trace w) key, add_event (EvPickNode key) w).
Proof. reflexivity. Qed.

Lemma cluster_pick_nodes_runs env keys w :
  cluster_pick_nodes env keys w =
    (pick_nodes env (trace w) keys, add_event (EvPickNodes keys) w).
Proof. reflexivity. Qed.

Lemma cluster_get_node_runs env addr w :
  cluster_get_node env addr w = (cluster_node env (trace w) addr, add_event (EvNode addr) w).
Proof. reflexivity. Qed.

Lemma connection_fetch_runs env node req w :
  connection_fetch env node req w =
    (fetch_reply env (trace w) node req, add_event (EvConnection node req) w).
Proof. reflexivity. Qed.

Lemma connection_line_runs env node req w :
  connection_line env node req w =
    (line_reply env (trace w) node req, add_event (EvConnection node req) w).
Proof. reflexivity. Qed.

(** A computation that starts with the closed check stops there on a
    closed client. *)
Ltac stops_at_closed_check :=
  repeat first
    [ apply check_closed_closed; assumption
    | apply fmap_raises
    | apply bind_raises ].

(** ** A closed client *)

Lemma close_closes w : _closed (client (Client.close w).2) = true.
Proof.
  unfold Client.close, Client.closed, read, mbind, M_bind.
  destruct (_closed (client w)) eqn:E; simpl; [exact E | reflexivity].
Qed.

Lemma call_on_closed env c w :
  autobatcher_fails_closed env ->
  _closed (client w) = true ->
  call env c w = (inl ClientClosed, w).
Proof.
  intros Hab H.
  destruct c; simpl;
    try (unfold Client.get_many, Client.gets_many, Client.set, Client.add,
           Client.replace, Client.append, Client.prepend, Client.cas,
           Client.increment, Client.decrement, Client.touch, Client.delete,
           Client.flush_all, Client.version, Client.gat, Client.gats,
           Client.gat_many, Client.gats_many, Client.cache_memlimit,
           Client.stats, Client.verbosity,
           Client._storage_command, Client._incr_decr_command,
           Client._fetch_many_command, Client._get_and_touch_command,
           Client._get_and_touch_many_command;
         stops_at_closed_check; fail).
  - (* get *)
    apply fmap_raises. unfold Client.get.
    destruct (_autobatching (client w)) eqn:Ea.
    + erewrite bind_returns by (unfold read; rewrite Ea; reflexivity).
      destruct return_flags; simpl; now apply Hab.
    + erewrite bind_returns by (unfold read; rewrite Ea; reflexivity).
      unfold Client._fetch_command. stops_at_closed_check.
  - (* gets *)
    apply fmap_raises. unfold Client.gets.
    destruct (_autobatching (client w)) eqn:Ea.
    + erewrite bind_returns by (unfold read; rewrite Ea; reflexivity).
      destruct return_flags; simpl; now apply Hab.
    + erewrite bind_returns by (unfold read; rewrite Ea; reflexivity).
      unfold Client._fetch_command. stops_at_closed_check.
  - (* execute *)
    apply fmap_raises. unfold Pipeline.execute.
    erewrite bind_returns by (unfold Client.closed, read; rewrite H; reflexivity).
    reflexivity.
Qed.

(** C5: after [close()], every public operation of the client, and
    [execute] of its pipelines, fails with the fixed closed-client error
    and leaves the world as it is: whatever the arguments, nothing is
    validated, no node is picked and no connection is used.  The
    autobatcher, to which [get] and [gets] delegate when autobatching is
    on, is assumed to refuse a closed client too. *)
Theorem closed_client_fails_every_call env c w :
  autobatcher_fails_closed env ->
  (_closed (client w) = true -> call env c w = (inl ClientClosed, w)) /\
  (let w' := (Client.close w).2 in call env c w' = (inl ClientClosed, w')).
Proof.
  intros Hab. split.
  - now apply call_on_closed.
  - simpl. apply call_on_closed; [exact Hab | apply close_closes].
Qed.

Lemma closed_client_fails_every_call_witness :
  let env := constant_env ([], [], [], [], "") (Some STORED) in
  let w := (Client.close (new_world true)).2 in
  call env (CSet "not a key" "v" (2 ^ 20) 0 false) w = (inl ClientClosed, w).
Proof.
  intros env w.
  refine (proj2 (closed_client_fails_every_call env _ (new_world true) _)).
  intros rf rc key w0 H. simpl.
  apply bind_raises, check_closed_closed, H.
Defined.

(** ** Empty key sequences *)

(** C9: on a client that is not closed, [get_many], [gets_many],
    [gat_many] and [gats_many] of an empty key sequence return the empty
    map and leave the world untouched: no key is validated, no node is
    picked, no connection is used. *)
Theorem many_of_no_keys_is_empty env w return_flags exptime :
  _closed (client w) = false ->
  Client.get_many env [] return_flags w = (inr ∅, w) /\
  Client.gets_many env [] return_flags w = (inr ∅, w) /\
  Client.gat_many env exptime [] return_flags w = (inr ∅, w) /\
  Client.gats_many env exptime [] return_flags w = (inr ∅, w).
Proof.
  intros H.
  unfold Client.get_many, Client.gets_many, Client.gat_many, Client.gats_many,
    Client._fetch_many_command, Client._get_and_touch_many_command.
  repeat split;
    (erewrite bind_returns;
     [ | erewrite bind_returns by (apply check_closed_open, H); reflexivity ];
     reflexivity).
Qed.

Lemma many_of_no_keys_is_empty_witness :
  let env := constant_env ([], [], [], [], "") None in
  Client.get_many env [] false (new_world false) = (inr ∅, new_world false) /\
  Client.gets_many env [] false (new_world false) = (inr ∅, new_world false) /\
  Client.gat_many env 60 [] false (new_world false) = (inr ∅, new_world false) /\
  Client.gats_many env 60 [] false (new_world false) = (inr ∅, new_world false).
Proof.
  intros env.
  apply (many_of_no_keys_is_empty env (new_world false) false 60).
  reflexivity.
Defined.

(** ** Storage commands: the bounds on [flags] and [cas] *)

Lemma check_key_valid key w :
  is_key_valid key = true -> Client.check_key key w = (inr tt, w).
Proof. intros H. unfold Client.check_key. now rewrite H. Qed.

Lemma check_key_invalid key w :
  is_key_valid key = false -> Client.check_key key w = (inl KEY_ERROR, w).
Proof. intros H. unfold Client.check_key. now rewrite H. Qed.

(** What the checks of the storage proxy let through, on an open client
    and for a valid key: [flags] up to and including 2^16 and a [cas]
    token up to and including 2^64. *)
Lemma storage_proxy_checks env command key val flgs exptime noreply token w :
  _closed (client w) = false ->
  is_key_valid key = true ->
  Client._storage_command env command key val flgs exptime noreply token w =
    if (match token with Some c => (MAX_ALLOWED_CAS_VALUE <? c)%Z | None => false end)
       || (MAX_ALLOWED_FLAG_VALUE <? flgs)%Z
    then (inl FLAGS_ERROR, w)
    else (node ← cluster_pick_node env key;
          connection_line env node
            (storage_command command key val flgs exptime noreply token)) w.
Proof.
  intros Hopen Hkey. unfold Client._storage_command.
  erewrite bind_returns by (apply check_closed_open, Hopen).
  destruct token as [c|]; simpl; rewrite !Z.gtb_ltb.
  - destruct (MAX_ALLOWED_CAS_VALUE <? c)%Z; simpl; [reflexivity|].
    erewrite bind_returns by reflexivity.
    destruct (MAX_ALLOWED_FLAG_VALUE <? flgs)%Z; simpl; [reflexivity|].
    erewrite bind_returns by reflexivity.
    erewrite bind_returns by (apply check_key_valid, Hkey). reflexivity.
  - erewrite bind_returns by reflexivity.
    destruct (MAX_ALLOWED_FLAG_VALUE <? flgs)%Z; simpl; [reflexivity|].
    erewrite bind_returns by reflexivity.
    erewrite bind_returns by (apply check_key_valid, Hkey). reflexivity.
Qed.

(** C1, at the bound: [set] with [flags] = 2^16 and [cas] with a token of
    2^64 are not rejected.  The client picks a node and writes the
    command with these values; the pipeline queues it. *)
Theorem storage_bounds_are_accepted :
  let env := constant_env ([], [], [], [], "") (Some STORED) in
  let w := new_world false in
  (Client.set env "k" "v" (2 ^ 16) 0 false w).1 = inr tt /\
  trace (Client.set env "k" "v" (2 ^ 16) 0 false w).2 =
    [EvPickNode "k";
     EvConnection localhost (storage_command "set" "k" "v" 65536 0 false None)] /\
  (Client.cas env "k" "v" (2 ^ 64) 0 0 false w).1 = inr tt /\
  trace (Client.cas env "k" "v" (2 ^ 64) 0 0 false w).2 =
    [EvPickNode "k";
     EvConnection localhost
       (storage_command "cas" "k" "v" 0 0 false (Some 18446744073709551616))] /\
  (Pipeline._storage_command "set" "k" "v" (2 ^ 16) 0 false None w).1 =
    inr ("set k 65536 0 1" ++ CRLF ++ "v" ++ CRLF) /\
  (Pipeline._storage_command "cas" "k" "v" 0 0 false (Some (2 ^ 64)) w).1 =
    inr ("cas k 0 0 1 18446744073709551616" ++ CRLF ++ "v" ++ CRLF).
Proof. vm_compute. repeat split; reflexivity. Qed.

(** ** Storage commands: the reply *)

Lemma is_token_false result token : result <> Some token -> is_token result token = false.
Proof. intros H. unfold is_token. now rewrite bool_decide_eq_false. Qed.

(** C2, as the code has it: with [noreply] false, [STORED] returns unit;
    the reply that raises [NotStoredStorageCommandError] is [NOT_STORED]
    for [add], [replace], [append] and [prepend] and [EXISTS] for [cas],
    and [set] has none; every other reply raises the generic
    [StorageCommandError]. *)
Theorem storage_reply_classified env sc w result w' :
  storage_noreply sc = false ->
  storage_proxy env sc w = (inr result, w') ->
  (result = Some STORED -> storage_call env sc w = (inr tt, w')) /\
  (forall token, not_stored_token sc = Some token -> result = Some token ->
     storage_call env sc w = (inl NotStoredStorageCommandError, w')) /\
  (result <> Some STORED ->
   (forall token, not_stored_token sc = Some token -> result <> Some token) ->
     storage_call env sc w = (inl (StorageCommandError result), w')).
Proof.
  intros Hnr Hproxy.
  destruct sc; simpl in *; subst noreply;
    unfold Client.set, Client.add, Client.replace, Client.append,
      Client.prepend, Client.cas;
    (erewrite bind_returns by exact Hproxy); simpl;
    (split; [| split]).
  all: first
    [ solve [intros ->; vm_compute; reflexivity]
    | solve [intros t [=]]
    | solve [intros t Ht ->; injection Ht as <-; vm_compute; reflexivity]
    | intros Hs Hn; try specialize (Hn _ eq_refl);
      rewrite (is_token_false _ _ Hs); try rewrite (is_token_false _ _ Hn);
      reflexivity ].
Qed.

Lemma storage_reply_classified_witness :
  let env := constant_env ([], [], [], [], "") (Some NOT_STORED) in
  let sc := SAdd "k" "v" 0 0 false in
  storage_call env sc (new_world false) =
    (inl NotStoredStorageCommandError, (storage_proxy env sc (new_world false)).2).
Proof.
  intros env sc.
  refine (proj1 (proj2 (storage_reply_classified env sc (new_world false)
                          (Some NOT_STORED) _ eq_refl _)) NOT_STORED eq_refl eq_refl).
  vm_compute. reflexivity.
Defined.

(** C2 as stated fails: [set] answered with [NOT_STORED] raises the
    generic [StorageCommandError], not [NotStoredStorageCommandError]
    (and so does [cas] answered with [NOT_STORED], or [add] answered with
    [EXISTS]). *)
Lemma not_stored_reply_to_set_is_generic :
  ~ (forall env sc w result w',
       storage_noreply sc = false ->
       storage_proxy env sc w = (inr result, w') ->
       result = Some NOT_STORED \/ result = Some EXISTS ->
       storage_call env sc w = (inl NotStoredStorageCommandError, w')).
Proof.
  intros H.
  pose (env := constant_env ([], [], [], [], "") (Some NOT_STORED)).
  pose (sc := SSet "k" "v" 0 0 false).
  specialize (H env sc (new_world false) (Some NOT_STORED)
                (storage_proxy env sc (new_world false)).2 eq_refl).
  assert (Hset : (storage_call env sc (new_world false)).1
                 = inl (StorageCommandError (Some NOT_STORED)))
    by (vm_compute; reflexivity).
  rewrite H in Hset; [discriminate Hset | vm_compute; reflexivity | now left].
Qed.

(** ** Counters *)

(** C7, as the code has it.  On a client that is not closed a negative
    delta raises [ValueError] and nothing else happens.  Once the proxy
    has returned: with [noreply] the result is [None]; otherwise
    [NOT_FOUND] raises [NotFoundCommandError]; a reply that [int]
    accepts, a decimal integer literal of at most 4300 digits, is
    returned as that integer; any other reply makes [int(result)] raise
    [ValueError], and no reply at all [TypeError]. *)
Theorem counter_outcomes env d key delta noreply w :
  (_closed (client w) = false -> delta < 0 ->
     counter_call env d key delta noreply w = (inl DELTA_ERROR, w)) /\
  (forall result w',
     Client._incr_decr_command env (counter_command d) key delta noreply w
       = (inr result, w') ->
     (noreply = true -> counter_call env d key delta noreply w = (inr None, w')) /\
     (noreply = false -> result = Some NOT_FOUND ->
        counter_call env d key delta noreply w = (inl NotFoundCommandError, w')) /\
     (noreply = false -> forall r n, result = Some r -> r <> NOT_FOUND ->
        py_int r = Some n ->
        counter_call env d key delta noreply w = (inr (Some n), w')) /\
     (noreply = false -> forall r, result = Some r -> r <> NOT_FOUND ->
        py_int r = None ->
        counter_call env d key delta noreply w = (inl (ValueError (int_error r)), w')) /\
     (noreply = false -> result = None ->
        counter_call env d key delta noreply w = (inl TypeError, w'))).
Proof.
  split.
  - intros Hopen Hneg.
    assert (Hp : forall command,
               Client._incr_decr_command env command key delta noreply w
               = (inl DELTA_ERROR, w)).
    { intros command. unfold Client._incr_decr_command.
      erewrite bind_returns by (apply check_closed_open, Hopen).
      apply bind_raises. unfold raise_if.
      now rewrite (proj2 (Z.ltb_lt delta 0) Hneg). }
    destruct d; simpl; unfold Client.increment, Client.decrement;
      apply bind_raises, Hp.
  - intros result w' Hproxy.
    assert (Hcall : counter_call env d key delta noreply w =
                    (if noreply then mret None
                     else if is_token result NOT_FOUND then raise NotFoundCommandError
                     else Some <$> Client.int_of_reply result) w').
    { destruct d; simpl in *; unfold Client.increment, Client.decrement;
        now erewrite bind_returns by exact Hproxy. }
    rewrite Hcall. repeat split.
    + now intros ->.
    + intros -> ->. reflexivity.
    + intros -> r n -> Hr Hint.
      rewrite is_token_false by congruence.
      apply fmap_returns. simpl. now rewrite Hint.
    + intros -> r -> Hr Hint.
      rewrite is_token_false by congruence.
      apply fmap_raises. simpl. now rewrite Hint.
    + intros -> ->. reflexivity.
Qed.

Lemma counter_outcomes_witness :
  let env := constant_env ([], [], [], [], "") (Some "13") in
  counter_call env Incr "n" (-1) false (new_world false)
    = (inl DELTA_ERROR, new_world false) /\
  counter_call env Incr "n" 3 false (new_world false)
    = (inr (Some 13),
       (Client._incr_decr_command env "incr" "n" 3 false (new_world false)).2).
Proof.
  intros env. split.
  - apply (proj1 (counter_outcomes env Incr "n" (-1) false (new_world false)));
      [reflexivity | lia].
  - refine (proj1 (proj2 (proj2 (proj2 (counter_outcomes env Incr "n" 3 false
                                         (new_world false))
                                 (Some "13") _ _))) eq_refl "13" 13 eq_refl _ _).
    + vm_compute. reflexivity.
    + discriminate.
    + vm_compute. reflexivity.
Defined.

(** C7 as stated fails: a reply other than [NOT_FOUND] need not be an
    integer.  When the server answers [incr] with a client error line,
    [int(result)] raises [ValueError]. *)
Lemma counter_reply_need_not_be_an_integer :
  ~ (forall env d key delta w result w',
       Client._incr_decr_command env (counter_command d) key delta false w
         = (inr result, w') ->
       result <> Some NOT_FOUND ->
       exists n, counter_call env d key delta false w = (inr (Some n), w')).
Proof.
  intros H.
  pose (reply := "CLIENT_ERROR cannot increment or decrement non-numeric value").
  pose (env := constant_env ([], [], [], [], "") (Some reply)).
  destruct (H env Incr "k" 1 (new_world false) (Some reply)
              (Client._incr_decr_command env "incr" "k" 1 false (new_world false)).2)
    as [n Hn].
  - vm_compute. reflexivity.
  - discriminate.
  - assert (Hcall : (counter_call env Incr "k" 1 false (new_world false)).1
                    = inl (ValueError "invalid literal for int() with base 10"))
      by (vm_compute; reflexivity).
    rewrite Hn in Hcall. discriminate Hcall.
Qed.

(** ** Single-key retrievals *)

Lemma single_item_found key return_flags with_cas keys values flgs tokens v f c w :
  key ∈ keys ->
  values !! 0%nat = Some v ->
  (return_flags = true -> flgs !! 0%nat = Some f) ->
  (with_cas = true -> tokens !! 0%nat = Some c) ->
  Client.single_item key return_flags with_cas (keys, values, flgs, tokens, "") w =
    (inr (Some (mkItem v (if return_flags then Some f else None)
                         (if with_cas then Some c else None))), w).
Proof.
  intros Hin Hv Hf Hc. unfold Client.single_item.
  erewrite bind_returns by reflexivity.
  rewrite bool_decide_eq_true_2 by exact Hin. simpl.
  unfold index. rewrite Hv. erewrite bind_returns by reflexivity.
  destruct return_flags, with_cas;
    rewrite ?(Hf eq_refl), ?(Hc eq_refl); reflexivity.
Qed.

Lemma single_item_missing key return_flags with_cas keys values flgs tokens w :
  key ∉ keys ->
  Client.single_item key return_flags with_cas (keys, values, flgs, tokens, "") w =
    (inr None, w).
Proof.
  intros Hin. unfold Client.single_item.
  erewrite bind_returns by reflexivity.
  now rewrite bool_decide_eq_false_2 by exact Hin.
Qed.

Lemma retrieve_direct env r key return_flags w :
  autobatched r = false \/ _autobatching (client w) = false ->
  retrieve env r key return_flags w =
    (reply ← retrieval_proxy env r key;
     Client.single_item key return_flags (returns_cas r) reply) w.
Proof.
  intros Hd.
  destruct r; simpl in *; try reflexivity;
    (destruct Hd as [Hd | Hd]; [discriminate Hd|]);
    unfold Client.get, Client.gets;
    (erewrite bind_returns by (unfold read; rewrite Hd; reflexivity));
    reflexivity.
Qed.

(** With autobatching on, [get] and [gets] are handed to the autobatcher
    built for the same [return_flags], without and with [cas]. *)
Lemma retrieve_autobatched env key return_flags w :
  _autobatching (client w) = true ->
  Client.get env key return_flags w = autobatching_execute env return_flags false key w /\
  Client.gets env key return_flags w = autobatching_execute env return_flags true key w.
Proof.
  intros Hab. unfold Client.get, Client.gets.
  split; (erewrite bind_returns by (unfold read; rewrite Hab; reflexivity));
    now destruct return_flags.
Qed.

(** C8: for [get], [gets], [gat] and [gats] on their own path (for [get]
    and [gets], autobatching off) and a reply without client error: a
    key that the reply does not hold gives [None]; a key that it holds
    gives an item whose [flags] is set exactly when [return_flags] was
    passed and whose [cas] is set exactly for [gets] and [gats]. *)
Theorem retrieved_item_fields env r key return_flags keys values flgs tokens w w' :
  autobatched r = false \/ _autobatching (client w) = false ->
  retrieval_proxy env r key w = (inr (keys, values, flgs, tokens, ""), w') ->
  (key ∉ keys -> retrieve env r key return_flags w = (inr None, w')) /\
  (key ∈ keys ->
   forall v f c,
     values !! 0%nat = Some v ->
     (return_flags = true -> flgs !! 0%nat = Some f) ->
     (returns_cas r = true -> tokens !! 0%nat = Some c) ->
     exists item,
       retrieve env r key return_flags w = (inr (Some item), w') /\
       value item = v /\
       flags item = (if return_flags then Some f else None) /\
       cas item = (if returns_cas r then Some c else None) /\
       (is_Some (flags item) <-> return_flags = true) /\
       (is_Some (cas item) <-> (r = RGets \/ exists exptime, r = RGats exptime))).
Proof.
  intros Hd Hproxy. rewrite (retrieve_direct _ _ _ _ _ Hd).
  erewrite bind_returns by exact Hproxy. split.
  - apply single_item_missing.
  - intros Hin v f c Hv Hf Hc. eexists. split.
    + exact (single_item_found key return_flags (returns_cas r) keys values flgs tokens
               v f c w' Hin Hv Hf Hc).
    + simpl. repeat split; try reflexivity.
      * destruct return_flags; [reflexivity | intros [? [=]]].
      * destruct return_flags; [eauto | discriminate].
      * destruct r; simpl; intros [x Hx]; try discriminate Hx; eauto.
      * intros [-> | [e ->]]; simpl; eauto.
Qed.

Lemma retrieved_item_fields_witness :
  let env := constant_env (["foo"], ["bar"], [7], [42], "") None in
  exists item,
    retrieve env RGets "foo" false (new_world false)
      = (inr (Some item), (retrieval_proxy env RGets "foo" (new_world false)).2) /\
    value item = "bar" /\ flags item = None /\ cas item = Some 42 /\
    (is_Some (flags item) <-> false = true) /\
    (is_Some (cas item) <-> (RGets = RGets \/ exists exptime, RGets = RGats exptime)).
Proof.
  intros env.
  refine (proj2 (retrieved_item_fields env RGets "foo" false ["foo"] ["bar"] [7] [42]
                   (new_world false) _ (or_intror eq_refl) _) _ "bar" 7 42 eq_refl _ _).
  - vm_compute. reflexivity.
  - apply list_elem_of_here.
  - discriminate.
  - reflexivity.
Defined.

(** ** The pipeline *)

Local Open Scope list_scope.

Lemma self_returns p w obj :
  pipelines w !! p = Some obj -> Pipeline.self p w = (inr obj, w).
Proof.
  intros H. unfold Pipeline.self.
  erewrite bind_returns by reflexivity. now rewrite H.
Qed.

Lemma set_stack_returns p st w obj :
  pipelines w !! p = Some obj ->
  Pipeline.set_stack p st w =
    (inr tt, put_pipeline p (mk_Pipeline (memcached_host_address obj) st) w).
Proof.
  intros H. unfold Pipeline.set_stack.
  erewrite bind_returns by (apply self_returns, H). reflexivity.
Qed.

Lemma stack_append_returns p command w obj :
  pipelines w !! p = Some obj ->
  Pipeline.stack_append p command w =
    (inr tt, put_pipeline p (mk_Pipeline (memcached_host_address obj)
                                         (stack obj ++ [command])) w).
Proof.
  intros H. unfold Pipeline.stack_append.
  erewrite bind_returns by (apply self_returns, H).
  now apply set_stack_returns.
Qed.

Lemma put_pipeline_lookup p obj w : pipelines (put_pipeline p obj w) !! p = Some obj.
Proof. unfold put_pipeline. simpl. apply lookup_insert_eq. Qed.

Lemma put_pipeline_twice p obj obj' w :
  put_pipeline p obj' (put_pipeline p obj w) = put_pipeline p obj' w.
Proof. unfold put_pipeline, set_pipelines. simpl. now rewrite insert_insert_eq. Qed.

Lemma constant_ret {A : Type} (x : A) : constant_in_world (mret x).
Proof. exists (inr x). reflexivity. Qed.

Lemma constant_raise {A : Type} (e : exn) : constant_in_world (raise e : M A).
Proof. exists (inl e). reflexivity. Qed.

Lemma constant_bind {A B : Type} (m : M A) (f : A -> M B) :
  constant_in_world m -> (forall x, constant_in_world (f x)) ->
  constant_in_world (m ≫= f).
Proof.
  intros [[e|x] Hm] Hf.
  - exists (inl e). intros w. now apply bind_raises.
  - destruct (Hf x) as [r Hr]. exists r. intros w.
    erewrite bind_returns by apply Hm. apply Hr.
Qed.

Lemma constant_fmap {A B : Type} (m : M A) (f : A -> B) :
  constant_in_world m -> constant_in_world (f <$> m).
Proof.
  intros [[e|x] Hm].
  - exists (inl e). intros w. now apply fmap_raises.
  - exists (inr (f x)). intros w. now apply fmap_returns.
Qed.

Lemma constant_raise_if c e : constant_in_world (raise_if c e).
Proof. destruct c; [apply constant_raise | apply constant_ret]. Qed.

Lemma constant_for_each {A : Type} (xs : list A) (body : A -> M unit) :
  (forall x, constant_in_world (body x)) -> constant_in_world (for_each xs body).
Proof.
  intros Hb. induction xs as [|x xs IH]; simpl.
  - apply constant_ret.
  - apply constant_bind; [apply Hb | intros _; exact IH].
Qed.

Ltac constant_tac :=
  repeat first
    [ apply constant_ret | apply constant_raise | apply constant_raise_if
    | apply constant_fmap
    | apply constant_for_each; intros ?
    | apply constant_bind; [| intros ?] ].

Lemma constant_retrieval_command command keys :
  constant_in_world (Pipeline._retrieval_command command keys).
Proof. unfold Pipeline._retrieval_command, Pipeline.check_key. constant_tac. Qed.

Lemma constant_storage_command command key val flgs exptime noreply token :
  constant_in_world (Pipeline._storage_command command key val flgs exptime noreply token).
Proof. unfold Pipeline._storage_command, Pipeline.check_key. constant_tac. Qed.

Lemma constant_incr_decr_command command key delta noreply :
  constant_in_world (Pipeline._incr_decr_command command key delta noreply).
Proof. unfold Pipeline._incr_decr_command, Pipeline.check_key. constant_tac. Qed.

Lemma constant_get_and_touch_command command exptime keys :
  constant_in_world (Pipeline._get_and_touch_command command exptime keys).
Proof. unfold Pipeline._get_and_touch_command, Pipeline.check_key. constant_tac. Qed.

Lemma constant_int_of_group g : constant_in_world (Pipeline.int_of_group g).
Proof.
  unfold Pipeline.int_of_group. destruct g as [s|]; [destruct (py_int s)|]; constant_tac.
Qed.

(** A builder whose command comes from a helper: it fails as the helper
    does, or queues the helper's command and returns its pipeline. *)
Lemma queue_helper_command p (helper : M bytes) w obj :
  constant_in_world helper ->
  pipelines w !! p = Some obj ->
  (exists e, (command ← helper; Pipeline.stack_append p command;; mret p) w = (inl e, w)) \/
  (exists c, (command ← helper; Pipeline.stack_append p command;; mret p) w =
     (inr p, put_pipeline p (mk_Pipeline (memcached_host_address obj)
                                         (stack obj ++ [c])) w)).
Proof.
  intros [[e|c] Hh] Hp.
  - left. exists e. now apply bind_raises.
  - right. exists c. erewrite bind_returns by apply Hh.
    erewrite bind_returns by (apply stack_append_returns, Hp). reflexivity.
Qed.

Lemma queue_command p command w obj :
  pipelines w !! p = Some obj ->
  (Pipeline.stack_append p command;; mret p) w =
     (inr p, put_pipeline p (mk_Pipeline (memcached_host_address obj)
                                         (stack obj ++ [command])) w).
Proof.
  intros Hp. erewrite bind_returns by (apply stack_append_returns, Hp). reflexivity.
Qed.

(** Every builder either raises and changes nothing, or queues exactly
    one command and returns the pipeline it was called on. *)
Lemma build_outcome p b w obj :
  pipelines w !! p = Some obj ->
  (exists e, build p b w = (inl e, w)) \/
  (exists c, build p b w =
     (inr p, put_pipeline p (mk_Pipeline (memcached_host_address obj)
                                         (stack obj ++ [c])) w)).
Proof.
  intros Hp.
  destruct b; simpl;
    first
      [ apply queue_helper_command;
        [ first [ apply constant_retrieval_command | apply constant_storage_command
                | apply constant_incr_decr_command | apply constant_get_and_touch_command ]
        | exact Hp ]
      | right; eexists; apply queue_command, Hp ].
Qed.

Lemma put_pipeline_same p obj w :
  pipelines w !! p = Some obj -> put_pipeline p obj w = w.
Proof.
  intros H. unfold put_pipeline, set_pipelines.
  rewrite insert_id by exact H. now destruct w.
Qed.

Lemma build_all_outcome p bs : forall w obj w',
  pipelines w !! p = Some obj ->
  build_all p bs w = (inr tt, w') ->
  exists cmds,
    length cmds = length bs /\
    w' = put_pipeline p (mk_Pipeline (memcached_host_address obj) (stack obj ++ cmds)) w.
Proof.
  induction bs as [|b bs IH]; intros w obj w' Hp Hrun.
  - exists []. simpl in Hrun. injection Hrun as <-. split; [reflexivity|].
    rewrite app_nil_r. symmetry. apply put_pipeline_same. now destruct obj.
  - unfold build_all in Hrun. simpl in Hrun.
    destruct (build_outcome p b w obj Hp) as [[e He] | [c Hc]].
    + erewrite bind_raises in Hrun by (apply bind_raises, He). discriminate Hrun.
    + erewrite bind_returns in Hrun
        by (erewrite bind_returns by exact Hc; reflexivity).
      destruct (IH _ _ _ (put_pipeline_lookup _ _ _) Hrun) as [cmds [Hlen Hw']].
      exists (c :: cmds). simpl in *. split; [now rewrite Hlen|].
      rewrite Hw', put_pipeline_twice, <- app_assoc. reflexivity.
Qed.

(** *** [execute] *)

Lemma record_of_constant env groups : constant_in_world (Pipeline.record_of env groups).
Proof.
  unfold Pipeline.record_of.
  repeat first
    [ apply constant_ret | apply constant_int_of_group
    | match goal with
      | |- constant_in_world (if ?c then _ else _) => destruct c
      end
    | apply constant_fmap
    | apply constant_bind; [| intros ?] ].
Qed.

(** The loop of [execute] over the matches: the response is the records
    of the matches, one after the other. *)
Lemma response_loop env matches : forall acc w response w',
  fold_each matches acc
    (fun response groups => new ← Pipeline.record_of env groups; mret (response ++ new)) w
    = (inr response, w') ->
  w' = w /\
  exists recs,
    Forall2 (fun groups rs => forall w0, Pipeline.record_of env groups w0 = (inr rs, w0))
            matches recs /\
    response = acc ++ concat recs.
Proof.
  induction matches as [|groups matches IH]; intros acc w response w'; simpl.
  - intros [= <- <-]. split; [reflexivity|]. exists []. split; [constructor|].
    now rewrite app_nil_r.
  - destruct (record_of_constant env groups) as [[e|rs] Hrs].
    + erewrite bind_raises by (apply bind_raises, Hrs). discriminate.
    + erewrite bind_returns by (erewrite bind_returns by apply Hrs; reflexivity).
      intros Hloop. destruct (IH _ _ _ _ Hloop) as [-> [recs [Hall ->]]].
      split; [reflexivity|]. exists (rs :: recs). split.
      * constructor; [exact Hrs | exact Hall].
      * simpl. now rewrite app_assoc.
Qed.

(** What a successful [execute] went through. *)
Lemma execute_succeeded env p w response w' :
  Pipeline.execute env p w = (inr response, w') ->
  exists obj node data text,
    _closed (client w) = false /\
    pipelines w !! p = Some obj /\
    cluster_node env (trace w) (memcached_host_address obj) = inr node /\
    line_reply env (trace w ++ [EvNode (memcached_host_address obj)]) node
      (_extract_pipeline_data (join "" (stack obj))) = inr (Some data) /\
    decode env data = inr text /\
    (exists recs,
       Forall2 (fun groups rs => forall w0, Pipeline.record_of env groups w0 = (inr rs, w0))
               (responses_finditer env text) recs /\
       response = concat recs) /\
    w' = put_pipeline p (mk_Pipeline (memcached_host_address obj) [])
           (add_event (EvConnection node (_extract_pipeline_data (join "" (stack obj))))
              (add_event (EvNode (memcached_host_address obj)) w)).
Proof.
  unfold Pipeline.execute.
  erewrite bind_returns by reflexivity.
  destruct (_closed (client w)) eqn:Hopen.
  { erewrite bind_raises by reflexivity. discriminate. }
  erewrite bind_returns by reflexivity.
  destruct (pipelines w !! p) as [obj|] eqn:Hp.
  2:{ erewrite bind_raises; [discriminate|].
      unfold Pipeline.self. erewrite bind_returns by reflexivity. now rewrite Hp. }
  erewrite bind_returns by (apply self_returns, Hp).
  destruct (cluster_node env (trace w) (memcached_host_address obj)) as [e|node] eqn:Hn.
  { erewrite bind_raises by (rewrite cluster_get_node_runs, Hn; reflexivity).
    discriminate. }
  erewrite bind_returns by (rewrite cluster_get_node_runs, Hn; reflexivity).
  destruct (line_reply env (trace w ++ [EvNode (memcached_host_address obj)]) node
              (_extract_pipeline_data (join "" (stack obj)))) as [e|[data|]] eqn:Hl.
  { erewrite bind_raises by (rewrite connection_line_runs; simpl trace; rewrite Hl;
                             reflexivity).
    discriminate. }
  2:{ erewrite bind_returns by (rewrite connection_line_runs; simpl trace; rewrite Hl;
                                reflexivity).
      erewrite bind_raises by reflexivity. discriminate. }
  erewrite bind_returns by (rewrite connection_line_runs; simpl trace; rewrite Hl;
                            reflexivity).
  destruct (decode env data) as [e|text] eqn:Hd.
  { erewrite bind_raises by (unfold lift; rewrite Hd; reflexivity). discriminate. }
  erewrite bind_returns by (unfold lift; rewrite Hd; reflexivity).
  match goal with
  | |- context [fold_each ?ms ?acc ?body] =>
      destruct (fold_each ms acc body
                  (add_event (EvConnection node (_extract_pipeline_data (join "" (stack obj))))
                     (add_event (EvNode (memcached_host_address obj)) w)))
        as [[e|rs] w1] eqn:Hloop
  end.
  { erewrite bind_raises by exact Hloop. discriminate. }
  erewrite bind_returns by exact Hloop.
  apply response_loop in Hloop. destruct Hloop as [-> [recs [Hall ->]]].
  erewrite bind_returns
    by (apply set_stack_returns; unfold add_event; simpl; exact Hp).
  intros [= <- <-].
  exists obj, node, data, text. repeat split; try assumption.
  exists recs. split; [exact Hall | reflexivity].
Qed.

Lemma response_loop_world env matches : forall acc w,
  (fold_each matches acc
     (fun response groups => new ← Pipeline.record_of env groups; mret (response ++ new))
     w).2 = w.
Proof.
  induction matches as [|groups matches IH]; intros acc w; simpl; [reflexivity|].
  destruct (record_of_constant env groups) as [[e|rs] Hrs].
  - erewrite bind_raises by (apply bind_raises, Hrs). reflexivity.
  - erewrite bind_returns by (erewrite bind_returns by apply Hrs; reflexivity).
    apply IH.
Qed.

(** The calls [execute] makes on an open client: the node of the
    pipeline's address is looked up and the joined stack is written on
    one of its connections, whatever comes back. *)
Lemma execute_trace env p w obj node :
  _closed (client w) = false ->
  pipelines w !! p = Some obj ->
  cluster_node env (trace w) (memcached_host_address obj) = inr node ->
  trace (Pipeline.execute env p w).2 =
    trace w ++ [EvNode (memcached_host_address obj);
                EvConnection node (_extract_pipeline_data (join "" (stack obj)))].
Proof.
  intros Hopen Hp Hn. unfold Pipeline.execute.
  erewrite bind_returns by reflexivity. rewrite Hopen.
  erewrite bind_returns by reflexivity.
  erewrite bind_returns by (apply self_returns, Hp).
  erewrite bind_returns by (rewrite cluster_get_node_runs, Hn; reflexivity).
  assert (Htr : forall w1 : World,
             trace w1 = trace (add_event
                 (EvConnection node (_extract_pipeline_data (join "" (stack obj))))
                 (add_event (EvNode (memcached_host_address obj)) w)) ->
             trace w1 = trace w ++ [EvNode (memcached_host_address obj);
                EvConnection node (_extract_pipeline_data (join "" (stack obj)))]).
  { intros w1 ->. simpl. now rewrite <- app_assoc. }
  destruct (line_reply env (trace w ++ [EvNode (memcached_host_address obj)]) node
              (_extract_pipeline_data (join "" (stack obj)))) as [e|[data|]] eqn:Hl.
  { erewrite bind_raises by (rewrite connection_line_runs; simpl trace; rewrite Hl;
                             reflexivity).
    now apply Htr. }
  2:{ erewrite bind_returns by (rewrite connection_line_runs; simpl trace; rewrite Hl;
                                reflexivity).
      erewrite bind_raises by reflexivity. now apply Htr. }
  erewrite bind_returns by (rewrite connection_line_runs; simpl trace; rewrite Hl;
                            reflexivity).
  destruct (decode env data) as [e|text] eqn:Hd.
  { erewrite bind_raises by (unfold lift; rewrite Hd; reflexivity). now apply Htr. }
  erewrite bind_returns by (unfold lift; rewrite Hd; reflexivity).
  match goal with
  | |- context [fold_each ?ms ?acc ?body] =>
      pose proof (response_loop_world env ms acc
                  (add_event (EvConnection node (_extract_pipeline_data (join "" (stack obj))))
                     (add_event (EvNode (memcached_host_address obj)) w))) as Hw;
      destruct (fold_each ms acc body
                  (add_event (EvConnection node (_extract_pipeline_data (join "" (stack obj))))
                     (add_event (EvNode (memcached_host_address obj)) w)))
        as [[e|rs] w1] eqn:Hloop
  end; simpl in Hw; subst w1.
  { erewrite bind_raises by exact Hloop. now apply Htr. }
  erewrite bind_returns by exact Hloop.
  erewrite bind_returns
    by (apply set_stack_returns; unfold add_event; simpl; exact Hp).
  now apply Htr.
Qed.

(** The loop of [execute], forwards: when every match gives its
    records, the response is those records, one after the other. *)
Lemma response_loop_returns env matches recs :
  Forall2 (fun groups rs => forall w0, Pipeline.record_of env groups w0 = (inr rs, w0))
          matches recs ->
  forall acc w,
    fold_each matches acc
      (fun response groups => new ← Pipeline.record_of env groups; mret (response ++ new)) w
      = (inr (acc ++ concat recs), w).
Proof.
  induction 1 as [|groups rs matches recs Hrs _ IH]; intros acc w; simpl.
  - now rewrite app_nil_r.
  - erewrite bind_returns by (erewrite bind_returns by apply Hrs; reflexivity).
    rewrite IH, app_assoc. reflexivity.
Qed.

(** [execute], forwards: on an open client, when the node is found, the
    connection hands over a reply that decodes and every match gives
    its records, [execute] returns those records and empties the
    stack. *)
Lemma execute_returns env p w obj node data text recs :
  _closed (client w) = false ->
  pipelines w !! p = Some obj ->
  cluster_node env (trace w) (memcached_host_address obj) = inr node ->
  line_reply env (trace w ++ [EvNode (memcached_host_address obj)]) node
    (_extract_pipeline_data (join "" (stack obj))) = inr (Some data) ->
  decode env data = inr text ->
  Forall2 (fun groups rs => forall w0, Pipeline.record_of env groups w0 = (inr rs, w0))
          (responses_finditer env text) recs ->
  Pipeline.execute env p w =
    (inr (concat recs),
     put_pipeline p (mk_Pipeline (memcached_host_address obj) [])
       (add_event (EvConnection node (_extract_pipeline_data (join "" (stack obj))))
          (add_event (EvNode (memcached_host_address obj)) w))).
Proof.
  intros Hopen Hp Hn Hl Hd Hall. unfold Pipeline.execute.
  erewrite bind_returns by reflexivity. rewrite Hopen.
  erewrite bind_returns by reflexivity.
  erewrite bind_returns by (apply self_returns, Hp).
  erewrite bind_returns by (rewrite cluster_get_node_runs, Hn; reflexivity).
  erewrite bind_returns by (rewrite connection_line_runs; simpl trace; rewrite Hl;
                            reflexivity).
  erewrite bind_returns by (unfold lift; rewrite Hd; reflexivity).
  erewrite bind_returns by (apply (response_loop_returns env _ _ Hall)).
  erewrite bind_returns
    by (apply set_stack_returns; unfold add_event; simpl; exact Hp).
  reflexivity.
Qed.

Lemma substring_all s : String.substring 0 (String.length s) s = s.
Proof. induction s as [|c s IH]; simpl; [reflexivity | now rewrite IH]. Qed.

Lemma removeprefix_version text : removeprefix "VERSION " ("VERSION " ++ text) = text.
Proof.
  unfold removeprefix. simpl. rewrite Nat.sub_0_r.
  destruct text; [reflexivity|]. apply (substring_all (String _ _)).
Qed.

(** What the match of one alternative tells of the tests of [execute]. *)
Ltac sole_tests H :=
  unfold sole, deciding_groups in H; simpl in H;
  injection H as ? ? ? ? ? ? ? ? ? ? ? ? ? ? ?;
  unfold Pipeline.record_of;
  repeat match goal with
         | E : truthy_opt _ = _ |- _ => rewrite E; clear E
         end.

(** The chain of tests of [execute] gives the match of a terminal
    record its typed record, and nothing else. *)
Lemma record_of_presents env groups t :
  presents groups t ->
  forall w, Pipeline.record_of env groups w = (inr [typed_record env t], w).
Proof.
  intros Hp w. destruct t as [message|code|data flgs token|text|block|n]; simpl in Hp.
  - destruct Hp as [[Hsole Hg] | [Hsole Hg]]; sole_tests Hsole; now rewrite Hg.
  - destruct code; sole_tests Hp; reflexivity.
  - destruct Hp as (Hsole & Hdata & (s & Hf & Hfi) & Hcas). sole_tests Hsole.
    unfold Pipeline.int_of_group. rewrite Hdata, Hf.
    destruct token as [c|].
    + destruct Hcas as (sc & Hc & Hne & Hci). rewrite Hc. simpl.
      unfold truthy. rewrite (proj2 (String.eqb_neq sc "") Hne). simpl.
      unfold mbind, M_bind, fmap, M_fmap. now rewrite Hfi, Hci.
    + rewrite Hcas. unfold mbind, M_bind. now rewrite Hfi.
  - destruct Hp as [Hsole Hg]. sole_tests Hsole. rewrite Hg. simpl default.
    now rewrite removeprefix_version.
  - destruct Hp as [Hsole Hg]. sole_tests Hsole. now rewrite Hg.
  - destruct Hp as (Hsole & s & Hg & Hi). sole_tests Hsole.
    unfold Pipeline.int_of_group. rewrite Hg. unfold mbind, M_bind. now rewrite Hi.
Qed.

(** C3, as the code has it.  On an open client, when the consolidated
    reply holds one terminal record for each of the N queued commands,
    [execute] returns exactly N records, in the order of the reply: a
    status code or an error message as a string, a value as an [Item]
    with its flags as an integer and its cas token as an integer or
    [None], a version as the string after the keyword, a stats block as
    a map and a counter reply as an integer. *)
Theorem execute_returns_the_typed_records env p w obj node data text terminals :
  _closed (client w) = false ->
  pipelines w !! p = Some obj ->
  cluster_node env (trace w) (memcached_host_address obj) = inr node ->
  line_reply env (trace w ++ [EvNode (memcached_host_address obj)]) node
    (_extract_pipeline_data (join "" (stack obj))) = inr (Some data) ->
  decode env data = inr text ->
  Forall2 presents (responses_finditer env text) terminals ->
  length terminals = length (stack obj) ->
  exists w',
    Pipeline.execute env p w = (inr (typed_record env <$> terminals), w') /\
    length (typed_record env <$> terminals) = length (stack obj).
Proof.
  intros Hopen Hp Hn Hl Hd Hall Hlen.
  assert (Hrecs : Forall2 (fun groups rs =>
                     forall w0, Pipeline.record_of env groups w0 = (inr rs, w0))
                    (responses_finditer env text)
                    ((fun t => [typed_record env t]) <$> terminals)).
  { apply Forall2_fmap_r. eapply Forall2_impl; [exact Hall|].
    intros groups t Hpres w0. simpl. now apply record_of_presents. }
  eexists. split; [| now rewrite length_fmap].
  rewrite (execute_returns env p w obj node data text _ Hopen Hp Hn Hl Hd Hrecs).
  f_equal. f_equal. clear. induction terminals as [|t ts IH]; [reflexivity|].
  simpl. f_equal. exact IH.
Qed.

Lemma execute_returns_the_typed_records_witness :
  let terminals := [TVersion "1.6.21"; TStatus StEnd; TStatus StStored;
                    TValue (Some "v") 0 None; TStatus StDeleted] in
  let reply := ("VERSION 1.6.21" ++ CRLF ++ "END" ++ CRLF ++ "STORED" ++ CRLF
                ++ "VALUE k 0 1" ++ CRLF ++ "v" ++ CRLF ++ "END" ++ CRLF
                ++ "DELETED" ++ CRLF)%string in
  let env := fixed_env (fun keys => [(localhost, keys)]) (fun _ _ => inr ([], [], [], [], ""))
               (fun _ => inr (Some reply)) [] 0 (finds reply (presentation <$> terminals)) in
  let w := world_with_pipeline
             [BVersion; BGet "k"; BSet "k" "v" 0 0 false; BGet "k"; BDelete "k" false] in
  exists w',
    Pipeline.execute env 0%nat w
      = (inr [RStr "1.6.21"; RStr "END"; RStr "STORED"; RItem (Some "v") 0 None;
              RStr "DELETED"], w') /\
    length (typed_record env <$> terminals) = 5%nat.
Proof.
  intros terminals reply env w.
  refine (execute_returns_the_typed_records env 0%nat w
            (mk_Pipeline localhost _) localhost reply reply terminals
            eq_refl eq_refl eq_refl eq_refl eq_refl _ eq_refl).
  unfold env. simpl responses_finditer. unfold finds. rewrite String.eqb_refl.
  repeat constructor; try (vm_compute; reflexivity).
  exists "0". split; vm_compute; reflexivity.
Defined.

(** C3 as stated fails, whatever the response pattern is.  Take any
    [execute] that returns: by C3 it returned as many records as its
    pipeline held commands.  Queue [delete] with [noreply] behind those
    commands and let the server, which answers no command sent with
    [noreply], send the same reply: [execute] returns the same records,
    one fewer than the commands of this pipeline.  So no pattern under
    which [execute] ever returns makes C3 true. *)
Lemma execute_need_not_return_a_record_per_command :
  ~ exists matches : string -> list Groups,
      (exists env p w response w',
         responses_finditer env = matches /\
         Pipeline.execute env p w = (inr response, w')) /\
      forall env p w obj response w',
        responses_finditer env = matches ->
        pipelines w !! p = Some obj ->
        Pipeline.execute env p w = (inr response, w') ->
        length response = length (stack obj).
Proof.
  intros (matches & (env & p & w & response & w' & Hm & Hrun) & Hclaim).
  destruct (execute_succeeded _ _ _ _ _ Hrun)
    as (obj & node & data & text & Hopen & Hp & Hn & Hl & Hd & [recs [Hall ->]] & _).
  pose proof (Hclaim env p w obj _ _ Hm Hp Hrun) as Hlen.
  set (server := answering_as env (_extract_pipeline_data (join "" (stack obj)))).
  set (w2 := (build p (BDelete "k" true) w).2).
  set (obj2 := mk_Pipeline (memcached_host_address obj)
                 (stack obj ++ [("delete k noreply" ++ CRLF)%string])).
  assert (Hw2 : w2 = put_pipeline p obj2 w).
  { unfold w2. simpl build. unfold Pipeline.delete.
    now rewrite (queue_command p _ w obj Hp). }
  assert (Hp2 : pipelines w2 !! p = Some obj2)
    by (rewrite Hw2; apply put_pipeline_lookup).
  assert (Hrun2 : Pipeline.execute server p w2 =
                  (inr (concat recs),
                   put_pipeline p (mk_Pipeline (memcached_host_address obj2) [])
                     (add_event (EvConnection node
                                   (_extract_pipeline_data (join "" (stack obj2))))
                        (add_event (EvNode (memcached_host_address obj2)) w2)))).
  { apply (execute_returns server p w2 obj2 node data text recs).
    - rewrite Hw2. exact Hopen.
    - exact Hp2.
    - rewrite Hw2. exact Hn.
    - rewrite Hw2. exact Hl.
    - exact Hd.
    - exact Hall. }
  pose proof (Hclaim server p w2 obj2 _ _ Hm Hp2 Hrun2) as Hlen2.
  unfold obj2 in Hlen2. simpl in Hlen2. rewrite length_app in Hlen2. simpl in Hlen2. lia.
Qed.

(** C10: the stack of a pipeline is empty after a successful [execute]
    and after [__aexit__]; [__aenter__] returns the pipeline; a builder
    that returns has queued exactly one command and returns the pipeline
    it was called on; and after a successful [execute], a chain of
    builder calls leaves exactly their commands on the stack, which are
    what the next [execute] writes. *)
Theorem pipeline_stack_discipline env p w obj :
  pipelines w !! p = Some obj ->
  (forall response w',
     Pipeline.execute env p w = (inr response, w') ->
     stack <$> pipelines w' !! p = Some []) /\
  (exists w', Pipeline.__aexit__ p w = (inr tt, w') /\
              stack <$> pipelines w' !! p = Some []) /\
  Pipeline.__aenter__ p w = (inr p, w) /\
  (forall b q w',
     build p b w = (inr q, w') ->
     q = p /\
     exists c, w' = put_pipeline p (mk_Pipeline (memcached_host_address obj)
                                                (stack obj ++ [c])) w) /\
  (forall response w1 bs w2,
     Pipeline.execute env p w = (inr response, w1) ->
     build_all p bs w1 = (inr tt, w2) ->
     exists cmds,
       length cmds = length bs /\
       pipelines w2 !! p = Some (mk_Pipeline (memcached_host_address obj) cmds) /\
       forall node,
         cluster_node env (trace w2) (memcached_host_address obj) = inr node ->
         trace (Pipeline.execute env p w2).2 =
           trace w2 ++ [EvNode (memcached_host_address obj);
                        EvConnection node (_extract_pipeline_data (join "" cmds))]).
Proof.
  intros Hp. repeat split.
  - intros response w' Hrun.
    destruct (execute_succeeded _ _ _ _ _ Hrun)
      as (obj' & node & data & text & _ & Hp' & _ & _ & _ & _ & ->).
    now rewrite put_pipeline_lookup.
  - eexists. split; [apply set_stack_returns, Hp|].
    now rewrite put_pipeline_lookup.
  - destruct (build_outcome p b w obj Hp) as [[e He] | [c Hc]]; congruence.
  - destruct (build_outcome p b w obj Hp) as [[e He] | [c Hc]];
      [congruence|]. exists c. congruence.
  - intros response w1 bs w2 Hrun Hbuild.
    destruct (execute_succeeded _ _ _ _ _ Hrun)
      as (obj' & node & data & text & Hopen & Hp' & _ & _ & _ & _ & ->).
    assert (obj' = obj) by congruence. subst obj'.
    destruct (build_all_outcome _ _ _ _ _ (put_pipeline_lookup _ _ _) Hbuild)
      as [cmds [Hlen ->]].
    cbn [stack memcached_host_address app] in *. exists cmds. split; [exact Hlen|].
    rewrite put_pipeline_twice. split; [apply put_pipeline_lookup|].
    intros node' Hnode.
    match goal with
    | |- trace (Pipeline.execute env p ?w2).2 = _ =>
        exact (execute_trace env p w2 (mk_Pipeline (memcached_host_address obj) cmds)
                 node' Hopen (put_pipeline_lookup _ _ _) Hnode)
    end.
Qed.

Lemma pipeline_stack_discipline_witness :
  let env := fixed_env (fun keys => [(localhost, keys)]) (fun _ _ => inr ([], [], [], [], ""))
               (fun _ => inr (Some version_reply)) [] 0 version_only_finditer in
  let w := world_with_pipeline [BVersion; BGet "k"] in
  let w' := (build 0%nat (BDelete "k" false) w).2 in
  0%nat = 0%nat /\
  exists c, w' = put_pipeline 0%nat
                   (mk_Pipeline localhost
                      ([("version" ++ CRLF)%string; ("get k" ++ CRLF)%string] ++ [c])) w.
Proof.
  intros env w w'.
  refine (proj1 (proj2 (proj2 (proj2
            (pipeline_stack_discipline env 0%nat w
               (mk_Pipeline localhost
                  [("version" ++ CRLF)%string; ("get k" ++ CRLF)%string]) _))))
            (BDelete "k" false) 0%nat w' _).
  - vm_compute. reflexivity.
  - vm_compute. reflexivity.
Defined.

(** ** Key validation *)

Lemma for_each_check_key_invalid keys key w :
  key ∈ keys -> is_key_valid key = false ->
  for_each keys Client.check_key w = (inl KEY_ERROR, w).
Proof.
  intros Hin Hbad. induction keys as [|k keys IH]; [inversion Hin|]. simpl.
  destruct (is_key_valid k) eqn:Hk.
  - erewrite bind_returns by (apply check_key_valid, Hk).
    apply IH. inversion Hin; subst; [congruence | assumption].
  - apply bind_raises, check_key_invalid, Hk.
Qed.

Lemma is_ValueError_raise_if {A : Type} c msg (rest : M A) w :
  (exists msg', rest w = (inl (ValueError msg'), w)) ->
  exists msg', (raise_if c (ValueError msg);; rest) w = (inl (ValueError msg'), w).
Proof.
  intros [msg' H]. destruct c.
  - exists msg. now apply bind_raises.
  - exists msg'. now erewrite bind_returns by reflexivity.
Qed.

(** What the client does with an invalid key: every key-accepting
    method of an open client raises [ValueError] before it picks a node
    ([get] and [gets] on their own path, autobatching off). *)
Lemma client_rejects_invalid_key env c key w :
  _closed (client w) = false ->
  call_autobatched c = false \/ _autobatching (client w) = false ->
  key ∈ call_keys c ->
  is_key_valid key = false ->
  exists msg, call env c w = (inl (ValueError msg), w).
Proof.
  intros Hopen Hd Hin Hbad.
  assert (Hcheck : forall k, key ∈ [k] -> k = key).
  { intros k Hk. apply list_elem_of_singleton in Hk. now symmetry. }
  assert (Hstore : forall command k val flgs exptime noreply token,
             key ∈ [k] ->
             exists msg,
               Client._storage_command env command k val flgs exptime noreply token w
               = (inl (ValueError msg), w)).
  { intros command k val flgs exptime noreply token Hk.
    apply Hcheck in Hk. subst k. unfold Client._storage_command.
    erewrite bind_returns by (apply check_closed_open, Hopen).
    unfold FLAGS_ERROR. apply is_ValueError_raise_if, is_ValueError_raise_if.
    exists "Key has invalid charcters"%string.
    apply bind_raises, check_key_invalid, Hbad. }
  assert (Hcount : forall command k delta noreply,
             key ∈ [k] ->
             exists msg,
               Client._incr_decr_command env command k delta noreply w
               = (inl (ValueError msg), w)).
  { intros command k delta noreply Hk.
    apply Hcheck in Hk. subst k. unfold Client._incr_decr_command.
    erewrite bind_returns by (apply check_closed_open, Hopen).
    unfold DELTA_ERROR. apply is_ValueError_raise_if.
    exists "Key has invalid charcters"%string.
    apply bind_raises, check_key_invalid, Hbad. }
  assert (Hone : forall (A : Type) k (rest : M A),
             key ∈ [k] ->
             (Client.check_closed;; Client.check_key k;; rest) w = (inl KEY_ERROR, w)).
  { intros A k rest Hk. apply Hcheck in Hk. subst k.
    erewrite bind_returns by (apply check_closed_open, Hopen).
    apply bind_raises, check_key_invalid, Hbad. }
  assert (Hmany : forall keys (rest : M (list FetchReply)),
             key ∈ keys ->
             (Client.check_closed;;
              (match keys with
               | [] => mret []
               | _ => for_each keys Client.check_key;; rest
               end : M (list FetchReply))) w = (inl KEY_ERROR, w)).
  { intros keys rest Hk.
    erewrite bind_returns by (apply check_closed_open, Hopen).
    destruct keys as [|k0 keys0]; [inversion Hk|].
    apply bind_raises. now apply for_each_check_key_invalid with key. }
  destruct c; simpl in Hin; try (now inversion Hin); simpl.
  1,2: destruct Hd as [Hd|Hd]; [discriminate Hd|];
       exists "Key has invalid charcters"%string; apply fmap_raises;
       unfold Client.get, Client.gets;
       (erewrite bind_returns by (unfold read; rewrite Hd; reflexivity));
       apply bind_raises; unfold Client._fetch_command; now apply Hone.
  all: try (exists "Key has invalid charcters"%string; apply fmap_raises;
            unfold Client.get_many, Client.gets_many, Client.gat_many, Client.gats_many,
              Client.gat, Client.gats, Client.touch, Client.delete;
            first [ now apply Hone
                  | apply bind_raises;
                    unfold Client._fetch_many_command, Client._get_and_touch_many_command,
                      Client._get_and_touch_command;
                    first [now apply Hone | now apply Hmany] ]).
  all: try (unfold Client.set, Client.add, Client.replace, Client.append,
              Client.prepend, Client.cas;
            match goal with
            | |- context [Client._storage_command _ ?command ?k ?val ?f ?e ?n ?t] =>
                destruct (Hstore command k val f e n t Hin) as [msg Hmsg]
            end;
            exists msg; apply fmap_raises, bind_raises, Hmsg).
  all: unfold Client.increment, Client.decrement;
    match goal with
    | |- context [Client._incr_decr_command _ ?command ?k ?delta ?n] =>
        destruct (Hcount command k delta n Hin) as [msg Hmsg]
    end;
    exists msg; apply fmap_raises, bind_raises, Hmsg.
Qed.

(** C6, in the pipeline: [touch] and [delete] queue their key as it is.
    A key with a space and an empty key, which [get] of the same
    pipeline refuses, are queued and written to the server by
    [execute]. *)
Theorem pipeline_touch_and_delete_skip_the_key_check :
  let env := constant_env ([], [], [], [], "") (Some (NOT_FOUND ++ CRLF)%string) in
  let w := world_with_pipeline [BTouch "a b" 10 false; BDelete "" false] in
  is_key_valid "a b" = false /\
  is_key_valid "" = false /\
  (build 0%nat (BGet "a b") (world_with_pipeline [])).1 = inl KEY_ERROR /\
  pipelines w !! 0%nat =
    Some (mk_Pipeline localhost
            [("touch a b 10" ++ CRLF)%string; ("delete " ++ CRLF)%string]) /\
  trace (Pipeline.execute env 0%nat w).2 =
    [EvNode localhost;
     EvConnection localhost
       (_extract_pipeline_data ("touch a b 10" ++ CRLF ++ "delete " ++ CRLF)%string)].
Proof. vm_compute. repeat split; reflexivity. Qed.

(** ** The fan-out of the multi-key retrievals *)

Lemma world_preserving_constant {A : Type} (m : M A) :
  constant_in_world m -> world_preserving m.
Proof. intros [r H] w. now rewrite H. Qed.

Lemma world_preserving_bind {A B : Type} (m : M A) (f : A -> M B) :
  world_preserving m -> (forall x, world_preserving (f x)) ->
  world_preserving (m ≫= f).
Proof.
  intros Hm Hf w. unfold mbind, M_bind.
  specialize (Hm w). destruct (m w) as [[e|x] w1]; simpl in *; subst w1.
  - reflexivity.
  - apply Hf.
Qed.


Lemma world_preserving_comprehension {A B : Type} (xs : list A) (f : A -> M B) :
  (forall x, world_preserving (f x)) -> world_preserving (comprehension xs f).
Proof.
  intros Hf. induction xs as [|x xs IH]; simpl.
  - now intros w.
  - apply world_preserving_bind; [apply Hf | intros y].
    apply world_preserving_bind; [apply IH | now intros ys w].
Qed.

Lemma constant_index {A : Type} (xs : list A) i : constant_in_world (index xs i).
Proof. unfold index. destruct (xs !! i); constant_tac. Qed.


Lemma world_preserving_task_result i : world_preserving (task_result i).
Proof.
  intros w. unfold task_result. erewrite bind_returns by reflexivity.
  destruct (task_state <$> tasks w !! i) as [[|[e|r]|]|]; reflexivity.
Qed.

(** *** How the states of the tasks evolve *)

Lemma finished_tasks_app a b :
  finished_tasks (a ++ b) = finished_tasks a ++ finished_tasks b.
Proof. apply omap_app. Qed.

Lemma cancelled_tasks_app a b :
  cancelled_tasks (a ++ b) = cancelled_tasks a ++ cancelled_tasks b.
Proof. apply omap_app. Qed.

Lemma ended_with_final_state r :
  ended_with (final_state r) = match r with inl e => Some e | inr _ => None end.
Proof. destruct r as [[]|]; reflexivity. Qed.

Lemma final_state_done r : state_done (final_state r) = true.
Proof. destruct r as [[]|]; reflexivity. Qed.


Lemma state_of_present w i st : state_of w i = Some st -> (i < length (tasks w))%nat.
Proof.
  unfold state_of. intros H. destruct (tasks w !! i) eqn:E; [|discriminate H].
  eapply lookup_lt_Some, E.
Qed.

Lemma loop_ran_refl w : loop_ran w w [].
Proof.
  repeat split; auto.
  - now rewrite app_nil_r.
  - intros j st Hj _. left. split; [exact Hj | apply not_elem_of_nil].
Qed.

Lemma loop_ran_trans w1 w2 w3 a b :
  loop_ran w1 w2 a -> loop_ran w2 w3 b -> loop_ran w1 w3 (a ++ b).
Proof.
  intros (Hl1 & Ht1 & Hc1 & Hd1 & Hp1) (Hl2 & Ht2 & Hc2 & Hd2 & Hp2).
  split; [congruence|]. split; [now rewrite Ht2, Ht1, app_assoc|].
  split; [now rewrite cancelled_tasks_app, Hc1, Hc2|].
  split; [auto|].
  intros j st Hj Hst. rewrite finished_tasks_app.
  destruct (Hp1 j st Hj Hst) as [[Hj2 Hn1] | (st' & Hj2 & Hst' & Hin)].
  - destruct (Hp2 j st Hj2 Hst) as [[Hj3 Hn2] | (st' & Hj3 & Hst' & Hin)].
    + left. split; [exact Hj3|]. now apply not_elem_of_app.
    + right. exists st'. repeat split; auto. apply elem_of_app. now right.
  - right. exists st'. repeat split; auto. apply elem_of_app. now left.
Qed.

(** A pending task ends: its state is replaced and the trace gains the
    end of the task. *)
Lemma task_ends w w' i t st' evs :
  tasks w !! i = Some t ->
  state_done (task_state t) = false ->
  state_done st' = true ->
  tasks w' = <[i := mkTask (task_node t) (task_request t) st']> (tasks w) ->
  trace w' = trace w ++ evs ->
  cancelled_tasks evs = [] ->
  finished_tasks evs = [i] ->
  loop_ran w w' evs /\ state_of w' i = Some st'.
Proof.
  intros Ht Hpend Hdone Htasks Htrace Hc Hf.
  assert (Hself : state_of w' i = Some st').
  { unfold state_of. rewrite Htasks.
    rewrite list_lookup_insert_eq by (eapply lookup_lt_Some, Ht). reflexivity. }
  assert (Hother : forall j, j <> i -> state_of w' j = state_of w j).
  { intros j Hj. unfold state_of. rewrite Htasks. now rewrite list_lookup_insert_ne. }
  split; [|exact Hself].
  split; [rewrite Htasks; apply length_insert|].
  split; [exact Htrace|]. split; [exact Hc|]. split.
  - intros j st Hj Hst. destruct (decide (j = i)) as [-> | Hne].
    + unfold state_of in Hj. rewrite Ht in Hj. injection Hj as <-. congruence.
    + now rewrite Hother.
  - intros j st Hj Hst. rewrite Hf. destruct (decide (j = i)) as [-> | Hne].
    + right. exists st'. repeat split; auto. now apply list_elem_of_singleton.
    + left. split; [now rewrite Hother|].
      intros Hin. apply list_elem_of_singleton in Hin. contradiction.
Qed.

(** One turn of the loop on task [i]. *)
Lemma run_task_step env i w :
  exists failure w' added,
    run_task env i w = (inr failure, w') /\
    loop_ran w w' added /\
    (length (finished_tasks added) <= 1)%nat /\
    (forall j, j ∈ finished_tasks added -> j = i) /\
    (forall e, failure = Some e ->
       exists pre, added = pre ++ [EvTaskDone i] /\ finished_tasks pre = [] /\
                   failed_with w' i e) /\
    (failure = None -> forall j, j ∈ finished_tasks added -> returned w' j) /\
    (failure = None -> state_of w i = Some (Pending false) -> returned w' i).
Proof.
  unfold run_task.
  destruct (tasks w !! i) as [[node req st]|] eqn:Ht.
  2:{ exists None, w, []. split; [reflexivity|]. split; [apply loop_ran_refl|].
      split; [simpl; lia|]. split; [intros j Hj; inversion Hj|].
      split; [discriminate|]. split; [intros _ j Hj; inversion Hj|].
      intros _ Hst. unfold state_of in Hst. rewrite Ht in Hst. discriminate Hst. }
  destruct st as [[|]|r|].
  - (* its cancellation was requested *)
    set (w1 := add_event (EvTaskDone i)
                 (set_tasks (<[i := mkTask node req Cancelled]> (tasks w)) w)).
    exists (Some CancelledError), w1, [EvTaskDone i].
    split; [reflexivity|].
    edestruct (task_ends w w1 i (mkTask node req (Pending true)) Cancelled [EvTaskDone i])
      as [Hran Hself]; try reflexivity; try exact Ht.
    split; [exact Hran|]. split; [simpl; lia|].
    split; [intros j Hj; now apply list_elem_of_singleton in Hj|].
    split.
    + intros e [= <-]. exists []. repeat split.
      unfold failed_with. now rewrite Hself.
    + split; [discriminate|discriminate].
  - (* it runs its request *)
    set (r := fetch_reply env (trace w) node req).
    exists (ended_with (final_state r)),
           (add_event (EvTaskDone i)
              (set_tasks (<[i := mkTask node req (final_state r)]> (tasks w))
                 (add_event (EvConnection node req) w))),
           [EvConnection node req; EvTaskDone i].
    split; [reflexivity|].
    edestruct (task_ends w (add_event (EvTaskDone i)
              (set_tasks (<[i := mkTask node req (final_state r)]> (tasks w))
                 (add_event (EvConnection node req) w)))
                 i (mkTask node req (Pending false)) (final_state r)
                 [EvConnection node req; EvTaskDone i])
      as [Hran Hself]; try reflexivity; try exact Ht.
    { apply final_state_done. }
    { simpl. now rewrite <- app_assoc. }
    split; [exact Hran|]. split; [simpl; lia|].
    split; [intros j Hj; now apply list_elem_of_singleton in Hj|].
    rewrite ended_with_final_state.
    assert (Hreturned : forall reply, r = inr reply ->
              returned (add_event (EvTaskDone i)
                (set_tasks (<[i := mkTask node req (final_state r)]> (tasks w))
                   (add_event (EvConnection node req) w))) i).
    { intros reply Hr. exists reply. rewrite Hself, Hr. reflexivity. }
    split; [| split].
    + intros e He. exists [EvConnection node req]. repeat split.
      unfold failed_with. rewrite Hself. simpl.
      now rewrite ended_with_final_state, He.
    + intros Hnone j Hj. apply list_elem_of_singleton in Hj. subst j.
      destruct r as [e|reply] eqn:Hr; [discriminate Hnone|]. now apply (Hreturned reply).
    + intros Hnone _.
      destruct r as [e|reply] eqn:Hr; [discriminate Hnone|]. now apply (Hreturned reply).
  - exists None, w, []. split; [reflexivity|]. split; [apply loop_ran_refl|].
    split; [simpl; lia|]. split; [intros j Hj; inversion Hj|].
    split; [discriminate|]. split; [intros _ j Hj; inversion Hj|].
    intros _ Hst. unfold state_of in Hst. rewrite Ht in Hst. discriminate Hst.
  - exists None, w, []. split; [reflexivity|]. split; [apply loop_ran_refl|].
    split; [simpl; lia|]. split; [intros j Hj; inversion Hj|].
    split; [discriminate|]. split; [intros _ j Hj; inversion Hj|].
    intros _ Hst. unfold state_of in Hst. rewrite Ht in Hst. discriminate Hst.
Qed.

Lemma returned_done w i : returned w i -> exists st, state_of w i = Some st /\ state_done st = true.
Proof. intros [reply H]. eauto. Qed.



Lemma loop_ran_returned w w' added j : loop_ran w w' added -> returned w j -> returned w' j.
Proof. intros (_ & _ & _ & Hd & _) [reply H]. exists reply. now apply Hd. Qed.


(** [gather] always returns; when it reports an exception, this is the
    exception of the first task that ended with one, and when it reports
    none, every task that ended returned a reply and every pending task
    of its order has ended. *)
Lemma gather_outcome env order : forall w,
  exists failure rest w' added,
    gather env order w = (inr (failure, rest), w') /\
    loop_ran w w' added /\
    match failure with
    | Some e =>
        exists pre first,
          added = pre ++ [EvTaskDone first] /\
          failed_with w' first e /\
          (forall j, j ∈ finished_tasks pre -> returned w' j)
    | None =>
        (forall j, j ∈ finished_tasks added -> returned w' j) /\
        (forall i, i ∈ order -> state_of w i = Some (Pending false) -> returned w' i)
    end.
Proof.
  induction order as [|i order IH]; intros w.
  - exists None, [], w, []. split; [reflexivity|]. split; [apply loop_ran_refl|].
    split; intros j Hj; inversion Hj.
  - destruct (run_task_step env i w)
      as (f & w1 & a1 & Hr & Hran1 & _ & Honly & Hfail & Hok & Hret).
    simpl gather. erewrite bind_returns by exact Hr.
    destruct f as [e|].
    + exists (Some e), order, w1, a1. split; [reflexivity|]. split; [exact Hran1|].
      destruct (Hfail e eq_refl) as (pre & -> & Hpre & Hfw).
      exists pre, i. repeat split; [exact Hfw|].
      intros j Hj. rewrite Hpre in Hj. inversion Hj.
    + destruct (IH w1) as (failure & rest & w' & a2 & Hg & Hran2 & Hcase).
      exists failure, rest, w', (a1 ++ a2). split; [exact Hg|].
      split; [eapply loop_ran_trans; eassumption|].
      destruct failure as [e|].
      * destruct Hcase as (pre & first & -> & Hfw & Hpre).
        exists (a1 ++ pre), first. split; [now rewrite app_assoc|].
        split; [exact Hfw|].
        intros j Hj. rewrite finished_tasks_app in Hj.
        apply elem_of_app in Hj. destruct Hj as [Hj | Hj].
        -- eapply loop_ran_returned; [exact Hran2|]. now apply Hok.
        -- now apply Hpre.
      * destruct Hcase as [Hall Hpend]. split.
        -- intros j Hj. rewrite finished_tasks_app in Hj.
           apply elem_of_app in Hj. destruct Hj as [Hj | Hj].
           ++ eapply loop_ran_returned; [exact Hran2|]. now apply Hok.
           ++ now apply Hall.
        -- intros j Hj Hst. apply elem_of_cons in Hj. destruct Hj as [-> | Hj].
           ++ eapply loop_ran_returned; [exact Hran2|]. now apply Hret.
           ++ destruct Hran1 as (_ & _ & _ & _ & Hp1).
              destruct (Hp1 j _ Hst eq_refl) as [[Hj1 _] | (st' & _ & _ & Hin)].
              ** now apply Hpend.
              ** eapply loop_ran_returned; [exact Hran2|]. now apply Hok.
Qed.

(** The tasks that end while the awaiting coroutine is resumed. *)
Lemma late_outcome env handles : forall w,
  exists w' added,
    for_each handles (fun i => run_task env i;; pass) w = (inr tt, w') /\
    loop_ran w w' added /\
    (length (finished_tasks added) <= length handles)%nat.
Proof.
  induction handles as [|i handles IH]; intros w.
  - exists w, []. split; [reflexivity|]. split; [apply loop_ran_refl | simpl; lia].
  - destruct (run_task_step env i w) as (f & w1 & a1 & Hr & Hran1 & Hcnt & _).
    destruct (IH w1) as (w' & a2 & Hrest & Hran2 & Hcnt2).
    exists w', (a1 ++ a2). split.
    { simpl. erewrite bind_returns
        by (erewrite bind_returns by exact Hr; reflexivity).
      exact Hrest. }
    split; [eapply loop_ran_trans; eassumption|].
    rewrite finished_tasks_app, length_app. simpl. lia.
Qed.

(** What the handler's loop does: it asks for the cancellation of each
    task among the handles that is not done and touches nothing else. *)
Lemma cancel_pending_outcome handles : forall w,
  exists w' added,
    cancel_pending handles w = (inr tt, w') /\
    length (tasks w') = length (tasks w) /\
    trace w' = trace w ++ added /\
    finished_tasks added = [] /\
    (forall j, j ∈ cancelled_tasks added ->
       exists st, state_of w j = Some st /\ state_done st = false) /\
    (forall j st, state_of w j = Some st -> state_done st = true ->
                  state_of w' j = Some st) /\
    (forall j st, state_of w j = Some st -> state_done st = false ->
       (j ∈ handles /\ state_of w' j = Some (Pending true) /\ j ∈ cancelled_tasks added) \/
       ((j ∉ handles) /\ state_of w' j = Some st)).
Proof.
  induction handles as [|i handles IH]; intros w.
  - exists w, []. split; [reflexivity|]. split; [reflexivity|].
    split; [now rewrite app_nil_r|]. split; [reflexivity|].
    split; [intros j Hj; inversion Hj|]. split; [auto|].
    intros j st Hj _. right. split; [apply not_elem_of_nil | exact Hj].
  - assert (Hstep : exists w1 a1,
               (ts ← read tasks;
                match ts !! i with
                | Some t =>
                    if negb (done t)
                    then set_task_state i (Pending true);; emit (EvTaskCancel i)
                    else pass
                | None => pass
                end) w = (inr tt, w1) /\
               length (tasks w1) = length (tasks w) /\
               trace w1 = trace w ++ a1 /\
               finished_tasks a1 = [] /\
               (forall j, j ∈ cancelled_tasks a1 ->
                  exists st, state_of w j = Some st /\ state_done st = false) /\
               (forall j st, state_of w j = Some st -> state_done st = true ->
                             state_of w1 j = Some st) /\
               (forall j st, state_of w j = Some st -> state_done st = false ->
                  (j = i /\ state_of w1 j = Some (Pending true) /\
                   j ∈ cancelled_tasks a1) \/
                  (j <> i /\ state_of w1 j = Some st))).
    { erewrite bind_returns by reflexivity.
      destruct (tasks w !! i) as [t|] eqn:Ht.
      - destruct (done t) eqn:Hdone; simpl.
        + exists w, []. split; [reflexivity|]. split; [reflexivity|].
          split; [now rewrite app_nil_r|]. split; [reflexivity|].
          split; [intros j Hj; inversion Hj|]. split; [auto|].
          intros j st Hj Hst. right. split; [|exact Hj].
          intros ->. unfold state_of in Hj. rewrite Ht in Hj. injection Hj as <-.
          unfold done in Hdone. congruence.
        + exists (add_event (EvTaskCancel i)
                    (set_tasks (<[i := mkTask (task_node t) (task_request t) (Pending true)]>
                                  (tasks w)) w)), [EvTaskCancel i].
          split.
          { unfold set_task_state, update, emit, mbind, M_bind. now rewrite Ht. }
          split; [simpl; apply length_insert|].
          split; [reflexivity|]. split; [reflexivity|].
          split.
          { intros j Hj. apply list_elem_of_singleton in Hj. subst j.
            exists (task_state t). split; [unfold state_of; now rewrite Ht | exact Hdone]. }
          split.
          * intros j st Hj Hst. destruct (decide (j = i)) as [-> | Hne].
            -- unfold state_of in Hj. rewrite Ht in Hj. injection Hj as <-.
               unfold done in Hdone. congruence.
            -- unfold state_of in *. simpl. now rewrite list_lookup_insert_ne.
          * intros j st Hj Hst. destruct (decide (j = i)) as [-> | Hne].
            -- left. split; [reflexivity|]. split.
               ++ unfold state_of. simpl.
                  rewrite list_lookup_insert_eq by (eapply lookup_lt_Some, Ht).
                  reflexivity.
               ++ now apply list_elem_of_singleton.
            -- right. split; [exact Hne|].
               unfold state_of in *. simpl. now rewrite list_lookup_insert_ne.
      - exists w, []. split; [reflexivity|]. split; [reflexivity|].
        split; [now rewrite app_nil_r|]. split; [reflexivity|].
        split; [intros j Hj; inversion Hj|]. split; [auto|].
        intros j st Hj Hst. right. split; [|exact Hj].
        intros ->. unfold state_of in Hj. rewrite Ht in Hj. discriminate Hj. }
    destruct Hstep as (w1 & a1 & Hbody & Hlen1 & Htr1 & Hf1 & Hc1 & Hd1 & Hp1).
    destruct (IH w1) as (w' & a2 & Hrest & Hlen & Htr2 & Hf2 & Hc2 & Hd2 & Hp2).
    assert (Hback : forall j st1, state_of w1 j = Some st1 -> state_done st1 = false ->
                      exists st, state_of w j = Some st /\ state_done st = false).
    { intros j st1 Hj Hst1.
      destruct (state_of w j) as [st|] eqn:E.
      - exists st. split; [reflexivity|].
        destruct (state_done st) eqn:Hdone; [|reflexivity].
        rewrite (Hd1 _ _ E Hdone) in Hj. injection Hj as <-. congruence.
      - apply state_of_present in Hj. rewrite Hlen1 in Hj.
        unfold state_of in E. destruct (tasks w !! j) eqn:E'; [discriminate E|].
        apply lookup_ge_None in E'. lia. }
    exists w', (a1 ++ a2). split.
    { unfold cancel_pending. simpl. erewrite bind_returns by exact Hbody. exact Hrest. }
    split; [congruence|].
    split; [now rewrite Htr2, Htr1, app_assoc|].
    split; [now rewrite finished_tasks_app, Hf1, Hf2|].
    split.
    { intros j Hj. rewrite cancelled_tasks_app in Hj.
      apply elem_of_app in Hj. destruct Hj as [Hj | Hj]; [now apply Hc1|].
      destruct (Hc2 j Hj) as (st1 & Hj1 & Hst1). eapply Hback; eassumption. }
    split; [auto|].
    intros j st Hj Hst. rewrite cancelled_tasks_app.
    destruct (Hp1 j st Hj Hst) as [(-> & Hj1 & Hin1) | (Hne & Hj1)].
    + left. split; [now left|].
      destruct (Hp2 i _ Hj1 eq_refl) as [(_ & Hj2 & _) | (_ & Hj2)];
        (split; [exact Hj2 | apply elem_of_app; now left]).
    + destruct (Hp2 j st Hj1 Hst) as [(Hin & Hj2 & Hin2) | (Hnin & Hj2)].
      * left. split; [now right|]. split; [exact Hj2|]. apply elem_of_app. now right.
      * right. split; [|exact Hj2]. apply not_elem_of_cons. now split.
Qed.


(** The tasks of a call: created pending, after the tasks the loop had. *)
Lemma create_tasks_outcome jobs : forall w,
  comprehension jobs create_task w =
    (inr (seq (length (tasks w)) (length jobs)),
     set_tasks (tasks w ++ map (fun job : Node * Request =>
                                  mkTask job.1 job.2 (Pending false)) jobs) w).
Proof.
  induction jobs as [|job jobs IH]; intros w; simpl.
  - rewrite app_nil_r. now destruct w.
  - erewrite bind_returns by reflexivity.
    erewrite bind_returns by apply IH.
    unfold mret, M_ret, set_tasks. simpl.
    rewrite length_app, Nat.add_1_r, <- app_assoc. reflexivity.
Qed.








(** In that run the second task fails while the two others are pending:
    the call raises the failure, both are asked to cancel and neither
    has run its request. *)
Example fan_out_cancels_the_siblings :
  let env := fixed_env (fun _ => [(localhost, ["a"]); (otherhost, ["b"]); (thirdhost, ["c"])])
               (fun node _ =>
                  if decide (node = otherhost)
                  then inl (ExternalError "ConnectionResetError")
                  else inr (["k"], ["1"], [0], [0], ""))
               (fun _ => inr None) [1%nat; 0%nat; 2%nat] 0 (fun _ => []) in
  let run := retrieve_many env MGetMany ["a"; "b"; "c"] false (new_world false) in
  run.1 = inl (ExternalError "ConnectionResetError") /\
  state_of run.2 0 = Some (Pending true) /\
  state_of run.2 2 = Some (Pending true) /\
  trace run.2 =
    [EvPickNodes ["a"; "b"; "c"];
     EvConnection otherhost (fetch_command "get" ["b"]);
     EvTaskDone 1; EvTaskCancel 0; EvTaskCancel 2].
Proof. vm_compute. repeat split; reflexivity. Qed.

(** When the second task ends in [CancelledError] instead, the call
    raises it and asks no task to cancel: the others stay pending. *)
Example fan_out_lets_a_cancellation_through :
  let env := fixed_env (fun _ => [(localhost, ["a"]); (otherhost, ["b"]); (thirdhost, ["c"])])
               (fun node _ =>
                  if decide (node = otherhost) then inl CancelledError
                  else inr (["k"], ["1"], [0], [0], ""))
               (fun _ => inr None) [1%nat; 0%nat; 2%nat] 0 (fun _ => []) in
  let run := retrieve_many env MGetMany ["a"; "b"; "c"] false (new_world false) in
  run.1 = inl CancelledError /\
  state_of run.2 0 = Some (Pending false) /\
  state_of run.2 1 = Some Cancelled /\
  state_of run.2 2 = Some (Pending false) /\
  trace run.2 =
    [EvPickNodes ["a"; "b"; "c"];
     EvConnection otherhost (fetch_command "get" ["b"]);
     EvTaskDone 1].
Proof. vm_compute. repeat split; reflexivity. Qed.

(** When the deadline fires after the first task has returned, the call
    fails with [TimeoutError] and the task still awaited is asked to
    cancel. *)
Example fan_out_times_out :
  let env := with_deadline
               (fixed_env (fun _ => [(localhost, ["a"]); (otherhost, ["b"])])
                  (fun _ _ => inr (["k"], ["1"], [0], [0], ""))
                  (fun _ => inr None) [0%nat; 1%nat] 0 (fun _ => [])) 1 in
  let run := retrieve_many env MGetMany ["a"; "b"] false (new_world false) in
  run.1 = inl (ExternalError "TimeoutError") /\
  state_of run.2 0 = Some (Done (inr (["k"], ["1"], [0], [0], ""))) /\
  state_of run.2 1 = Some (Pending true) /\
  trace run.2 =
    [EvPickNodes ["a"; "b"];
     EvConnection localhost (fetch_command "get" ["a"]);
     EvTaskDone 0; EvTaskCancel 1].
Proof. vm_compute. repeat split; reflexivity. Qed.

(** * Further properties of the client and the pipeline *)

Local Open Scope Z_scope.

(** ** Construction *)

(** [create_client] returns a client exactly when: [ssl] is off or the
    interpreter has the module; [username] and [password] are both given
    or both missing (an empty string counts as missing); there is at
    least one address; the cluster could be built; and the first
    autodiscovery, when asked for, ended well.  The client it returns is
    open, has the requested [autobatching] and no pipeline. *)
Theorem create_client_succeeds_iff st node_addresses autobatching ssl
    username password autodiscovery w :
  create_client st node_addresses autobatching ssl username password autodiscovery
    = inr w <->
  (ssl = true -> ssl_module_found st = true) /\
  truthy_opt username = truthy_opt password /\
  node_addresses <> [] /\
  new_cluster st node_addresses = inr tt /\
  (autodiscovery = true -> first_autodiscovery_done st = inr tt) /\
  w = mkWorld (mk_Client false autobatching) ∅ [] [].
Proof.
  unfold create_client, _Client__init__. split.
  - destruct ssl, (ssl_module_found st); simpl; try discriminate;
      destruct (truthy_opt username), (truthy_opt password); simpl; try discriminate;
      (destruct node_addresses as [|a l]; [discriminate|]);
      (destruct (new_cluster st (a :: l)) as [e|[]]; [discriminate|]);
      destruct autodiscovery;
      try (destruct (first_autodiscovery_done st) as [e|[]]; [discriminate|]);
      destruct autobatching; intros [= <-]; repeat split; auto; discriminate.
  - intros (Hssl & Hcred & Hn & Hcl & Hauto & ->).
    destruct ssl; [rewrite (Hssl eq_refl)|]; simpl; rewrite Hcred;
      destruct (truthy_opt password); simpl;
      (destruct node_addresses; [contradiction|]); rewrite Hcl;
      (destruct autodiscovery; [rewrite (Hauto eq_refl)|]);
      destruct autobatching; reflexivity.
Qed.

(** One half of the credentials without the other is refused with
    [ValueError], whatever else is passed. *)
Theorem create_client_needs_both_credentials st node_addresses autobatching ssl
    username password autodiscovery :
  truthy_opt username <> truthy_opt password ->
  exists msg,
    create_client st node_addresses autobatching ssl username password autodiscovery
      = inl (ValueError msg).
Proof.
  intros H. unfold create_client.
  destruct (ssl && negb (ssl_module_found st)); [eexists; reflexivity|].
  destruct (truthy_opt username), (truthy_opt password); try contradiction;
    eexists; reflexivity.
Qed.

Lemma create_client_needs_both_credentials_witness :
  exists msg,
    create_client (mkStartup true (fun _ => inr tt) (inr tt)) [localhost] false false
      (Some "user") (Some "") false = inl (ValueError msg).
Proof.
  apply create_client_needs_both_credentials. vm_compute. discriminate.
Defined.

(** ** Closing *)

(** The first [close] of an open client marks it closed and closes the
    cluster; any further [close] does nothing, so the cluster is closed
    once. *)
Theorem close_is_idempotent w :
  Client.close (Client.close w).2 = (inr tt, (Client.close w).2) /\
  (_closed (client w) = false ->
   Client.close w = (inr tt, add_event EvClusterClose (set_closed true w))) /\
  (_closed (client w) = true -> Client.close w = (inr tt, w)).
Proof.
  assert (Hc : forall w0, _closed (client w0) = true -> Client.close w0 = (inr tt, w0)).
  { intros w0 H. unfold Client.close, Client.closed, read, mbind, M_bind.
    now rewrite H. }
  assert (Ho : _closed (client w) = false ->
               Client.close w = (inr tt, add_event EvClusterClose (set_closed true w))).
  { intros H. unfold Client.close, Client.closed, read, mbind, M_bind.
    now rewrite H. }
  split; [| split; [exact Ho | apply Hc]].
  apply Hc, close_closes.
Qed.

Lemma create_client_succeeds_iff_witness :
  create_client (mkStartup false (fun _ => inr tt) (inl (ExternalError "TimeoutError")))
    [localhost] true false (Some "user") (Some "secret") false
  = inr (mkWorld (mk_Client false true) ∅ [] []).
Proof.
  apply create_client_succeeds_iff. repeat split; try reflexivity; discriminate.
Defined.

(** ** Storage commands *)

(** With [noreply] a storage method raises no command error: whatever
    the proxy returns, the method returns unit. *)
Theorem storage_with_noreply_ignores_the_reply env sc w result w' :
  storage_noreply sc = true ->
  storage_proxy env sc w = (inr result, w') ->
  storage_call env sc w = (inr tt, w').
Proof.
  intros Hnr Hproxy.
  destruct sc; simpl in *; subst noreply;
    unfold Client.set, Client.add, Client.replace, Client.append,
      Client.prepend, Client.cas;
    (erewrite bind_returns by exact Hproxy); reflexivity.
Qed.

Lemma storage_with_noreply_ignores_the_reply_witness :
  let env := constant_env ([], [], [], [], "") (Some "ERROR") in
  let sc := SCas "k" "v" 7 0 0 true in
  storage_call env sc (new_world false) = (inr tt, (storage_proxy env sc (new_world false)).2).
Proof.
  intros env sc.
  apply (storage_with_noreply_ignores_the_reply env sc (new_world false) (Some "ERROR")).
  - reflexivity.
  - vm_compute. reflexivity.
Defined.

(** The checks of the storage proxy, on an open client and for a valid
    key: [flags] above 2^16 or a [cas] token above 2^64 raise
    [ValueError] and nothing else happens; otherwise a node is picked for
    the key and the command is written with the arguments as passed. *)
Theorem storage_proxy_validates_then_routes env command key val flgs exptime noreply
    token w :
  _closed (client w) = false ->
  is_key_valid key = true ->
  ((2 ^ 16 < flgs \/ exists c, token = Some c /\ 2 ^ 64 < c) ->
     Client._storage_command env command key val flgs exptime noreply token w
       = (inl FLAGS_ERROR, w)) /\
  (flgs <= 2 ^ 16 -> (forall c, token = Some c -> c <= 2 ^ 64) ->
     Client._storage_command env command key val flgs exptime noreply token w
       = match pick_node env (trace w) key with
         | inl e => (inl e, add_event (EvPickNode key) w)
         | inr node =>
             (line_reply env (trace w ++ [EvPickNode key])%list node
                (storage_command command key val flgs exptime noreply token),
              after_request key node
                (storage_command command key val flgs exptime noreply token) w)
         end).
Proof.
  intros Hopen Hkey.
  rewrite (storage_proxy_checks env command key val flgs exptime noreply token w Hopen Hkey).
  change MAX_ALLOWED_FLAG_VALUE with (2 ^ 16). change MAX_ALLOWED_CAS_VALUE with (2 ^ 64).
  split.
  - intros [Hf | (c & -> & Hc)].
    + rewrite (proj2 (Z.ltb_lt _ _) Hf), orb_true_r. reflexivity.
    + now rewrite (proj2 (Z.ltb_lt _ _) Hc).
  - intros Hf Hc.
    rewrite (proj2 (Z.ltb_ge _ _) Hf), orb_false_r.
    assert (Ht : match token with Some c => (2 ^ 64 <? c) | None => false end = false).
    { destruct token as [c|]; [|reflexivity]. apply Z.ltb_ge. now apply Hc. }
    rewrite Ht. unfold mbind, M_bind. rewrite cluster_pick_node_runs.
    destruct (pick_node env (trace w) key); reflexivity.
Qed.

Lemma storage_proxy_validates_then_routes_witness :
  let env := constant_env ([], [], [], [], "") (Some STORED) in
  Client._storage_command env "set" "k" "v" 70000 0 false None (new_world false)
    = (inl FLAGS_ERROR, new_world false).
Proof.
  intros env.
  apply (proj1 (storage_proxy_validates_then_routes env "set" "k" "v" 70000 0 false None
                  (new_world false) eq_refl eq_refl)).
  left. reflexivity.
Defined.

(** ** Keys *)

Lemma client_rejects_invalid_key_witness :
  let env := constant_env ([], [], [], [], "") None in
  exists msg,
    call env (CGatsMany 30 ["good"; "not good"] true) (new_world false)
      = (inl (ValueError msg), new_world false).
Proof.
  intros env.
  apply (client_rejects_invalid_key env (CGatsMany 30 ["good"; "not good"] true) "not good").
  - reflexivity.
  - left. reflexivity.
  - simpl. apply list_elem_of_In. simpl. auto.
  - vm_compute. reflexivity.
Defined.

(** ** One round trip *)

Lemma routed_line env key req w :
  (node ← cluster_pick_node env key; connection_line env node req) w =
  match pick_node env (trace w) key with
  | inl e => (inl e, add_event (EvPickNode key) w)
  | inr node =>
      (line_reply env (trace w ++ [EvPickNode key]) node req, after_request key node req w)
  end.
Proof.
  unfold mbind, M_bind. rewrite cluster_pick_node_runs.
  destruct (pick_node env (trace w) key); reflexivity.
Qed.

Lemma routed_fetch env key req w :
  (node ← cluster_pick_node env key; connection_fetch env node req) w =
  match pick_node env (trace w) key with
  | inl e => (inl e, add_event (EvPickNode key) w)
  | inr node =>
      (fetch_reply env (trace w ++ [EvPickNode key]) node req, after_request key node req w)
  end.
Proof.
  unfold mbind, M_bind. rewrite cluster_pick_node_runs.
  destruct (pick_node env (trace w) key); reflexivity.
Qed.

Lemma routed_line_then {B : Type} env key req (post : option bytes -> M B) w :
  (node ← cluster_pick_node env key;
   result ← connection_line env node req;
   post result) w =
  match pick_node env (trace w) key with
  | inl e => (inl e, add_event (EvPickNode key) w)
  | inr node =>
      match line_reply env (trace w ++ [EvPickNode key]) node req with
      | inl e => (inl e, after_request key node req w)
      | inr result => post result (after_request key node req w)
      end
  end.
Proof.
  unfold mbind, M_bind. rewrite cluster_pick_node_runs.
  destruct (pick_node env (trace w) key) as [e|node]; [reflexivity|].
  rewrite connection_line_runs. simpl trace.
  destruct (line_reply env (trace w ++ [EvPickNode key]) node req); reflexivity.
Qed.

Lemma node_line_then {B : Type} env addr req (post : option bytes -> M B) w :
  (node ← cluster_get_node env addr;
   result ← connection_line env node req;
   post result) w =
  match cluster_node env (trace w) addr with
  | inl e => (inl e, add_event (EvNode addr) w)
  | inr node =>
      match line_reply env (trace w ++ [EvNode addr]) node req with
      | inl e => (inl e, after_node_request addr node req w)
      | inr result => post result (after_node_request addr node req w)
      end
  end.
Proof.
  unfold mbind, M_bind. rewrite cluster_get_node_runs.
  destruct (cluster_node env (trace w) addr) as [e|node]; [reflexivity|].
  rewrite connection_line_runs. simpl trace.
  destruct (line_reply env (trace w ++ [EvNode addr]) node req); reflexivity.
Qed.

Lemma constant_pass : constant_in_world pass.
Proof. apply constant_ret. Qed.

Lemma constant_int_of_reply result : constant_in_world (Client.int_of_reply result).
Proof.
  unfold Client.int_of_reply.
  destruct result as [r|]; [destruct (py_int r)|]; constant_tac.
Qed.

Lemma constant_single_item key return_flags with_cas reply :
  constant_in_world (Client.single_item key return_flags with_cas reply).
Proof.
  destruct reply as [[[[keys values] flgs] tokens] client_error].
  unfold Client.single_item.
  apply constant_bind; [apply constant_raise_if | intros _].
  destruct (negb (bool_decide (key ∈ keys))); [apply constant_ret|].
  destruct return_flags, with_cas;
    repeat first [ apply constant_index | apply constant_ret | apply constant_fmap
                 | apply constant_bind; [| intros ?] ].
Qed.

(** What follows the reply in a method leaves the world as it is. *)
Ltac post_preserves :=
  intros; apply world_preserving_constant;
  repeat first
    [ apply constant_ret | apply constant_raise | apply constant_raise_if
    | apply constant_pass | apply constant_int_of_reply | apply constant_single_item
    | match goal with
      | |- constant_in_world (if ?c then _ else _) => destruct c
      end
    | apply constant_fmap
    | apply constant_bind; [| intros ?] ].

Lemma through_post {A B C : Type} (proxy : M A) (post : A -> M B) (f : B -> C) w r w' :
  proxy w = (r, w') ->
  (forall x, world_preserving (post x)) ->
  ((f <$> (proxy ≫= post)) w).2 = w' /\
  (forall e, r = inl e -> (f <$> (proxy ≫= post)) w = (inl e, w')).
Proof.
  intros Hp Hpost. split.
  - unfold fmap, M_fmap, mbind, M_bind. rewrite Hp.
    destruct r as [e|x]; [reflexivity|].
    specialize (Hpost x w'). destruct (post x w') as [[e|y] w1]; exact Hpost.
  - intros e ->. apply fmap_raises, bind_raises, Hp.
Qed.

Lemma incr_decr_proxy_routes env command key delta noreply w :
  _closed (client w) = false ->
  (0 <=? delta) && is_key_valid key = true ->
  Client._incr_decr_command env command key delta noreply w =
  match pick_node env (trace w) key with
  | inl e => (inl e, add_event (EvPickNode key) w)
  | inr node =>
      (line_reply env (trace w ++ [EvPickNode key]) node
         (incr_decr_command command key delta noreply),
       after_request key node (incr_decr_command command key delta noreply) w)
  end.
Proof.
  intros Hopen Hv. apply andb_true_iff in Hv. destruct Hv as [Hd Hkey].
  unfold Client._incr_decr_command.
  erewrite bind_returns by (apply check_closed_open, Hopen).
  rewrite Z.ltb_antisym, Hd. erewrite bind_returns by reflexivity.
  erewrite bind_returns by (apply check_key_valid, Hkey).
  apply routed_line.
Qed.

Lemma fetch_proxy_routes env command key w :
  _closed (client w) = false ->
  is_key_valid key = true ->
  Client._fetch_command env command key w =
  match pick_node env (trace w) key with
  | inl e => (inl e, add_event (EvPickNode key) w)
  | inr node =>
      (fetch_reply env (trace w ++ [EvPickNode key]) node (fetch_command command [key]),
       after_request key node (fetch_command command [key]) w)
  end.
Proof.
  intros Hopen Hkey. unfold Client._fetch_command.
  erewrite bind_returns by (apply check_closed_open, Hopen).
  erewrite bind_returns by (apply check_key_valid, Hkey).
  apply routed_fetch.
Qed.

Lemma get_and_touch_proxy_routes env command exptime key w :
  _closed (client w) = false ->
  is_key_valid key = true ->
  Client._get_and_touch_command env command exptime key w =
  match pick_node env (trace w) key with
  | inl e => (inl e, add_event (EvPickNode key) w)
  | inr node =>
      (fetch_reply env (trace w ++ [EvPickNode key]) node
         (get_and_touch_command command exptime [key]),
       after_request key node (get_and_touch_command command exptime [key]) w)
  end.
Proof.
  intros Hopen Hkey. unfold Client._get_and_touch_command.
  erewrite bind_returns by (apply check_closed_open, Hopen).
  erewrite bind_returns by (apply check_key_valid, Hkey).
  apply routed_fetch.
Qed.

Lemma storage_proxy_routes env command key val flgs exptime noreply token w :
  _closed (client w) = false ->
  match token with Some c => c <=? MAX_ALLOWED_CAS_VALUE | None => true end
  && (flgs <=? MAX_ALLOWED_FLAG_VALUE) && is_key_valid key = true ->
  Client._storage_command env command key val flgs exptime noreply token w =
  match pick_node env (trace w) key with
  | inl e => (inl e, add_event (EvPickNode key) w)
  | inr node =>
      (line_reply env (trace w ++ [EvPickNode key]) node
         (storage_command command key val flgs exptime noreply token),
       after_request key node
         (storage_command command key val flgs exptime noreply token) w)
  end.
Proof.
  intros Hopen Hv. apply andb_true_iff in Hv. destruct Hv as [Hv Hkey].
  apply andb_true_iff in Hv. destruct Hv as [Hc Hf].
  rewrite (storage_proxy_checks env command key val flgs exptime noreply token w Hopen Hkey).
  rewrite (Z.ltb_antisym flgs), Hf.
  assert (Ht : match token with
               | Some c => MAX_ALLOWED_CAS_VALUE <? c
               | None => false
               end = false).
  { destruct token as [c|]; [|reflexivity]. now rewrite Z.ltb_antisym, Hc. }
  rewrite Ht. apply routed_line.
Qed.

(** Every keyed method of an open client whose arguments pass its checks
    ([get] and [gets] on their own path) asks the cluster once for the
    node of its key.  When the cluster fails, that exception is the
    outcome and no connection is used.  Otherwise one request is written,
    on that node, with the arguments as passed, nothing else changes, and
    an exception of the connection is the outcome of the method: there
    is no second attempt. *)
Theorem keyed_method_makes_one_round_trip env c key req w :
  call_request c = Some (key, req) ->
  _closed (client w) = false ->
  call_arguments_valid c = true ->
  call_autobatched c = false \/ _autobatching (client w) = false ->
  match pick_node env (trace w) key with
  | inl e => call env c w = (inl e, add_event (EvPickNode key) w)
  | inr node =>
      (call env c w).2 = after_request key node req w /\
      forall e,
        connection_failure env (trace w ++ [EvPickNode key]) node req = Some e ->
        call env c w = (inl e, after_request key node req w)
  end.
Proof.
  intros Hreq Hopen Hvalid Hdirect.
  assert (Hproxy : forall (A B C : Type) (proxy : M A) (post : A -> M B) (f : B -> C)
                          (reply : Node -> exn + A),
             proxy w = match pick_node env (trace w) key with
                       | inl e => (inl e, add_event (EvPickNode key) w)
                       | inr node => (reply node, after_request key node req w)
                       end ->
             (forall x, world_preserving (post x)) ->
             (forall node e,
                connection_failure env (trace w ++ [EvPickNode key]) node req = Some e ->
                reply node = inl e) ->
             match pick_node env (trace w) key with
             | inl e => (f <$> (proxy ≫= post)) w = (inl e, add_event (EvPickNode key) w)
             | inr node =>
                 ((f <$> (proxy ≫= post)) w).2 = after_request key node req w /\
                 forall e,
                   connection_failure env (trace w ++ [EvPickNode key]) node req = Some e ->
                   (f <$> (proxy ≫= post)) w = (inl e, after_request key node req w)
             end).
  { intros A B C proxy post f reply Hp Hpost Hfail.
    destruct (pick_node env (trace w) key) as [e|node].
    - exact (proj2 (through_post proxy post f w _ _ Hp Hpost) e eq_refl).
    - destruct (through_post proxy post f w _ _ Hp Hpost) as [Hw He].
      split; [exact Hw|]. intros e Hc. apply He. now apply Hfail. }
  assert (Hline : forall node e r,
             req = r ->
             match r with
             | fetch_command _ _ | get_and_touch_command _ _ _ => False
             | _ => True
             end ->
             connection_failure env (trace w ++ [EvPickNode key]) node req = Some e ->
             line_reply env (trace w ++ [EvPickNode key]) node r = inl e).
  { intros node e r <- Hk. unfold connection_failure.
    destruct req; try contradiction;
      (destruct (line_reply env _ node _) as [e0|]; [now intros [= ->] | discriminate]). }
  assert (Hfetch : forall node e r,
             req = r ->
             match r with
             | fetch_command _ _ | get_and_touch_command _ _ _ => True
             | _ => False
             end ->
             connection_failure env (trace w ++ [EvPickNode key]) node req = Some e ->
             fetch_reply env (trace w ++ [EvPickNode key]) node r = inl e).
  { intros node e r <- Hk. unfold connection_failure.
    destruct req; try contradiction;
      (destruct (fetch_reply env _ node _) as [e0|]; [now intros [= ->] | discriminate]). }
  destruct c; simpl in Hreq; try discriminate Hreq; injection Hreq as -> <-;
    simpl in Hvalid; simpl.
  1,2: destruct Hdirect as [Hd | Hd]; [discriminate Hd|];
       unfold Client.get, Client.gets;
       match goal with
       | |- context [fmap ?f (mbind ?k (read ?g))] =>
           assert (Hsame : forall w0, (f <$> (read g ≫= k)) w0
                                      = (f <$> k (g w0)) w0) by reflexivity
       end;
       rewrite !Hsame, Hd;
       (eapply Hproxy;
        [ apply fetch_proxy_routes; assumption
        | post_preserves
        | intros node e; now apply Hfetch ]).
  all: try (unfold Client.set, Client.add, Client.replace, Client.append,
              Client.prepend, Client.cas;
            eapply Hproxy;
            [ apply storage_proxy_routes; [assumption | simpl; exact Hvalid]
            | post_preserves
            | intros node e; now apply Hline ]).
  all: try (unfold Client.increment, Client.decrement;
            eapply Hproxy;
            [ apply incr_decr_proxy_routes; assumption
            | post_preserves
            | intros node e; now apply Hline ]).
  all: try (unfold Client.gat, Client.gats;
            eapply Hproxy;
            [ apply get_and_touch_proxy_routes; assumption
            | post_preserves
            | intros node e; now apply Hfetch ]).
  all: unfold Client.touch, Client.delete;
    match goal with
    | |- context [connection_line _ _ ?r] =>
        pose proof (fun node e => Hline node e r eq_refl I) as Hl
    end;
    unfold fmap, M_fmap;
    (erewrite bind_returns by (apply check_closed_open, Hopen));
    (erewrite bind_returns by (apply check_key_valid, Hvalid));
    rewrite routed_line_then;
    destruct (pick_node env (trace w) key) as [e|node]; [reflexivity|];
    (destruct (line_reply env (trace w ++ [EvPickNode key]) node _) as [e|result] eqn:Hr;
     [ split; [reflexivity|]; intros e0 He0;
       first [ injection He0 as <-; reflexivity
             | specialize (Hl node e0 He0); congruence ]
     | split; [| intros e0 He0;
                 first [ discriminate He0
                       | specialize (Hl node e0 He0); congruence ] ] ]);
    destruct noreply; simpl; try reflexivity;
    repeat match goal with
           | |- context [if ?b then _ else _] => destruct b
           end; reflexivity.
Qed.

Lemma keyed_method_makes_one_round_trip_witness :
  let env := fixed_env (fun keys => [(localhost, keys)]) (fun _ _ => inr ([], [], [], [], ""))
               (fun _ => inl (ExternalError "ConnectionResetError")) [] 0 (fun _ => []) in
  let req := storage_command "set" "k" "v" 0 0 false None in
  call env (CSet "k" "v" 0 0 false) (new_world false)
    = (inl (ExternalError "ConnectionResetError"),
       after_request "k" localhost req (new_world false)).
Proof.
  intros env req.
  pose proof (keyed_method_makes_one_round_trip env (CSet "k" "v" 0 0 false) "k" req
                (new_world false) eq_refl eq_refl eq_refl (or_introl eq_refl)) as H.
  simpl in H. apply H. reflexivity.
Defined.

(** ** [touch] and [delete] *)

(** On an open client, for a valid key routed to a node that answers:
    with [noreply] the method returns unit whatever the answer;
    otherwise [NOT_FOUND] raises [NotFoundCommandError], [TOUCHED] (for
    [touch]) or [DELETED] (for [delete]) returns unit, and any other
    answer raises [CommandError]. *)
Theorem keyed_reply_classified env k key noreply w node result :
  _closed (client w) = false ->
  is_key_valid key = true ->
  pick_node env (trace w) key = inr node ->
  line_reply env (trace w ++ [EvPickNode key]) node (keyed_request k key noreply)
    = inr result ->
  let w' := after_request key node (keyed_request k key noreply) w in
  (noreply = true -> keyed_call env k key noreply w = (inr tt, w')) /\
  (noreply = false -> result = Some NOT_FOUND ->
     keyed_call env k key noreply w = (inl NotFoundCommandError, w')) /\
  (noreply = false -> result = Some (keyed_done k) ->
     keyed_call env k key noreply w = (inr tt, w')) /\
  (noreply = false -> result <> Some NOT_FOUND -> result <> Some (keyed_done k) ->
     keyed_call env k key noreply w = (inl (CommandError result), w')).
Proof.
  intros Hopen Hkey Hpick Hline w'.
  assert (Hcall : keyed_call env k key noreply w =
                  (if noreply then pass
                   else if is_token result NOT_FOUND then raise NotFoundCommandError
                   else if negb (is_token result (keyed_done k))
                        then raise (CommandError result)
                        else pass) w').
  { destruct k; simpl in *; unfold Client.touch, Client.delete;
      (erewrite bind_returns by (apply check_closed_open, Hopen));
      (erewrite bind_returns by (apply check_key_valid, Hkey));
      rewrite routed_line_then, Hpick, Hline; reflexivity. }
  rewrite Hcall. repeat split.
  - now intros ->.
  - intros -> ->. reflexivity.
  - intros -> ->. destruct k; reflexivity.
  - intros -> Hnf Hnd. now rewrite !is_token_false.
Qed.

Lemma keyed_reply_classified_witness :
  let env := constant_env ([], [], [], [], "") (Some NOT_FOUND) in
  keyed_call env (KTouch 10) "missing" false (new_world false)
    = (inl NotFoundCommandError,
       after_request "missing" localhost (touch_command "missing" 10 false)
         (new_world false)).
Proof.
  intros env.
  apply (proj1 (proj2 (keyed_reply_classified env (KTouch 10) "missing" false
                         (new_world false) localhost (Some NOT_FOUND)
                         eq_refl eq_refl eq_refl eq_refl)));
    reflexivity.
Defined.

(** ** Commands addressed to a node *)

(** [flush_all], [cache_memlimit] and [verbosity] on an open client look
    up the node of the address they are given, validate nothing, and
    write one command there.  With [noreply] they return unit whatever
    the answer; otherwise [OK] returns unit and any other answer raises
    [CommandError]. *)
Theorem admin_reply_classified env a addr noreply w node result :
  _closed (client w) = false ->
  cluster_node env (trace w) addr = inr node ->
  line_reply env (trace w ++ [EvNode addr]) node (admin_request a noreply) = inr result ->
  let w' := after_node_request addr node (admin_request a noreply) w in
  (noreply = true -> admin_call env a addr noreply w = (inr tt, w')) /\
  (noreply = false -> result = Some OK -> admin_call env a addr noreply w = (inr tt, w')) /\
  (noreply = false -> result <> Some OK ->
     admin_call env a addr noreply w = (inl (CommandError result), w')).
Proof.
  intros Hopen Hnode Hline w'.
  assert (Hcall : admin_call env a addr noreply w =
                  (if noreply then pass
                   else if negb (is_token result OK) then raise (CommandError result)
                   else pass) w').
  { destruct a; simpl in *;
      unfold Client.flush_all, Client.cache_memlimit, Client.verbosity;
      (erewrite bind_returns by (apply check_closed_open, Hopen));
      rewrite node_line_then, Hnode, Hline; reflexivity. }
  rewrite Hcall. repeat split.
  - now intros ->.
  - intros -> ->. reflexivity.
  - intros -> Hn. now rewrite is_token_false.
Qed.

Lemma admin_reply_classified_witness :
  let env := constant_env ([], [], [], [], "") (Some "ERROR") in
  admin_call env (AVerbosity 2) localhost false (new_world false)
    = (inl (CommandError (Some "ERROR")),
       after_node_request localhost localhost (verbosity_command 2 false) (new_world false)).
Proof.
  intros env.
  apply (proj2 (proj2 (admin_reply_classified env (AVerbosity 2) localhost false
                         (new_world false) localhost (Some "ERROR")
                         eq_refl eq_refl eq_refl)));
    [reflexivity | discriminate].
Defined.

(** ** Retrievals: client errors and merged results *)

Lemma truthy_nonempty s : s <> "" -> truthy s = true.
Proof.
  intros H. unfold truthy. destruct (String.eqb s "") eqn:E; [|reflexivity].
  apply String.eqb_eq in E. contradiction.
Qed.

(** A reply that carries a client error makes [get], [gets], [gat] and
    [gats] raise [CommandError] with that error, whether or not the
    reply holds the key. *)
Theorem retrieval_raises_the_client_error env r key return_flags keys values flgs
    tokens client_error w w' :
  autobatched r = false \/ _autobatching (client w) = false ->
  retrieval_proxy env r key w = (inr (keys, values, flgs, tokens, client_error), w') ->
  client_error <> "" ->
  retrieve env r key return_flags w = (inl (CommandError (Some client_error)), w').
Proof.
  intros Hd Hproxy Hce. rewrite (retrieve_direct _ _ _ _ _ Hd).
  erewrite bind_returns by exact Hproxy.
  unfold Client.single_item. apply bind_raises.
  unfold raise_if. now rewrite truthy_nonempty.
Qed.

Lemma retrieval_raises_the_client_error_witness :
  let env := constant_env (["k"], ["v"], [0], [1], "CLIENT_ERROR bad data chunk") None in
  retrieve env (RGat 60) "k" true (new_world false)
    = (inl (CommandError (Some "CLIENT_ERROR bad data chunk")),
       (retrieval_proxy env (RGat 60) "k" (new_world false)).2).
Proof.
  intros env.
  apply (retrieval_raises_the_client_error env (RGat 60) "k" true ["k"] ["v"] [0] [1]
           "CLIENT_ERROR bad data chunk" (new_world false)).
  - left. reflexivity.
  - vm_compute. reflexivity.
  - discriminate.
Defined.

(** The inner loop of a [*_many] method over the positions [idxs] of one
    reply. *)
Lemma store_reply_items return_flags with_cas keys values flgs tokens client_error idxs :
  forall (results : gmap bytes Item) w,
  arrays_cover_keys return_flags with_cas (keys, values, flgs, tokens, client_error) ->
  (forall idx, idx ∈ idxs -> (idx < length keys)%nat) ->
  exists results',
    fold_each idxs results (fun results idx =>
        v ← index values idx;
        f ← (if return_flags then Some <$> index flgs idx else mret None);
        c ← (if with_cas then Some <$> index tokens idx else mret None);
        k ← index keys idx;
        mret (<[k := mkItem v f c]> results)) w = (inr results', w) /\
    (forall k, is_Some (results' !! k) <->
               is_Some (results !! k) \/ exists idx, idx ∈ idxs /\ keys !! idx = Some k) /\
    (forall k item, results' !! k = Some item ->
       results !! k = Some item \/
       exists idx, idx ∈ idxs /\ keys !! idx = Some k /\
         item_at return_flags with_cas (keys, values, flgs, tokens, client_error) idx
           = Some item).
Proof.
  induction idxs as [|idx idxs IH]; intros results w Hcover Hidx.
  - exists results. split; [reflexivity|]. split.
    + intros k. split; [auto|]. intros [H | (idx & Hin & _)]; [exact H | inversion Hin].
    + auto.
  - destruct Hcover as (Hv & Hf & Hc).
    assert (Hlt : (idx < length keys)%nat) by (apply Hidx; left).
    destruct (lookup_lt_is_Some_2 keys idx Hlt) as [k Hk].
    destruct (lookup_lt_is_Some_2 values idx) as [v Hval]; [lia|].
    assert (Hflags : exists f,
               (if return_flags then Some <$> index flgs idx else mret None) w = (inr f, w) /\
               f = (if return_flags then flgs !! idx else None)).
    { destruct return_flags.
      - destruct (lookup_lt_is_Some_2 flgs idx) as [f Hfl]; [specialize (Hf eq_refl); lia|].
        exists (Some f). split; [|now rewrite Hfl].
        apply fmap_returns. unfold index. now rewrite Hfl.
      - exists None. split; reflexivity. }
    assert (Hcas : exists c,
               (if with_cas then Some <$> index tokens idx else mret None) w = (inr c, w) /\
               c = (if with_cas then tokens !! idx else None)).
    { destruct with_cas.
      - destruct (lookup_lt_is_Some_2 tokens idx) as [c Htk]; [specialize (Hc eq_refl); lia|].
        exists (Some c). split; [|now rewrite Htk].
        apply fmap_returns. unfold index. now rewrite Htk.
      - exists None. split; reflexivity. }
    destruct Hflags as (f & Hfrun & Hfeq). destruct Hcas as (c & Hcrun & Hceq).
    destruct (IH (<[k := mkItem v f c]> results) w (conj Hv (conj Hf Hc)))
      as (results' & Hrun & Hdom & Hitems).
    { intros i Hi. apply Hidx. now right. }
    exists results'. split; [| split].
    + simpl. erewrite bind_returns; [exact Hrun|].
      erewrite bind_returns by (unfold index; rewrite Hval; reflexivity).
      erewrite bind_returns by exact Hfrun.
      erewrite bind_returns by exact Hcrun.
      erewrite bind_returns by (unfold index; rewrite Hk; reflexivity).
      reflexivity.
    + intros k'. rewrite Hdom. split.
      * intros [Hs | (i & Hi & Hki)].
        -- destruct (decide (k = k')) as [<- | Hne].
           ++ right. exists idx. split; [left | exact Hk].
           ++ left. now rewrite lookup_insert_ne in Hs.
        -- right. exists i. split; [now right | exact Hki].
      * intros [Hs | (i & Hi & Hki)].
        -- left. destruct (decide (k = k')) as [<- | Hne].
           ++ rewrite lookup_insert_eq. eauto.
           ++ now rewrite lookup_insert_ne.
        -- apply elem_of_cons in Hi. destruct Hi as [-> | Hi].
           ++ left. assert (k' = k) by congruence. subst k'.
              rewrite lookup_insert_eq. eauto.
           ++ right. exists i. auto.
    + intros k' item Hitem. destruct (Hitems k' item Hitem) as [Hs | (i & Hi & Hki & Hit)].
      * destruct (decide (k = k')) as [<- | Hne].
        -- rewrite lookup_insert_eq in Hs. injection Hs as <-.
           right. exists idx. split; [left|]. split; [exact Hk|].
           unfold item_at. rewrite Hval, Hfeq, Hceq. reflexivity.
        -- left. now rewrite lookup_insert_ne in Hs.
      * right. exists i. split; [now right|]. auto.
Qed.

Lemma collect_loop return_flags with_cas nodes_results :
  forall (results : gmap bytes Item) w,
  Forall (arrays_cover_keys return_flags with_cas) nodes_results ->
  Forall (fun reply => reply_client_error reply = "") nodes_results ->
  exists results',
    fold_each nodes_results results (fun results reply =>
      let '(keys, values, flgs, tokens, client_error) := reply in
      raise_if (truthy client_error) (CommandError (Some client_error));;
      fold_each (seq 0 (length keys)) results (fun results idx =>
        v ← index values idx;
        f ← (if return_flags then Some <$> index flgs idx else mret None);
        c ← (if with_cas then Some <$> index tokens idx else mret None);
        k ← index keys idx;
        mret (<[k := mkItem v f c]> results))) w = (inr results', w) /\
    (forall k, is_Some (results' !! k) <->
               is_Some (results !! k) \/
               exists reply, reply ∈ nodes_results /\ k ∈ reply_keys reply) /\
    (forall k item, results' !! k = Some item ->
       results !! k = Some item \/
       exists reply idx, reply ∈ nodes_results /\ reply_keys reply !! idx = Some k /\
         item_at return_flags with_cas reply idx = Some item).
Proof.
  induction nodes_results as [|reply replies IH]; intros results w Hcover Hclean.
  - exists results. split; [reflexivity|]. split.
    + intros k. split; [auto|]. intros [H | (r & Hin & _)]; [exact H | inversion Hin].
    + auto.
  - apply Forall_cons in Hcover. destruct Hcover as [Hcover Hcovers].
    apply Forall_cons in Hclean. destruct Hclean as [Hclean Hcleans].
    destruct reply as [[[[keys values] flgs] tokens] client_error].
    simpl in Hclean. subst client_error.
    destruct (store_reply_items return_flags with_cas keys values flgs tokens ""
                (seq 0 (length keys)) results w Hcover)
      as (results1 & Hrun1 & Hdom1 & Hitems1).
    { intros idx Hin. apply elem_of_seq in Hin. lia. }
    destruct (IH results1 w Hcovers Hcleans) as (results' & Hrun & Hdom & Hitems).
    exists results'. split; [| split].
    + simpl. erewrite bind_returns; [exact Hrun|].
      erewrite bind_returns by reflexivity. exact Hrun1.
    + intros k. rewrite Hdom, Hdom1. split.
      * intros [[Hs | (idx & _ & Hk)] | (r & Hin & Hk)].
        -- now left.
        -- right. exists (keys, values, flgs, tokens, ""). split; [left|].
           simpl. eapply list_elem_of_lookup_2, Hk.
        -- right. exists r. split; [now right | exact Hk].
      * intros [Hs | (r & Hin & Hk)]; [now left; left|].
        apply elem_of_cons in Hin. destruct Hin as [-> | Hin].
        -- left. right. simpl in Hk. apply list_elem_of_lookup_1 in Hk.
           destruct Hk as [idx Hk]. exists idx. split; [|exact Hk].
           apply elem_of_seq. apply lookup_lt_Some in Hk. lia.
        -- right. exists r. auto.
    + intros k item Hitem.
      destruct (Hitems k item Hitem) as [Hs | (r & idx & Hin & Hk & Hit)].
      * destruct (Hitems1 k item Hs) as [Hs0 | (idx & _ & Hk & Hit)]; [now left|].
        right. exists (keys, values, flgs, tokens, ""), idx. split; [left|]. auto.
      * right. exists r, idx. split; [now right|]. auto.
Qed.

(** The map of [get_many], [gets_many], [gat_many] and [gats_many], once
    every node has answered without client error and with arrays as long
    as its keys: it holds exactly the keys the nodes returned, so a
    requested key that no node returned is missing; the item of a key is
    built from one position of a reply that holds the key; its [flags]
    is set exactly when [return_flags] was passed and its [cas] exactly
    for [gets_many] and [gats_many]. *)
Theorem many_result_merges_the_replies env r keys return_flags w nodes_results w' :
  many_proxy env r keys return_flags w = (inr nodes_results, w') ->
  Forall (arrays_cover_keys return_flags (many_returns_cas r)) nodes_results ->
  Forall (fun reply => reply_client_error reply = "") nodes_results ->
  exists results,
    retrieve_many env r keys return_flags w = (inr results, w') /\
    (forall k, is_Some (results !! k) <->
               exists reply, reply ∈ nodes_results /\ k ∈ reply_keys reply) /\
    (forall k item, results !! k = Some item ->
       (exists reply idx, reply ∈ nodes_results /\ reply_keys reply !! idx = Some k /\
          item_at return_flags (many_returns_cas r) reply idx = Some item) /\
       (is_Some (flags item) <-> return_flags = true) /\
       (is_Some (cas item) <-> many_returns_cas r = true)).
Proof.
  intros Hproxy Hcover Hclean.
  destruct (collect_loop return_flags (many_returns_cas r) nodes_results ∅ w' Hcover Hclean)
    as (results & Hrun & Hdom & Hitems).
  exists results. split; [| split].
  - destruct r; simpl in *;
      unfold Client.get_many, Client.gets_many, Client.gat_many, Client.gats_many;
      (erewrite bind_returns by exact Hproxy); exact Hrun.
  - intros k. rewrite Hdom. split; [|auto].
    intros [[x Hx] | H]; [rewrite lookup_empty in Hx; discriminate Hx | exact H].
  - intros k item Hitem.
    destruct (Hitems k item Hitem) as [Hs | (reply & idx & Hin & Hk & Hit)];
      [rewrite lookup_empty in Hs; discriminate Hs|].
    split; [eauto|].
    destruct reply as [[[[ks values] flgs] tokens] client_error].
    pose proof (proj1 (Forall_forall _ _) Hcover _ Hin) as (Hv & Hf & Hc).
    simpl in Hk. pose proof (lookup_lt_Some _ _ _ Hk) as Hlt.
    unfold item_at in Hit. destruct (values !! idx) as [v|]; [|discriminate Hit].
    injection Hit as <-. simpl. split.
    + destruct return_flags; [|split; [intros [x Hx]; discriminate Hx | discriminate]].
      split; [reflexivity|]. intros _. apply lookup_lt_is_Some_2.
      specialize (Hf eq_refl). lia.
    + destruct (many_returns_cas r);
        [|split; [intros [x Hx]; discriminate Hx | discriminate]].
      split; [reflexivity|]. intros _. apply lookup_lt_is_Some_2.
      specialize (Hc eq_refl). lia.
Qed.

Lemma many_result_merges_the_replies_witness :
  let env := fixed_env (fun _ => [(localhost, ["a"; "c"]); (otherhost, ["b"])])
               (fun node _ =>
                  if decide (node = localhost) then inr (["a"], ["1"], [7], [9], "")
                  else inr (["b"], ["2"], [8], [10], ""))
               (fun _ => inr None) [1%nat; 0%nat] 0 (fun _ => []) in
  let run := many_proxy env MGetsMany ["a"; "b"; "c"] false (new_world false) in
  exists results,
    retrieve_many env MGetsMany ["a"; "b"; "c"] false (new_world false)
      = (inr results, run.2) /\
    (forall k, is_Some (results !! k) <->
               exists reply,
                 reply ∈ [(["a"], ["1"], [7], [9], ""); (["b"], ["2"], [8], [10], "")] /\
                 k ∈ reply_keys reply) /\
    (forall k item, results !! k = Some item ->
       (exists reply idx,
          reply ∈ [(["a"], ["1"], [7], [9], ""); (["b"], ["2"], [8], [10], "")] /\
          reply_keys reply !! idx = Some k /\
          item_at false true reply idx = Some item) /\
       (is_Some (flags item) <-> false = true) /\
       (is_Some (cas item) <-> true = true)).
Proof.
  intros env run.
  apply (many_result_merges_the_replies env MGetsMany ["a"; "b"; "c"] false
           (new_world false)
           [(["a"], ["1"], [7], [9], ""); (["b"], ["2"], [8], [10], "")] run.2).
  - vm_compute. reflexivity.
  - repeat constructor; simpl; intros; try discriminate; lia.
  - repeat constructor.
Defined.

Lemma fold_each_app {A S : Type} (xs ys : list A) (body : S -> A -> M S) :
  forall acc w acc' w',
    fold_each xs acc body w = (inr acc', w') ->
    fold_each (xs ++ ys) acc body w = fold_each ys acc' body w'.
Proof.
  induction xs as [|x xs IH]; intros acc w acc' w' H; simpl in *.
  - now injection H as <- <-.
  - unfold mbind, M_bind in *.
    destruct (body acc x w) as [[e|acc1] w1]; [discriminate H|].
    now apply IH.
Qed.

(** When a node's reply carries a client error and the replies before it
    are clean, a [*_many] method raises [CommandError] with that error
    and returns no map, whatever the other nodes returned. *)
Theorem many_raises_the_client_error env r keys return_flags w before reply after w' :
  many_proxy env r keys return_flags w = (inr (before ++ reply :: after), w') ->
  Forall (arrays_cover_keys return_flags (many_returns_cas r)) before ->
  Forall (fun reply => reply_client_error reply = "") before ->
  reply_client_error reply <> "" ->
  retrieve_many env r keys return_flags w
    = (inl (CommandError (Some (reply_client_error reply))), w').
Proof.
  intros Hproxy Hcover Hclean Hce.
  destruct (collect_loop return_flags (many_returns_cas r) before ∅ w' Hcover Hclean)
    as (results & Hrun & _).
  assert (Hcollect : Client.collect_items return_flags (many_returns_cas r)
                       (before ++ reply :: after) w'
                     = (inl (CommandError (Some (reply_client_error reply))), w')).
  { unfold Client.collect_items. erewrite fold_each_app by exact Hrun.
    destruct reply as [[[[ks values] flgs] tokens] client_error]. simpl in *.
    apply bind_raises, bind_raises. unfold raise_if. now rewrite truthy_nonempty. }
  destruct r; simpl in *;
    unfold Client.get_many, Client.gets_many, Client.gat_many, Client.gats_many;
    (erewrite bind_returns by exact Hproxy); exact Hcollect.
Qed.

Lemma many_raises_the_client_error_witness :
  let env := fixed_env (fun _ => [(localhost, ["a"]); (otherhost, ["b"])])
               (fun node _ =>
                  if decide (node = localhost) then inr (["a"], ["1"], [7], [9], "")
                  else inr ([], [], [], [], "CLIENT_ERROR line too long"))
               (fun _ => inr None) [] 0 (fun _ => []) in
  retrieve_many env MGetMany ["a"; "b"] true (new_world false)
    = (inl (CommandError (Some "CLIENT_ERROR line too long")),
       (many_proxy env MGetMany ["a"; "b"] true (new_world false)).2).
Proof.
  intros env.
  apply (many_raises_the_client_error env MGetMany ["a"; "b"] true (new_world false)
           [(["a"], ["1"], [7], [9], "")] ([], [], [], [], "CLIENT_ERROR line too long") []).
  - vm_compute. reflexivity.
  - repeat constructor; simpl; intros; lia.
  - repeat constructor.
  - discriminate.
Defined.

(** ** Pipelines as objects *)

(** [client.pipeline(address)] never fails and checks nothing, not even
    whether the client is closed: it returns a reference that was not in
    use, to a pipeline for that address with an empty stack, and leaves
    every other pipeline, the client, the tasks and the trace as they
    were. *)
Theorem pipeline_is_a_fresh_object addr w :
  exists p,
    Client.pipeline addr w = (inr p, put_pipeline p (mk_Pipeline addr []) w) /\
    pipelines w !! p = None /\
    forall q, q <> p ->
      pipelines (put_pipeline p (mk_Pipeline addr []) w) !! q = pipelines w !! q.
Proof.
  exists (fresh (dom (pipelines w))). repeat split.
  - apply not_elem_of_dom, is_fresh.
  - intros q Hq. unfold put_pipeline. simpl. now rewrite lookup_insert_ne.
Qed.

(** A builder touches nothing but the stack of its own pipeline: the
    client (closed or not), the trace, the tasks, the address of the
    pipeline and every other pipeline stay as they are; and a builder
    that raises leaves its own stack as it is too. *)
Theorem builder_changes_only_its_stack p b w obj :
  pipelines w !! p = Some obj ->
  client (build p b w).2 = client w /\
  trace (build p b w).2 = trace w /\
  tasks (build p b w).2 = tasks w /\
  (forall q, q <> p -> pipelines (build p b w).2 !! q = pipelines w !! q) /\
  (memcached_host_address <$> pipelines (build p b w).2 !! p
     = Some (memcached_host_address obj)) /\
  (forall e, (build p b w).1 = inl e -> (build p b w).2 = w).
Proof.
  intros Hp.
  destruct (build_outcome p b w obj Hp) as [[e He] | [c Hc]].
  - rewrite He. simpl. repeat split; auto. now rewrite Hp.
  - rewrite Hc. simpl. repeat split.
    + intros q Hq. now rewrite lookup_insert_ne.
    + now rewrite lookup_insert_eq.
    + discriminate.
Qed.

Lemma builder_changes_only_its_stack_witness :
  let w := set_closed true (world_with_pipeline [BVersion]) in
  let b := BSet "k" "v" 0 0 false in
  client (build 0%nat b w).2 = client w /\
  trace (build 0%nat b w).2 = trace w /\
  tasks (build 0%nat b w).2 = tasks w /\
  (forall q, q <> 0%nat -> pipelines (build 0%nat b w).2 !! q = pipelines w !! q) /\
  (memcached_host_address <$> pipelines (build 0%nat b w).2 !! 0%nat = Some localhost) /\
  (forall e, (build 0%nat b w).1 = inl e -> (build 0%nat b w).2 = w).
Proof.
  intros w b.
  apply (builder_changes_only_its_stack 0%nat b w
           (mk_Pipeline localhost [("version" ++ CRLF)%string])).
  vm_compute. reflexivity.
Defined.

(** A builder that validates keys refuses an invalid one with
    [ValueError] and queues nothing; only [touch] and [delete], among
    the builders that take a key, validate none. *)
Theorem checked_builder_rejects_invalid_key p b key w :
  key ∈ builder_checked_keys b ->
  is_key_valid key = false ->
  exists msg, build p b w = (inl (ValueError msg), w).
Proof.
  intros Hin Hbad.
  assert (Hcheck : forall k, key ∈ [k] -> Pipeline.check_key k w = (inl KEY_ERROR, w)).
  { intros k Hk. apply list_elem_of_singleton in Hk. subst k.
    unfold Pipeline.check_key. now rewrite Hbad. }
  assert (Hkeys : forall keys, key ∈ keys ->
                    for_each keys Pipeline.check_key w = (inl KEY_ERROR, w)).
  { intros keys Hk. induction keys as [|k keys IH]; [inversion Hk|]. simpl.
    destruct (is_key_valid k) eqn:Ek.
    - erewrite bind_returns by (unfold Pipeline.check_key; rewrite Ek; reflexivity).
      apply IH. apply elem_of_cons in Hk. destruct Hk as [-> | Hk]; [congruence | exact Hk].
    - apply bind_raises. unfold Pipeline.check_key. now rewrite Ek. }
  assert (Hstore : forall command k val flgs exptime noreply token,
             key ∈ [k] ->
             exists msg,
               Pipeline._storage_command command k val flgs exptime noreply token w
               = (inl (ValueError msg), w)).
  { intros command k val flgs exptime noreply token Hk.
    unfold Pipeline._storage_command, FLAGS_ERROR.
    apply is_ValueError_raise_if, is_ValueError_raise_if.
    exists "Key has invalid charcters"%string. apply bind_raises, Hcheck, Hk. }
  assert (Hcount : forall command k delta noreply,
             key ∈ [k] ->
             exists msg,
               Pipeline._incr_decr_command command k delta noreply w
               = (inl (ValueError msg), w)).
  { intros command k delta noreply Hk.
    unfold Pipeline._incr_decr_command, DELTA_ERROR.
    apply is_ValueError_raise_if.
    exists "Key has invalid charcters"%string. apply bind_raises, Hcheck, Hk. }
  destruct b; simpl in Hin; try (now inversion Hin); simpl;
    unfold Pipeline.get, Pipeline.gets, Pipeline.get_many, Pipeline.gets_many,
      Pipeline.set, Pipeline.add, Pipeline.replace, Pipeline.append, Pipeline.prepend,
      Pipeline.cas, Pipeline.increment, Pipeline.decrement, Pipeline.gat, Pipeline.gats,
      Pipeline.gat_many, Pipeline.gats_many.
  all: try (match goal with
            | |- context [Pipeline._storage_command ?command ?k ?val ?f ?e ?n ?t] =>
                destruct (Hstore command k val f e n t Hin) as [msg Hmsg]
            | |- context [Pipeline._incr_decr_command ?command ?k ?d ?n] =>
                destruct (Hcount command k d n Hin) as [msg Hmsg]
            end;
            exists msg; apply bind_raises, Hmsg).
  all: exists "Key has invalid charcters"%string; apply bind_raises;
    unfold Pipeline._retrieval_command, Pipeline._get_and_touch_command;
    apply bind_raises, Hkeys, Hin.
Qed.

Lemma checked_builder_rejects_invalid_key_witness :
  exists msg,
    build 0%nat (BGatMany 10 ["a"; ""]) (world_with_pipeline [])
      = (inl (ValueError msg), world_with_pipeline []).
Proof.
  apply (checked_builder_rejects_invalid_key 0%nat (BGatMany 10 ["a"; ""]) "").
  - simpl. apply list_elem_of_In. simpl. auto.
  - reflexivity.
Defined.

(** An [execute] that raises, for whatever reason (closed client,
    unknown node, failing connection, undecodable reply, a group that
    is not an integer), leaves every pipeline as it was: the commands
    stay queued. *)
Theorem failed_execute_keeps_the_stack env p w e w' :
  Pipeline.execute env p w = (inl e, w') ->
  pipelines w' = pipelines w /\ client w' = client w.
Proof.
  unfold Pipeline.execute.
  erewrite bind_returns by reflexivity.
  destruct (_closed (client w)) eqn:Hopen.
  { erewrite bind_raises by reflexivity. now intros [= _ <-]. }
  erewrite bind_returns by reflexivity.
  destruct (pipelines w !! p) as [obj|] eqn:Hp.
  2:{ erewrite bind_raises
        by (unfold Pipeline.self; erewrite bind_returns by reflexivity;
            rewrite Hp; reflexivity).
      now intros [= _ <-]. }
  erewrite bind_returns by (apply self_returns, Hp).
  destruct (cluster_node env (trace w) (memcached_host_address obj)) as [e0|node] eqn:Hn.
  { erewrite bind_raises by (rewrite cluster_get_node_runs, Hn; reflexivity).
    now intros [= _ <-]. }
  erewrite bind_returns by (rewrite cluster_get_node_runs, Hn; reflexivity).
  destruct (line_reply env (trace w ++ [EvNode (memcached_host_address obj)]) node
              (_extract_pipeline_data (join "" (stack obj)))) as [e0|[data|]] eqn:Hl.
  { erewrite bind_raises by (rewrite connection_line_runs; simpl trace; rewrite Hl;
                             reflexivity).
    now intros [= _ <-]. }
  2:{ erewrite bind_returns by (rewrite connection_line_runs; simpl trace; rewrite Hl;
                                reflexivity).
      erewrite bind_raises by reflexivity. now intros [= _ <-]. }
  erewrite bind_returns by (rewrite connection_line_runs; simpl trace; rewrite Hl;
                            reflexivity).
  destruct (decode env data) as [e0|text] eqn:Hd.
  { erewrite bind_raises by (unfold lift; rewrite Hd; reflexivity). now intros [= _ <-]. }
  erewrite bind_returns by (unfold lift; rewrite Hd; reflexivity).
  match goal with
  | |- context [fold_each ?ms ?acc ?body] =>
      pose proof (response_loop_world env ms acc
                  (add_event (EvConnection node (_extract_pipeline_data (join "" (stack obj))))
                     (add_event (EvNode (memcached_host_address obj)) w))) as Hw;
      destruct (fold_each ms acc body
                  (add_event (EvConnection node (_extract_pipeline_data (join "" (stack obj))))
                     (add_event (EvNode (memcached_host_address obj)) w)))
        as [[e0|rs] w1] eqn:Hloop
  end; simpl in Hw; subst w1.
  { erewrite bind_raises by exact Hloop. now intros [= _ <-]. }
  erewrite bind_returns by exact Hloop.
  erewrite bind_returns
    by (apply set_stack_returns; unfold add_event; simpl; exact Hp).
  discriminate.
Qed.

Lemma failed_execute_keeps_the_stack_witness :
  let env := fixed_env (fun keys => [(localhost, keys)]) (fun _ _ => inr ([], [], [], [], ""))
               (fun _ => inl (ExternalError "TimeoutError")) [] 0 (fun _ => []) in
  let w := world_with_pipeline [BGet "k"; BVersion] in
  pipelines (Pipeline.execute env 0%nat w).2 = pipelines w /\
  client (Pipeline.execute env 0%nat w).2 = client w.
Proof.
  intros env w.
  apply (failed_execute_keeps_the_stack env 0%nat w (ExternalError "TimeoutError")).
  vm_compute. reflexivity.
Defined.

(** ** The checks of the client are those of the pipeline *)

(** After its closed check, the storage proxy of the client raises
    exactly when the pipeline's storage builder raises for the same
    arguments, with the same exception, and then nothing else happens;
    when the builder accepts the arguments, the proxy picks the node of
    the key and hands its connection a storage request with these
    arguments.  The counter proxy stands to the counter builder in the
    same way.  The text the builder queues plays no part: what a
    connection writes for a request is the protocol's, which is not
    among the sources. *)
Theorem client_checks_are_the_builders_checks env command key val flgs exptime noreply
    token counter delta w :
  _closed (client w) = false ->
  Client._storage_command env command key val flgs exptime noreply token w =
    match (Pipeline._storage_command command key val flgs exptime noreply token w).1 with
    | inl e => (inl e, w)
    | inr _ =>
        (node ← cluster_pick_node env key;
         connection_line env node
           (storage_command command key val flgs exptime noreply token)) w
    end /\
  Client._incr_decr_command env counter key delta noreply w =
    match (Pipeline._incr_decr_command counter key delta noreply w).1 with
    | inl e => (inl e, w)
    | inr _ =>
        (node ← cluster_pick_node env key;
         connection_line env node (incr_decr_command counter key delta noreply)) w
    end.
Proof.
  intros Hopen. split.
  - unfold Client._storage_command, Pipeline._storage_command.
    erewrite bind_returns by (apply check_closed_open, Hopen).
    unfold Client.check_key, Pipeline.check_key, raise_if, mbind, M_bind.
    destruct (match token with
              | Some c => c >? MAX_ALLOWED_CAS_VALUE
              | None => false
              end); [reflexivity|].
    destruct (flgs >? MAX_ALLOWED_FLAG_VALUE); [reflexivity|].
    destruct (is_key_valid key); reflexivity.
  - unfold Client._incr_decr_command, Pipeline._incr_decr_command.
    erewrite bind_returns by (apply check_closed_open, Hopen).
    unfold Client.check_key, Pipeline.check_key, raise_if, mbind, M_bind.
    destruct (delta <? 0); [reflexivity|].
    destruct (is_key_valid key); reflexivity.
Qed.

Lemma client_checks_are_the_builders_checks_witness :
  let env := constant_env ([], [], [], [], "") (Some STORED) in
  Client._storage_command env "add" "a key" "v" 0 0 false None (new_world false)
    = (inl KEY_ERROR, new_world false) /\
  Client._incr_decr_command env "incr" "a key" (-3) false (new_world false)
    = (inl DELTA_ERROR, new_world false).
Proof.
  intros env.
  apply (client_checks_are_the_builders_checks env "add" "a key" "v" 0 0 false None
           "incr" (-3) (new_world false)).
  reflexivity.
Defined.

(** ** The fan-out when every node answers *)

Lemma ran_requests_refl env w : ran_requests env w w.
Proof. repeat split; auto. Qed.

Lemma ran_requests_trans env w1 w2 w3 :
  ran_requests env w1 w2 -> ran_requests env w2 w3 -> ran_requests env w1 w3.
Proof.
  intros (He1 & Hd1 & Hp1) (He2 & Hd2 & Hp2). repeat split; auto.
  intros j node req Hj.
  destruct (Hp1 j node req Hj) as [Hj2 | (tr & Hj2 & Hev)].
  - now apply Hp2.
  - right. exists tr. split; [|now apply He2].
    apply Hd2; [exact Hj2|]. apply final_state_done.
Qed.

(** One turn of the loop leaves every other task as it is and records
    the request it made. *)
Lemma run_task_requests env i w : ran_requests env w (run_task env i w).2.
Proof.
  unfold run_task.
  destruct (tasks w !! i) as [[node req [[|]|r|]]|] eqn:Ht;
    try apply ran_requests_refl; unfold ran_requests; simpl.
  - (* cancellation delivered *)
    repeat split.
    + intros ev Hev. apply elem_of_app. now left.
    + intros j t Hj Hdone. destruct (decide (j = i)) as [-> | Hne].
      * rewrite Ht in Hj. injection Hj as <-. discriminate Hdone.
      * now rewrite list_lookup_insert_ne.
    + intros j nd rq Hj. destruct (decide (j = i)) as [-> | Hne].
      * rewrite Ht in Hj. discriminate Hj.
      * left. now rewrite list_lookup_insert_ne.
  - (* the request is made *)
    repeat split.
    + intros ev Hev. apply elem_of_app. left. apply elem_of_app. now left.
    + intros j t Hj Hdone. destruct (decide (j = i)) as [-> | Hne].
      * rewrite Ht in Hj. injection Hj as <-. discriminate Hdone.
      * now rewrite list_lookup_insert_ne.
    + intros j nd rq Hj. destruct (decide (j = i)) as [-> | Hne].
      * rewrite Ht in Hj. injection Hj as <- <-. right. exists (trace w). split.
        -- apply list_lookup_insert_eq. eapply lookup_lt_Some, Ht.
        -- apply elem_of_app. left. apply elem_of_app. right.
           now apply list_elem_of_singleton.
      * left. now rewrite list_lookup_insert_ne.
Qed.

Lemma gather_requests env order : forall w, ran_requests env w (gather env order w).2.
Proof.
  induction order as [|i order IH]; intros w; [apply ran_requests_refl|].
  simpl. unfold mbind, M_bind.
  pose proof (run_task_requests env i w) as Hstep.
  destruct (run_task_step env i w) as (f & w1 & a1 & Hr & _).
  rewrite Hr in Hstep |- *. simpl in Hstep.
  destruct f as [e|]; [exact Hstep|].
  eapply ran_requests_trans; [exact Hstep | apply IH].
Qed.

Lemma final_state_returned r reply : final_state r = Done (inr reply) -> r = inr reply.
Proof. destruct r as [[]|]; simpl; congruence. Qed.

Lemma task_results_are_the_states handles : forall w replies w',
  comprehension handles task_result w = (inr replies, w') ->
  Forall2 (fun h reply => state_of w h = Some (Done (inr reply))) handles replies.
Proof.
  induction handles as [|h handles IH]; intros w replies w'; simpl.
  - intros [= <- <-]. constructor.
  - unfold mbind at 1, M_bind.
    pose proof (world_preserving_task_result h w) as Hw.
    destruct (task_result h w) as [[e|reply] w1] eqn:Hh; [discriminate|].
    simpl in Hw. subst w1.
    unfold mbind, M_bind.
    destruct (comprehension handles task_result w) as [[e|rs] w1] eqn:Hrest;
      [discriminate|].
    intros [= <- <-]. constructor; [| eapply IH; exact Hrest].
    unfold task_result in Hh. erewrite bind_returns in Hh by reflexivity.
    unfold state_of.
    destruct (task_state <$> tasks w !! h) as [[b|[e|r]|]|]; try discriminate Hh.
    now injection Hh as ->.
Qed.

Lemma fan_out_success env jobs w replies w' :
  fan_out env jobs w = (inr replies, w') ->
  length replies = length jobs /\
  forall i node req reply,
    jobs !! i = Some (node, req) -> replies !! i = Some reply ->
    tasks w' !! (length (tasks w) + i)%nat = Some (mkTask node req (Done (inr reply))) /\
    (exists tr, fetch_reply env tr node req = inr reply) /\
    EvConnection node req ∈ trace w'.
Proof.
  unfold fan_out.
  erewrite bind_returns by apply create_tasks_outcome.
  set (w1 := set_tasks _ w).
  erewrite bind_returns by reflexivity.
  set (handles := seq (length (tasks w)) (length jobs)).
  match goal with |- context [gather env ?a] => set (awaited := a) end.
  pose proof (gather_requests env awaited w1) as Hreq.
  destruct (gather_outcome env awaited w1) as (failure & rest & w2 & a2 & Hg & _ & _).
  rewrite Hg in Hreq. simpl in Hreq.
  erewrite bind_returns by exact Hg.
  destruct failure as [e|].
  { erewrite bind_returns by reflexivity.
    destruct (late_outcome env (take (late_completions env (trace w2)) rest) w2)
      as (w3 & a3 & Hlate & _).
    erewrite bind_returns by exact Hlate.
    destruct (cancel_pending_outcome handles w3) as (w4 & a4 & Hcancel & _).
    destruct (is_Exception e).
    - erewrite bind_returns by exact Hcancel. discriminate.
    - erewrite bind_returns by reflexivity. discriminate. }
  erewrite bind_returns by reflexivity.
  match goal with |- context [if ?b then _ else _] => destruct b end.
  2:{ destruct (cancel_pending_outcome handles w2) as (w4 & a4 & Hcancel & _).
      erewrite bind_returns by exact Hcancel. discriminate. }
  intros Hres.
  assert (Hw' : w' = w2).
  { pose proof (world_preserving_comprehension handles task_result
                  world_preserving_task_result w2) as Hp.
    rewrite Hres in Hp. exact Hp. }
  subst w'.
  pose proof (task_results_are_the_states _ _ _ _ Hres) as Hstates.
  destruct Hreq as (_ & _ & Hran).
  split.
  - apply Forall2_length in Hstates. rewrite <- Hstates. unfold handles.
    apply length_seq.
  - intros i node req reply Hjob Hreply.
    assert (Hlt : (i < length jobs)%nat) by (eapply lookup_lt_Some, Hjob).
    assert (Hh : handles !! i = Some (length (tasks w) + i)%nat).
    { unfold handles. now apply lookup_seq_lt. }
    pose proof (Forall2_lookup_lr _ _ _ _ _ _ Hstates Hh Hreply) as Hst.
    destruct (Hran (length (tasks w) + i)%nat node req) as [Ht | (tr & Ht & Hev)].
    + unfold w1. simpl. rewrite lookup_app_r by lia.
      replace (length (tasks w) + i - length (tasks w))%nat with i by lia.
      rewrite list_lookup_fmap, Hjob. reflexivity.
    + unfold state_of in Hst. rewrite Ht in Hst. discriminate Hst.
    + unfold state_of in Hst. rewrite Ht in Hst. simpl in Hst.
      injection Hst as Hfinal.
      pose proof (final_state_returned _ _ Hfinal) as Hf.
      rewrite Hfinal in Ht. repeat split; [exact Ht | eauto | exact Hev].
Qed.

(** When a multi-key retrieval gets its replies, the cluster has grouped
    the keys by node and there is one reply per group, in the order of
    the groups: the reply of the request that carried that group's keys,
    and only those, to that group's node.  Every task of the call has
    finished. *)
Theorem many_proxy_returns_a_reply_per_node env r keys return_flags w replies w' :
  keys <> [] ->
  many_proxy env r keys return_flags w = (inr replies, w') ->
  exists groups,
    pick_nodes env (trace w) keys = inr groups /\
    length replies = length groups /\
    forall i node ks reply,
      groups !! i = Some (node, ks) -> replies !! i = Some reply ->
      tasks w' !! (length (tasks w) + i)%nat
        = Some (mkTask node (many_request r ks) (Done (inr reply))) /\
      (exists tr, fetch_reply env tr node (many_request r ks) = inr reply) /\
      EvConnection node (many_request r ks) ∈ trace w'.
Proof.
  intros Hkeys Hrun.
  assert (Hshape : forall request : list bytes -> Request,
    (Client.check_closed;;
     (match keys with
      | [] => mret []
      | _ =>
          for_each keys Client.check_key;;
          groups ← cluster_pick_nodes env keys;
          fan_out env (map (fun g : Node * list bytes => (g.1, request g.2)) groups)
      end : M (list FetchReply))) w = (inr replies, w') ->
    exists groups,
      pick_nodes env (trace w) keys = inr groups /\
      length replies = length groups /\
      forall i node ks reply,
        groups !! i = Some (node, ks) -> replies !! i = Some reply ->
        tasks w' !! (length (tasks w) + i)%nat
          = Some (mkTask node (request ks) (Done (inr reply))) /\
        (exists tr, fetch_reply env tr node (request ks) = inr reply) /\
        EvConnection node (request ks) ∈ trace w').
  { intros request.
    destruct (_closed (client w)) eqn:Hclosed.
    { erewrite bind_raises by (apply check_closed_closed, Hclosed). discriminate. }
    erewrite bind_returns by (apply check_closed_open, Hclosed).
    destruct keys as [|key keys0]; [contradiction|].
    set (ks := key :: keys0).
    pose proof (world_preserving_constant _
                  (constant_for_each ks Client.check_key
                     (fun k => constant_raise_if _ _)) w) as Hw.
    destruct (for_each ks Client.check_key w) as [[e|[]] w0] eqn:Hcheck;
      simpl in Hw; subst w0.
    { erewrite bind_raises by exact Hcheck. discriminate. }
    erewrite bind_returns by exact Hcheck.
    destruct (pick_nodes env (trace w) ks) as [e|groups] eqn:Hpick.
    { erewrite bind_raises by (rewrite cluster_pick_nodes_runs, Hpick; reflexivity).
      discriminate. }
    erewrite bind_returns by (rewrite cluster_pick_nodes_runs, Hpick; reflexivity).
    intros Hfan. apply fan_out_success in Hfan. destruct Hfan as [Hlen Hall].
    exists groups. split; [reflexivity|]. split; [now rewrite length_map in Hlen|].
    intros i node nks reply Hg Hr.
    apply (Hall i node (request nks) reply); [|exact Hr].
    rewrite list_lookup_fmap, Hg. reflexivity. }
  destruct r; simpl in Hrun;
    unfold Client._fetch_many_command, Client._get_and_touch_many_command in Hrun.
  - exact (Hshape (fetch_command "get") Hrun).
  - exact (Hshape (fetch_command "gets") Hrun).
  - exact (Hshape (get_and_touch_command "gat" exptime) Hrun).
  - exact (Hshape (get_and_touch_command "gats" exptime) Hrun).
Qed.

Lemma many_proxy_returns_a_reply_per_node_witness :
  let env := fixed_env (fun _ => [(localhost, ["a"; "c"]); (otherhost, ["b"])])
               (fun node _ =>
                  if decide (node = localhost) then inr (["a"], ["1"], [7], [9], "")
                  else inr (["b"], ["2"], [8], [10], ""))
               (fun _ => inr None) [1%nat; 0%nat] 0 (fun _ => []) in
  let run := many_proxy env (MGatMany 30) ["a"; "b"; "c"] false (new_world false) in
  exists groups,
    pick_nodes env (trace (new_world false)) ["a"; "b"; "c"] = inr groups /\
    length [(["a"], ["1"], [7], [9], ""); (["b"], ["2"], [8], [10], "")] = length groups /\
    forall i node ks reply,
      groups !! i = Some (node, ks) ->
      [(["a"], ["1"], [7], [9], ""); (["b"], ["2"], [8], [10], "")] !! i = Some reply ->
      tasks run.2 !! (length (tasks (new_world false)) + i)%nat
        = Some (mkTask node (many_request (MGatMany 30) ks) (Done (inr reply))) /\
      (exists tr, fetch_reply env tr node (many_request (MGatMany 30) ks) = inr reply) /\
      EvConnection node (many_request (MGatMany 30) ks) ∈ trace run.2.
Proof.
  intros env run.
  apply (many_proxy_returns_a_reply_per_node env (MGatMany 30) ["a"; "b"; "c"] false
           (new_world false)).
  - discriminate.
  - vm_compute. reflexivity.
Defined.

(** ** Integers written and read back *)

Lemma rev_app_rev_app s : forall t u,
  String.rev_app (String.rev_app s t) u = String.rev_app t (s ++ u)%string.
Proof.
  induction s as [|a s IH]; intros t u; simpl; [reflexivity|].
  now rewrite IH.
Qed.

Lemma string_app_nil_r (s : string) : (s ++ "")%string = s.
Proof.
  induction s as [|a s IH]; [reflexivity|].
  change (String a (s ++ "")%string = String a s). now rewrite IH.
Qed.

Lemma rev_rev s : String.rev (String.rev s) = s.
Proof. unfold String.rev. rewrite rev_app_rev_app. simpl. apply string_app_nil_r. Qed.

Lemma no_space_rev_app s : forall t,
  no_space s = true -> no_space t = true -> no_space (String.rev_app s t) = true.
Proof.
  induction s as [|a s IH]; intros t Hs Ht; simpl in *; [exact Ht|].
  apply andb_true_iff in Hs. destruct Hs as [Ha Hs].
  apply IH; [exact Hs|]. simpl. now rewrite Ha, Ht.
Qed.

Lemma lstrip_no_space s : no_space s = true -> lstrip s = s.
Proof.
  destruct s as [|a s]; simpl; [reflexivity|].
  intros H. apply andb_true_iff in H. destruct H as [Ha _].
  apply negb_true_iff in Ha. now rewrite Ha.
Qed.

Lemma strip_no_space s : no_space s = true -> rstrip (lstrip s) = s.
Proof.
  intros H. rewrite (lstrip_no_space s H). unfold rstrip.
  rewrite lstrip_no_space; [apply rev_rev|].
  unfold String.rev. now apply no_space_rev_app.
Qed.

Lemma pretty_N_char_digit d :
  (d < 10)%N ->
  digit_value (pretty_N_char d) = Some (Z.of_N d) /\
  is_space (pretty_N_char d) = false /\
  pretty_N_char d <> "-"%char /\ pretty_N_char d <> "+"%char.
Proof.
  intros H.
  assert (Hd : (d = 0 \/ d = 1 \/ d = 2 \/ d = 3 \/ d = 4 \/ d = 5 \/ d = 6 \/ d = 7
               \/ d = 8 \/ d = 9)%N) by lia.
  repeat (destruct Hd as [-> | Hd]); try subst d;
    (split; [reflexivity | split; [reflexivity | split; discriminate]]).
Qed.

Lemma count_digits_digit c r d :
  digit_value c = Some d -> count_digits (String c r) = S (count_digits r).
Proof. intros H. simpl. now rewrite H. Qed.

(** The digits written for a positive number: a digit first, no white
    space, read back as the number, and as many as the number has. *)
Lemma pretty_N_go_read x :
  (0 < x)%N ->
  forall s,
    int_digits (pretty_N_go x s) 0 false = int_digits s (Z.of_N x) true /\
    (no_space s = true -> no_space (pretty_N_go x s) = true) /\
    (exists c r, pretty_N_go x s = String c r /\ c <> "-"%char /\ c <> "+"%char) /\
    (forall k, (x < 10 ^ N.of_nat k)%N ->
               (count_digits (pretty_N_go x s) <= count_digits s + k)%nat) /\
    (forall k, (10 ^ N.of_nat k <= x)%N ->
               (count_digits s + k + 1 <= count_digits (pretty_N_go x s))%nat).
Proof.
  induction (N.lt_wf_0 x) as [x _ IH]. intros Hx s.
  rewrite pretty_N_go_step by exact Hx.
  assert (Hmod : (x `mod` 10 < 10)%N) by (apply N.mod_lt; discriminate).
  destruct (pretty_N_char_digit _ Hmod) as (Hdigit & Hspace & Hdash & Hplus).
  pose proof (N.div_mod x 10 ltac:(discriminate)) as HdmN.
  pose proof (count_digits_digit _ s _ Hdigit) as Hcount.
  assert (Hpow : forall k, (10 ^ N.of_nat (S k) = 10 * 10 ^ N.of_nat k)%N).
  { intros k. now rewrite Nat2N.inj_succ, N.pow_succ_r'. }
  assert (Hpowpos : forall k, (0 < 10 ^ N.of_nat k)%N).
  { intros k. apply N.neq_0_lt_0, N.pow_nonzero. discriminate. }
  remember (x `div` 10)%N as q eqn:Hq.
  remember (x `mod` 10)%N as m eqn:Hm.
  assert (Hdm : Z.of_N x = 10 * Z.of_N q + Z.of_N m) by lia.
  clear Hq Hm.
  destruct (N.eq_dec q 0%N) as [Hz | Hnz].
  - subst q. rewrite pretty_N_go_0.
    split; [simpl; rewrite Hdigit; simpl in Hdm; now rewrite Hdm|].
    split; [intros Hs; simpl; now rewrite Hspace, Hs|].
    split; [eauto|].
    rewrite Hcount. split.
    + intros [|k] Hk; [simpl in Hk; lia | lia].
    + intros [|k] Hk; [lia|]. rewrite Hpow in Hk. specialize (Hpowpos k). lia.
  - assert (Hlt : (q < x)%N) by lia.
    assert (Hpos : (0 < q)%N) by lia.
    destruct (IH _ Hlt Hpos (String (pretty_N_char m) s))
      as (Hread & Hns & Hhead & Hup & Hlow).
    rewrite Hcount in Hup, Hlow.
    split; [| split; [| split; [exact Hhead | split]]].
    + rewrite Hread. simpl. rewrite Hdigit. now rewrite Hdm.
    + intros Hs. apply Hns. simpl. now rewrite Hspace, Hs.
    + intros [|k] Hk; [simpl in Hk; lia|]. rewrite Hpow in Hk.
      specialize (Hup k ltac:(lia)). lia.
    + intros [|k] Hk.
      * specialize (Hlow 0%nat ltac:(simpl; lia)). lia.
      * rewrite Hpow in Hk. specialize (Hlow k ltac:(lia)). lia.
Qed.

Lemma unsigned_body c r :
  c <> "-"%char -> c <> "+"%char ->
  match String c r with
  | String "-" r' => (true, r')
  | String "+" r' => (false, r')
  | s => (false, s)
  end = (false, String c r).
Proof.
  intros Hd Hp.
  destruct c as [[] [] [] [] [] [] [] []]; try reflexivity; contradiction.
Qed.

(** What [int] reads of what [%a] wrote: the sign and the digits. *)
Lemma int_body_fmt_int p :
  int_body (fmt_int (Z.pos p)) = (false, pretty_N_go (N.pos p) "") /\
  int_body (fmt_int (Z.neg p)) = (true, pretty_N_go (N.pos p) "").
Proof.
  destruct (pretty_N_go_read (N.pos p) eq_refl "")
    as (_ & Hns & (c & r & Hcr & Hd & Hp) & _).
  unfold fmt_int, pretty, pretty_Z, pretty, pretty_positive, pretty, pretty_N.
  destruct (decide (N.pos p = 0%N)) as [H|_]; [discriminate H|].
  unfold int_body. split.
  - rewrite strip_no_space by (now apply Hns).
    rewrite Hcr. now apply unsigned_body.
  - rewrite strip_no_space by (simpl; now apply Hns). reflexivity.
Qed.

Lemma limit_as_N (x : N) :
  (Z.of_N x < 10 ^ Z.of_nat INT_MAX_STR_DIGITS <->
   (x < 10 ^ N.of_nat INT_MAX_STR_DIGITS)%N).
Proof.
  rewrite <- nat_N_Z, <- (N2Z.inj_pow 10%N). symmetry. apply N2Z.inj_lt.
Qed.

(** Reading back what [%a] wrote for an integer gives that integer, as
    long as it has no more digits than [int] accepts. *)
Lemma py_int_fmt_int n :
  Z.abs n < 10 ^ Z.of_nat INT_MAX_STR_DIGITS -> py_int (fmt_int n) = Some n.
Proof.
  intros Hn. destruct n as [|p|p]; [reflexivity| |];
    destruct (int_body_fmt_int p) as [Hpos Hneg];
    destruct (pretty_N_go_read (N.pos p) eq_refl "") as (Hread & _ & _ & Hup & _);
    specialize (Hup INT_MAX_STR_DIGITS (proj1 (limit_as_N (N.pos p)) Hn));
    change (count_digits (pretty_N_go (N.pos p) "") <= INT_MAX_STR_DIGITS)%nat in Hup;
    apply Nat.ltb_ge in Hup;
    unfold py_int.
  - rewrite Hpos. cbv beta iota. rewrite Hup, Hread. reflexivity.
  - rewrite Hneg. cbv beta iota. rewrite Hup, Hread. reflexivity.
Qed.

(** Beyond that [int] refuses it. *)
Lemma long_text p :
  10 ^ Z.of_nat INT_MAX_STR_DIGITS <= Z.pos p ->
  (INT_MAX_STR_DIGITS < count_digits (pretty_N_go (N.pos p) ""))%nat.
Proof.
  intros Hle.
  destruct (pretty_N_go_read (N.pos p) eq_refl "") as (_ & _ & _ & _ & Hlow).
  assert (Hle' : (10 ^ N.of_nat INT_MAX_STR_DIGITS <= N.pos p)%N).
  { apply N.le_ngt. intros Hlt. apply limit_as_N in Hlt.
    change (Z.of_N (N.pos p)) with (Z.pos p) in Hlt.
    exact (proj1 (Z.le_ngt _ _) Hle Hlt). }
  specialize (Hlow _ Hle').
  change (INT_MAX_STR_DIGITS + 1 <= count_digits (pretty_N_go (N.pos p) ""))%nat in Hlow.
  rewrite Nat.add_1_r in Hlow. exact Hlow.
Qed.

Lemma py_int_fmt_int_long n :
  10 ^ Z.of_nat INT_MAX_STR_DIGITS <= Z.abs n -> py_int (fmt_int n) = None.
Proof.
  intros Hn. destruct n as [|p|p].
  - exfalso. apply (proj1 (Z.le_ngt _ _) Hn). apply Z.pow_pos_nonneg; [reflexivity|].
    apply Nat2Z.is_nonneg.
  - destruct (int_body_fmt_int p) as [Hpos _]. unfold py_int.
    rewrite Hpos. cbv beta iota. now rewrite (proj2 (Nat.ltb_lt _ _) (long_text p Hn)).
  - destruct (int_body_fmt_int p) as [_ Hneg]. unfold py_int.
    rewrite Hneg. cbv beta iota. now rewrite (proj2 (Nat.ltb_lt _ _) (long_text p Hn)).
Qed.

(** A counter reply that is the decimal text of an integer of either
    sign is returned by [increment] and [decrement] as that integer when
    it has at most 4300 digits, the most [int] accepts; a longer one
    makes [int(result)] raise [ValueError]. *)
Theorem counter_value_round_trip env d key delta w n w' :
  Client._incr_decr_command env (counter_command d) key delta false w
    = (inr (Some (fmt_int n)), w') ->
  (Z.abs n < 10 ^ Z.of_nat INT_MAX_STR_DIGITS ->
     counter_call env d key delta false w = (inr (Some n), w')) /\
  (10 ^ Z.of_nat INT_MAX_STR_DIGITS <= Z.abs n ->
     exists msg, counter_call env d key delta false w = (inl (ValueError msg), w')).
Proof.
  intros Hproxy.
  assert (Hnf : Some (fmt_int n) <> Some NOT_FOUND).
  { intros Heq. injection Heq as Heq.
    destruct (Z.lt_ge_cases (Z.abs n) (10 ^ Z.of_nat INT_MAX_STR_DIGITS)) as [H | H].
    - pose proof (py_int_fmt_int n H) as Hint. rewrite Heq in Hint. discriminate Hint.
    - assert (Hfew : (count_digits (int_body (fmt_int n)).2 <=? INT_MAX_STR_DIGITS)%nat
                     = true)
        by (rewrite Heq; vm_compute; reflexivity).
      apply Nat.leb_le in Hfew.
      destruct n as [|p|p]; [discriminate Heq | |];
        destruct (int_body_fmt_int p) as [Hpos Hneg];
        pose proof (long_text p H) as Hlong.
      + rewrite Hpos in Hfew. exact (proj1 (Nat.le_ngt _ _) Hfew Hlong).
      + rewrite Hneg in Hfew. exact (proj1 (Nat.le_ngt _ _) Hfew Hlong). }
  assert (Hcall : counter_call env d key delta false w =
                  (if is_token (Some (fmt_int n)) NOT_FOUND
                   then raise NotFoundCommandError
                   else Some <$> Client.int_of_reply (Some (fmt_int n))) w').
  { destruct d; simpl in *; unfold Client.increment, Client.decrement;
      now erewrite bind_returns by exact Hproxy. }
  rewrite Hcall, is_token_false by exact Hnf. split.
  - intros Hn. apply fmap_returns. unfold Client.int_of_reply.
    now rewrite (py_int_fmt_int n Hn).
  - intros Hn. eexists. apply fmap_raises. unfold Client.int_of_reply.
    rewrite (py_int_fmt_int_long n Hn). reflexivity.
Qed.

Lemma counter_value_round_trip_witness :
  let env := constant_env ([], [], [], [], "") (Some "18446744073709551615") in
  counter_call env Incr "n" 1 false (new_world false)
    = (inr (Some 18446744073709551615),
       (Client._incr_decr_command env "incr" "n" 1 false (new_world false)).2).
Proof.
  intros env.
  apply (proj1 (counter_value_round_trip env Incr "n" 1 (new_world false)
                  18446744073709551615 _ ltac:(vm_compute; reflexivity))).
  vm_compute. reflexivity.
Defined.
